(** * The data-access service layer (src/api/base/index.ts, src/api/options/index.ts)

    A shallow embedding of [BaseService] and of its [OptionsService]
    subclass.  The service methods are [async]: each one is split here at
    its [await] points into the part that runs when the method is called
    and the part that runs when the awaited promise settles.  The store
    adapter ([feathers-nedb]'s [Service], reached through [super]) and the
    clock are the environment: an event of the machine says which store
    call settles next and how. *)

From Stdlib Require Import ZArith List String Ascii Bool Lia DecimalString.
Import ListNotations.
Local Open Scope string_scope.
Local Open Scope list_scope.
Set Warnings "-register-all".

(** ** JSON values *)

(** The values that travel through the services ([IJSONData], [params]).
    [JNaN] is the number [NaN]; [JDate] a [Date] object, as milliseconds.
    JavaScript's [undefined] is [None] of an [option json]. *)
Inductive json : Type :=
| JNull
| JBool (b : bool)
| JNum (n : Z)
| JNaN
| JStr (s : string)
| JDate (t : Z)
| JArr (items : list json)
| JObj (fields : list (string * json)).

(** A document or a plain object: its own properties, in insertion order. *)
Definition document : Type := list (string * json).

(** [o[k]]. *)
Fixpoint prop (k : string) (o : document) : option json :=
  match o with
  | [] => None
  | (k', v) :: rest => if (k' =? k)%string then Some v else prop k rest
  end.

(** [o[k] = v]: an existing property keeps its place, a new one goes last.
    Ramda's [assoc] copies the object in the same order. *)
Fixpoint assoc (k : string) (v : json) (o : document) : document :=
  match o with
  | [] => [(k, v)]
  | (k', v') :: rest =>
      if (k' =? k)%string then (k, v) :: rest else (k', v') :: assoc k v rest
  end.

(** JavaScript truthiness, as [if (x)] and [!x] test it. *)
Definition truthy (x : option json) : bool :=
  match x with
  | None => false
  | Some JNull => false
  | Some JNaN => false
  | Some (JBool b) => b
  | Some (JNum n) => negb (n =? 0)%Z
  | Some (JStr s) => negb (s =? EmptyString)%string
  | Some (JDate _) => true
  | Some (JArr _) => true
  | Some (JObj _) => true
  end.

(** Ramda's [path([k1, k2], x)]: [undefined] as soon as a step is missing. *)
Definition path2 (k1 k2 : string) (x : option json) : option json :=
  match x with
  | Some (JObj o) =>
      match prop k1 o with
      | Some (JObj q) => prop k2 q
      | _ => None
      end
  | _ => None
  end.

(** Ramda's [assocPath([k1, k2], v, x)]: a missing step is created as an
    empty object.  A step that holds a primitive is copied by [for .. in],
    which finds no property in it; a string or an array there would
    contribute its indices, which this model leaves out. *)
Definition own_fields (x : option json) : document :=
  match x with
  | Some (JObj o) => o
  | _ => []
  end.

Definition assocPath2 (k1 k2 : string) (v : json) (x : option json) : json :=
  let o := own_fields x in
  JObj (assoc k1 (JObj (assoc k2 v (own_fields (prop k1 o)))) o).

(** ** [JSON.stringify] and [String] *)

Definition decimal (n : Z) : string := NilZero.string_of_int (Z.to_int n).

Definition dquote : ascii := Ascii.ascii_of_nat 34.
Definition backslash : ascii := Ascii.ascii_of_nat 92.

Fixpoint escape (s : string) : string :=
  match s with
  | EmptyString => EmptyString
  | String c rest =>
      if (Ascii.eqb c dquote || Ascii.eqb c backslash)%bool
      then String backslash (String c (escape rest))
      else String c (escape rest)
  end.

Definition quote (s : string) : string :=
  String dquote (escape s ++ String dquote EmptyString)%string.

Fixpoint join (l : list string) : string :=
  match l with
  | [] => EmptyString
  | [s] => s
  | s :: rest => (s ++ "," ++ join rest)%string
  end.

(** [Date.prototype.toJSON]: the ISO rendering of the instant.  Only its
    being a function of the millisecond matters here; the calendar
    arithmetic is not reproduced and the milliseconds are printed. *)
Definition Date_toJSON (t : Z) : string := decimal t.

(** [JSON.stringify] on the values of this model.  Of the characters of a
    string only the quote and the backslash are escaped. *)
Fixpoint JSON_stringify (j : json) : string :=
  match j with
  | JNull => "null"
  | JNaN => "null"
  | JBool true => "true"
  | JBool false => "false"
  | JNum n => decimal n
  | JStr s => quote s
  | JDate t => quote (Date_toJSON t)
  | JArr items => ("[" ++ join (map JSON_stringify items) ++ "]")%string
  | JObj fields =>
      ("{" ++ join (map (fun kv => quote (fst kv) ++ ":" ++ JSON_stringify (snd kv))
                        fields) ++ "}")%string
  end.

(** [JSON.stringify(x)] of a value that may be [undefined].  At top level
    the result is then [undefined] itself, which a [Map] accepts as a key;
    it is written here as a text no JSON rendering can equal. *)
Definition JSON_stringify_top (x : option json) : string :=
  match x with
  | Some j => JSON_stringify j
  | None => "undefined"
  end.

(** Inside an array [undefined] is printed as [null]. *)
Definition in_array (x : option json) : json :=
  match x with
  | Some j => j
  | None => JNull
  end.

(** [String(n)] for a number [n]; [newId] is a number or [NaN]. *)
Definition js_String (n : json) : string :=
  match n with
  | JNum z => decimal z
  | _ => "NaN"
  end.

(** [x + 1] where [x] is a number, [undefined] or [NaN]; the counter is
    only ever written as a number (lines 176-177).  Other operands, which
    JavaScript would coerce, are taken to [NaN]. *)
Definition js_plus_1 (x : option json) : json :=
  match x with
  | Some (JNum z) => JNum (z + 1)
  | _ => JNaN
  end.

(** [n > 0]. *)
Definition js_gt_0 (n : json) : bool :=
  match n with
  | JNum z => (0 <? z)%Z
  | _ => false
  end.

(** ** JavaScript [Map] with string keys: insertion ordered *)

Module JsMap.
Definition t (V : Type) : Type := list (string * V).

Definition empty {V : Type} : t V := [].

Fixpoint get {V : Type} (k : string) (m : t V) : option V :=
  match m with
  | [] => None
  | (k', v) :: rest => if (k' =? k)%string then Some v else get k rest
  end.

Definition has {V : Type} (k : string) (m : t V) : bool :=
  match get k m with
  | Some _ => true
  | None => false
  end.

(** [m.set(k, v)]: a key already present keeps its position and takes
    the new value; a new key is appended. *)
Fixpoint set {V : Type} (k : string) (v : V) (m : t V) : t V :=
  match m with
  | [] => [(k, v)]
  | (k', v') :: rest =>
      if (k' =? k)%string then (k, v) :: rest else (k', v') :: set k v rest
  end.

Fixpoint delete {V : Type} (k : string) (m : t V) : t V :=
  match m with
  | [] => []
  | (k', v') :: rest =>
      if (k' =? k)%string then rest else (k', v') :: delete k rest
  end.

Definition size {V : Type} (m : t V) : nat := List.length m.

(** [const [[key, value]] = m.entries()]. *)
Definition first {V : Type} (m : t V) : option (string * V) :=
  match m with
  | [] => None
  | e :: _ => Some e
  end.
End JsMap.

(** ** Result envelopes ([IReturnData]) *)

Inductive code : Type := OK | Error.

Record envelope : Type := mkEnvelope {
  resultCode : code;
  payload : option json;
  errorMessage : option string
}.

(** How a promise of the store adapter settles.  The adapter rejects with
    the error object the database reported or with one of its own errors;
    only the message of it is read. *)
Inductive settled : Type :=
| Resolved (value : json)
| Rejected (message : string).

(** Lines 77-95.  [error] is set by the [catch] handler, in which case
    [result] is [undefined]. *)
Definition formatData (promise : settled) : envelope :=
  let error := match promise with Rejected e => Some e | Resolved _ => None end in
  let result := match promise with Resolved v => Some v | Rejected _ => None end in
  match error with
  | Some message =>
      {| resultCode := Error; payload := None; errorMessage := Some message |}
  | None =>
      {| resultCode := OK; payload := result; errorMessage := None |}
  end.

Definition is_OK (e : envelope) : bool :=
  match resultCode e with
  | OK => true
  | Error => false
  end.

(** ** Services, continuations, the world *)

(** The two service instances of the model: any [BaseService], and the
    [OptionsService] that [setup] (line 238) wires into it as
    [this.optionsService]. *)
Inductive sid : Type := Main | Opts.

Definition handle : Type := nat.

(** Who receives an envelope once it is available. *)
Inductive kont : Type :=
| KCaller (h : handle)
    (* the promise handed to an outside caller *)
| KDiscard
    (* a promise nobody awaits (the calls of lines 176-177) *)
| KIncremental (s : sid) (data : document) (params : option json) (k : kont)
    (* [createIncremental] suspended at line 168 *)
| KDrain (resolve : kont) (result : json) (k : kont).
    (* [createNormal] suspended at line 161 *)

(** The value stored in [creationQueue] (lines 192-196). *)
Record queued : Type := mkQueued {
  q_data : document;
  q_params : option json;
  q_resolve : kont
}.

Record service : Type := mkService {
  incremental : bool;
  cacheable : bool;
  cachedQueries_find : JsMap.t envelope;
  cachedQueries_get : JsMap.t envelope;
  isCreationInProcess : bool;
  creationQueue : JsMap.t queued
}.

(** The constructor, lines 45-75. *)
Definition new_service (incremental cacheable : bool) : service :=
  {| incremental := incremental;
     cacheable := cacheable;
     cachedQueries_find := JsMap.empty;
     cachedQueries_get := JsMap.empty;
     isCreationInProcess := false;
     creationQueue := JsMap.empty |}.

(** [baseService(name)], lines 242-253: an incremental service with the
    default [cacheable]. *)
Definition baseService : service := new_service true true.

(** A call made on the store adapter through [super]. *)
Inductive super_call : Type :=
| SuperFind (s : sid) (params : option json)
| SuperGet (s : sid) (id : json) (params : option json)
| SuperCreate (s : sid) (data : document) (params : option json)
| SuperUpdate (s : sid) (id : json) (data : document) (params : option json)
| SuperPatch (s : sid) (id : json) (data : document) (params : option json)
| SuperRemove (s : sid) (id : json) (params : option json).

(** The code waiting for a store call to fulfil. *)
Inductive awaiting : Type :=
| AwaitFind (s : sid) (key : string) (k : kont)      (* line 123 *)
| AwaitGet (s : sid) (key : string) (k : kont)       (* line 142 *)
| AwaitCreate (s : sid) (k : kont)                   (* line 152 *)
| AwaitMutation (s : sid) (k : kont).                (* lines 213, 222, 231 *)

(** What an outside caller gets back. *)
Inductive reply : Type :=
| Returned (e : envelope)
| Raised (message : string).

Record world : Type := mkWorld {
  main : service;
  opts : service;
  clock : Z;                               (* what [new Date()] reads *)
  trace : list super_call;                 (* every store call made, in order *)
  pending : list (nat * awaiting);         (* store calls not yet settled *)
  ready : list (kont * envelope);          (* settled, continuation not yet run *)
  replies : list (handle * reply)
}.

(** [OptionsService] is built with the default [incremental = false]
    (src/api/options/index.ts, lines 31-34). *)
Definition new_world (incremental cacheable : bool) : world :=
  {| main := new_service incremental cacheable;
     opts := new_service false true;
     clock := 0;
     trace := [];
     pending := [];
     ready := [];
     replies := [] |}.

Definition service_of (s : sid) (w : world) : service :=
  match s with
  | Main => main w
  | Opts => opts w
  end.

Definition with_service (s : sid) (this : service) (w : world) : world :=
  match s with
  | Main => mkWorld this (opts w) (clock w) (trace w) (pending w) (ready w) (replies w)
  | Opts => mkWorld (main w) this (clock w) (trace w) (pending w) (ready w) (replies w)
  end.

Definition with_pending (p : list (nat * awaiting)) (w : world) : world :=
  mkWorld (main w) (opts w) (clock w) (trace w) p (ready w) (replies w).

Definition with_ready (r : list (kont * envelope)) (w : world) : world :=
  mkWorld (main w) (opts w) (clock w) (trace w) (pending w) r (replies w).

Definition with_clock (t : Z) (w : world) : world :=
  mkWorld (main w) (opts w) t (trace w) (pending w) (ready w) (replies w).

(** The store call is made, and [a] waits for it.  A call is named by its
    position in [trace]. *)
Definition issue (c : super_call) (a : awaiting) (w : world) : world :=
  mkWorld (main w) (opts w) (clock w) (trace w ++ [c])
          (pending w ++ [(List.length (trace w), a)]) (ready w) (replies w).

(** A promise is fulfilled with [e]; whoever awaits it runs at a later tick. *)
Definition fulfil (k : kont) (e : envelope) (w : world) : world :=
  with_ready (ready w ++ [(k, e)]) w.

Definition answer (h : handle) (r : reply) (w : world) : world :=
  mkWorld (main w) (opts w) (clock w) (trace w) (pending w) (ready w)
          (replies w ++ [(h, r)]).

(** A method either returns normally or throws. *)
Inductive completion (A : Type) : Type :=
| Normal (a : A)
| Throw (message : string).
Arguments Normal {A} a.
Arguments Throw {A} message.

(** ** [BaseService] (src/api/base/index.ts) *)

Definition optionLastId : string := "last_id".

(** [view(sortL, params)] and [set(sortL, v, params)] for the lens of line 32. *)
Definition view_sortL (params : option json) : option json :=
  path2 "query" "$sort" params.

Definition set_sortL (v : json) (params : option json) : json :=
  assocPath2 "query" "$sort" v params.

Definition with_find_cache (m : JsMap.t envelope) (this : service) : service :=
  mkService (incremental this) (cacheable this) m (cachedQueries_get this)
            (isCreationInProcess this) (creationQueue this).

Definition with_get_cache (m : JsMap.t envelope) (this : service) : service :=
  mkService (incremental this) (cacheable this) (cachedQueries_find this) m
            (isCreationInProcess this) (creationQueue this).

Definition with_isCreationInProcess (b : bool) (this : service) : service :=
  mkService (incremental this) (cacheable this) (cachedQueries_find this)
            (cachedQueries_get this) b (creationQueue this).

Definition with_creationQueue (q : JsMap.t queued) (this : service) : service :=
  mkService (incremental this) (cacheable this) (cachedQueries_find this)
            (cachedQueries_get this) (isCreationInProcess this) q.

(** Lines 97-105: both maps are emptied. *)
Definition clearCache (this : service) : service :=
  with_get_cache JsMap.empty (with_find_cache JsMap.empty this).

(** Lines 108-112: the params [find] goes on with. *)
Definition find_params (this : service) (params : option json) : option json :=
  if (incremental this && negb (truthy (view_sortL params)))%bool
  then Some (set_sortL (JObj [("id", JNum (-1))]) params)
  else params.

(** [find], lines 107-123, up to the [await].  [has] and [get] of lines
    116-118 are one lookup here. *)
Definition find (s : sid) (params : option json) (k : kont) (w : world) : world :=
  let this := service_of s w in
  let params := find_params this params in
  let key := JSON_stringify_top params in
  match (if cacheable this then JsMap.get key (cachedQueries_find this) else None) with
  | Some cached => fulfil k cached w
  | None => issue (SuperFind s params) (AwaitFind s key k) w
  end.

(** [find], lines 123-129, once [super.find] has settled. *)
Definition find_settled (s : sid) (key : string) (k : kont) (o : settled)
    (w : world) : world :=
  let this := service_of s w in
  let result := formatData o in
  let w :=
    if (cacheable this && is_OK result)%bool
    then with_service s
           (with_find_cache (JsMap.set key result (cachedQueries_find this)) this) w
    else w in
  fulfil k result w.

(** [get], lines 132-142. *)
Definition get (s : sid) (id : json) (params : option json) (k : kont)
    (w : world) : world :=
  let this := service_of s w in
  let key := JSON_stringify (JArr [id; in_array params]) in
  match (if cacheable this then JsMap.get key (cachedQueries_get this) else None) with
  | Some cached => fulfil k cached w
  | None => issue (SuperGet s id params) (AwaitGet s key k) w
  end.

(** [get], lines 142-148. *)
Definition get_settled (s : sid) (key : string) (k : kont) (o : settled)
    (w : world) : world :=
  let this := service_of s w in
  let result := formatData o in
  let w :=
    if (cacheable this && is_OK result)%bool
    then with_service s
           (with_get_cache (JsMap.set key result (cachedQueries_get this)) this) w
    else w in
  fulfil k result w.

(** [update], lines 209-213. *)
Definition update (s : sid) (id : json) (data : document) (params : option json)
    (k : kont) (w : world) : world :=
  let data := assoc "updated" (JDate (clock w)) data in
  issue (SuperUpdate s id data params) (AwaitMutation s k) w.

(** [patch], lines 219-222. *)
Definition patch (s : sid) (id : json) (data : document) (params : option json)
    (k : kont) (w : world) : world :=
  issue (SuperPatch s id data params) (AwaitMutation s k) w.

(** [remove], lines 228-231. *)
Definition remove (s : sid) (id : json) (params : option json) (k : kont)
    (w : world) : world :=
  issue (SuperRemove s id params) (AwaitMutation s k) w.

(** [update], [patch] and [remove] after their [formatData] (lines
    213-216, 222-225, 231-234). *)
Definition mutation_settled (s : sid) (k : kont) (o : settled) (w : world) : world :=
  let result := formatData o in
  let w := with_service s (clearCache (service_of s w)) w in
  fulfil k result w.

(** [createNormal], line 152: the insert is sent. *)
Definition createNormal (s : sid) (data : document) (params : option json)
    (k : kont) (w : world) : world :=
  issue (SuperCreate s data params) (AwaitCreate s k) w.

(** [createIncremental], line 168: the counter is read through
    [this.optionsService.get(optionLastId)]. *)
Definition createIncremental (s : sid) (data : document) (params : option json)
    (k : kont) (w : world) : world :=
  get Opts (JStr optionLastId) None (KIncremental s data params k) w.

(** [create], lines 186-207.  [k] receives the envelope: from
    [value.resolve] for a queued request, from [formatData] otherwise. *)
Definition create (s : sid) (data : document) (params : option json) (k : kont)
    (w : world) : world :=
  let this := service_of s w in
  let data := assoc "created" (JDate (clock w)) data in
  if isCreationInProcess this then
    let key := JSON_stringify (JArr [JObj data; in_array params]) in
    with_service s
      (with_creationQueue
         (JsMap.set key (mkQueued data params k) (creationQueue this)) this) w
  else
    let w := with_service s (with_isCreationInProcess true this) w in
    if incremental this
    then createIncremental s data params k w
    else createNormal s data params k w.

(** ** [OptionsService] (src/api/options/index.ts) *)

(** Lines 15-17, [params.query.internal = { $ne: true }]: the statement
    throws a [TypeError] when [params] or [params.query] is [undefined],
    [null] or (the module being strict) a primitive.  On an array or a
    [Date] it adds a property that neither [JSON.stringify] nor this model
    shows. *)
Definition OptionsService_find_params (params : option json)
    : completion (option json) :=
  match params with
  | Some (JObj o) =>
      match prop "query" o with
      | Some (JObj q) =>
          Normal (Some (JObj (assoc "query"
                    (JObj (assoc "internal" (JObj [("$ne", JBool true)]) q)) o)))
      | Some (JArr _) => Normal params
      | Some (JDate _) => Normal params
      | _ => Throw "TypeError: cannot set property 'internal'"
      end
  | Some (JArr _) => Throw "TypeError: cannot set property 'internal'"
  | Some (JDate _) => Throw "TypeError: cannot set property 'internal'"
  | _ => Throw "TypeError: cannot read property 'query'"
  end.

(** Lines 13-20. *)
Definition OptionsService_find (params : option json) (k : kont) (w : world)
    : completion world :=
  match OptionsService_find_params params with
  | Normal params => Normal (find Opts params k w)
  | Throw m => Throw m
  end.

(** Lines 22-28. *)
Definition OptionsService_create (data : document) (params : option json)
    (k : kont) (w : world) : completion world :=
  if negb (truthy (prop "_id" data))
  then Throw "ID parameter is mandatory!"
  else Normal (create Opts data params k w).

(** ** Method dispatch and the code after each [await] *)

(** [this.find] and [this.create] on the instance [s]. *)
Definition this_find (s : sid) (params : option json) (k : kont) (w : world)
    : completion world :=
  match s with
  | Main => Normal (find Main params k w)
  | Opts => OptionsService_find params k w
  end.

Definition this_create (s : sid) (data : document) (params : option json)
    (k : kont) (w : world) : completion world :=
  match s with
  | Main => Normal (create Main data params k w)
  | Opts => OptionsService_create data params k w
  end.

(** [createNormal], lines 152-164, once [super.create] has settled.  A
    rejection leaves the function at line 152. *)
Definition createNormal_settled (s : sid) (k : kont) (o : settled) (w : world)
    : world :=
  match o with
  | Rejected e => fulfil k (formatData (Rejected e)) w
  | Resolved result =>
      let w := with_service s (clearCache (service_of s w)) w in
      let w := with_service s (with_isCreationInProcess false (service_of s w)) w in
      let this := service_of s w in
      match JsMap.first (creationQueue this) with
      | Some (key, value) =>
          let w := with_service s
                     (with_creationQueue (JsMap.delete key (creationQueue this)) this) w in
          match this_create s (q_data value) (q_params value)
                            (KDrain (q_resolve value) result k) w with
          | Normal w => w
          | Throw e => fulfil k (formatData (Rejected e)) w
          end
      | None => fulfil k (formatData (Resolved result)) w
      end
  end.

(** Lines 169-173.  Reading [.value] of a [null] or [undefined] payload
    throws. *)
Definition newId_of (serviceLastId : envelope) : completion json :=
  match resultCode serviceLastId with
  | OK =>
      match payload serviceLastId with
      | Some (JObj o) => Normal (js_plus_1 (prop "value" o))
      | Some JNull => Throw "TypeError: cannot read property 'value'"
      | None => Throw "TypeError: cannot read property 'value'"
      | Some _ => Normal JNaN
      end
  | Error => Normal (JNum 0)
  end.

(** [createIncremental], lines 169-183, once the counter has been read.
    Line 175 awaits [newId], not the call: [update] or [create] of the
    counter is started and its promise dropped. *)
Definition createIncremental_resumed (s : sid) (data : document)
    (params : option json) (k : kont) (serviceLastId : envelope) (w : world)
    : world :=
  match newId_of serviceLastId with
  | Throw e => fulfil k (formatData (Rejected e)) w
  | Normal newId =>
      let started :=
        if js_gt_0 newId
        then Normal (update Opts (JStr optionLastId)
                       [("value", newId); ("internal", JBool true)] None KDiscard w)
        else this_create Opts
               [("_id", JStr optionLastId); ("value", newId); ("internal", JBool true)]
               None KDiscard w in
      match started with
      | Throw e => fulfil k (formatData (Rejected e)) w
      | Normal w =>
          let data := assoc "_id" (JStr (js_String newId)) data in
          createNormal s data params k w
      end
  end.

(** The code that was awaiting a store call runs. *)
Definition store_settled (a : awaiting) (o : settled) (w : world) : world :=
  match a with
  | AwaitFind s key k => find_settled s key k o w
  | AwaitGet s key k => get_settled s key k o w
  | AwaitCreate s k => createNormal_settled s k o w
  | AwaitMutation s k => mutation_settled s k o w
  end.

(** The code that was awaiting an envelope runs.  For [KDrain] this is
    line 161, [value.resolve(...)], then line 164 and the [formatData] of
    line 202 around it. *)
Definition envelope_delivered (k : kont) (e : envelope) (w : world) : world :=
  match k with
  | KCaller h => answer h (Returned e) w
  | KDiscard => w
  | KIncremental s data params k' => createIncremental_resumed s data params k' e w
  | KDrain resolve result k' =>
      fulfil k' (formatData (Resolved result)) (fulfil resolve e w)
  end.

(** ** The machine

    One event is one turn of the event loop.  [Call] runs a method up to
    its first [await] (a method that throws before that answers [Raised]).
    [Settle c o] is the store adapter settling its [c]-th call with [o]:
    the code awaiting it runs up to its next [await].  [Tick] runs the
    oldest continuation whose promise is already fulfilled.  [Clock] moves
    the time that [new Date()] reads.

    JavaScript empties its microtask queue before it takes the next store
    callback, so a run of the program takes [Tick]s until [ready] is empty
    before a [Settle]; calls written one after the other without [await]
    are consecutive [Call]s.  The machine accepts any list of events; what
    holds for all of them holds for the runs of the program.  Logging and
    the hook pipeline of the host are not part of it. *)

Inductive request : Type :=
| Find (params : option json)
| Get (id : json) (params : option json)
| Create (data : document) (params : option json)
| Update (id : json) (data : document) (params : option json)
| Patch (id : json) (data : document) (params : option json)
| Remove (id : json) (params : option json).

Inductive event : Type :=
| Call (s : sid) (r : request) (h : handle)   (* a caller invokes a method *)
| Settle (c : nat) (o : settled)              (* the store settles call [c] *)
| Tick                                        (* the oldest ready continuation runs *)
| Clock (t : Z).                              (* time passes *)

Definition invoke (s : sid) (r : request) (k : kont) (w : world) : completion world :=
  match r with
  | Find params => this_find s params k w
  | Get id params => Normal (get s id params k w)
  | Create data params => this_create s data params k w
  | Update id data params => Normal (update s id data params k w)
  | Patch id data params => Normal (patch s id data params k w)
  | Remove id params => Normal (remove s id params k w)
  end.

Fixpoint take_pending (c : nat) (p : list (nat * awaiting))
    : option (awaiting * list (nat * awaiting)) :=
  match p with
  | [] => None
  | (c', a) :: rest =>
      if Nat.eqb c' c then Some (a, rest)
      else match take_pending c rest with
           | Some (a', rest') => Some (a', (c', a) :: rest')
           | None => None
           end
  end.

Definition step (w : world) (ev : event) : world :=
  match ev with
  | Call s r h =>
      match invoke s r (KCaller h) w with
      | Normal w' => w'
      | Throw e => answer h (Raised e) w
      end
  | Settle c o =>
      match take_pending c (pending w) with
      | Some (a, rest) => store_settled a o (with_pending rest w)
      | None => w
      end
  | Tick =>
      match ready w with
      | (k, e) :: rest => envelope_delivered k e (with_ready rest w)
      | [] => w
      end
  | Clock t => with_clock t w
  end.

Definition run (evs : list event) (w : world) : world := fold_left step evs w.

(** ** Properties stated about envelopes, caches and traces *)

(** The envelope invariant of the data model: [payload] exactly with
    ['OK'], [errorMessage] exactly with ['Error']. *)
Definition well_formed (e : envelope) : Prop :=
  match resultCode e with
  | OK => payload e <> None /\ errorMessage e = None
  | Error => errorMessage e <> None /\ payload e = None
  end.

Definition well_formed_reply (r : reply) : Prop :=
  exists e, r = Returned e /\ well_formed e.

(** The two methods [OptionsService] overrides; every other call runs
    [BaseService]'s own method. *)
Definition overridden (s : sid) (r : request) : bool :=
  match s, r with
  | Opts, Find _ => true
  | Opts, Create _ _ => true
  | _, _ => false
  end.

Definition BaseService_event (ev : event) : Prop :=
  match ev with
  | Call s r _ => overridden s r = false
  | _ => True
  end.

Definition all_values {V : Type} (P : V -> Prop) (m : JsMap.t V) : Prop :=
  Forall (fun kv => P (snd kv)) m.

Definition caches_hold (P : envelope -> Prop) (w : world) : Prop :=
  forall s, all_values P (cachedQueries_find (service_of s w)) /\
            all_values P (cachedQueries_get (service_of s w)).

Definition envelopes_well_formed (w : world) : Prop :=
  Forall (fun ke => well_formed (snd ke)) (ready w) /\
  caches_hold well_formed w /\
  Forall (fun hr => well_formed_reply (snd hr)) (replies w).


Definition outputs_well_formed (w : world) : Prop :=
  Forall (fun ke => well_formed (snd ke)) (ready w) /\
  Forall (fun hr => well_formed_reply (snd hr)) (replies w).

(** ** Concrete runs *)

(** A find is answered and cached; a create follows whose insert the
    store rejects; the same find is issued again. *)
Definition failed_create_run : list event :=
  [ Call Main (Find (Some (JObj []))) 1;
    Settle 0 (Resolved (JArr [JObj [("_id", JStr "a")]]));
    Tick;
    Call Main (Create [("_id", JStr "a")] None) 2;
    Settle 1 (Rejected "unique constraint violated");
    Tick;
    Call Main (Find (Some (JObj []))) 3;
    Tick ].

(** Three creates issued back to back, within one millisecond; the second
    and the third carry the same data and params.  The store accepts every
    insert it is sent. *)
Definition duplicate_requests_run : list event :=
  [ Call Main (Create [("title", JStr "first")] None) 1;
    Call Main (Create [("title", JStr "same")] None) 2;
    Call Main (Create [("title", JStr "same")] None) 3;
    Settle 0 (Resolved (JObj [("title", JStr "first")]));
    Settle 1 (Resolved (JObj [("title", JStr "same")]));
    Tick; Tick; Tick; Tick ].

Definition counter (value : Z) : json :=
  JObj [("_id", JStr optionLastId); ("value", JNum value); ("internal", JBool true)].

(** Three creates issued back to back on a fresh incremental service.
    Store calls are numbered in the order they are made; every write of
    the counter settles before the insert that was started after it. *)
Definition counter_first_run : list event :=
  [ Call Main (Create [("title", JStr "a")] None) 1;
    Call Main (Create [("title", JStr "b")] None) 2;
    Call Main (Create [("title", JStr "c")] None) 3;
    Settle 0 (Rejected "No record found for id 'last_id'");  (* read of the counter *)
    Tick;
    Settle 1 (Resolved (counter 0)); Tick;                    (* counter created *)
    Settle 2 (Resolved (JObj [("title", JStr "a"); ("_id", JStr "0")]));
    Settle 3 (Resolved (counter 0));                          (* read *)
    Tick;
    Settle 4 (Resolved (counter 1)); Tick;                    (* counter updated *)
    Settle 5 (Resolved (JObj [("title", JStr "b"); ("_id", JStr "1")]));
    Settle 6 (Resolved (counter 1));                          (* read *)
    Tick;
    Settle 7 (Resolved (counter 2)); Tick;                    (* counter updated *)
    Settle 8 (Resolved (JObj [("title", JStr "c"); ("_id", JStr "2")]));
    Tick; Tick; Tick; Tick; Tick ].

(** The same three creates; the second update of the counter (call 4)
    reaches the disk after the insert that was started next to it (call 5).
    Each store still serves its own calls in order. *)
Definition insert_first_run : list event :=
  [ Call Main (Create [("title", JStr "a")] None) 1;
    Call Main (Create [("title", JStr "b")] None) 2;
    Call Main (Create [("title", JStr "c")] None) 3;
    Settle 0 (Rejected "No record found for id 'last_id'");
    Tick;
    Settle 1 (Resolved (counter 0)); Tick;
    Settle 2 (Resolved (JObj [("title", JStr "a"); ("_id", JStr "0")]));
    Settle 3 (Resolved (counter 0));
    Tick;
    Settle 5 (Resolved (JObj [("title", JStr "b"); ("_id", JStr "1")]));
    Tick;                                                     (* the read is served from the cache *)
    Settle 4 (Resolved (counter 1)); Tick ].

(** The [_id] of every document sent to the store of [s] for insertion. *)
Fixpoint inserted_ids (s : sid) (t : list super_call) : list (option json) :=
  match t with
  | [] => []
  | SuperCreate s' data _ :: rest =>
      match s, s' with
      | Main, Main => prop "_id" data :: inserted_ids s rest
      | Opts, Opts => prop "_id" data :: inserted_ids s rest
      | _, _ => inserted_ids s rest
      end
  | _ :: rest => inserted_ids s rest
  end.

(** An incremental create during which the options store rejects both
    the read and the write of the counter. *)
Definition allocator_failure_run : list event :=
  [ Call Main (Create [("title", JStr "a")] None) 1;
    Settle 0 (Rejected "EIO: read failed"); Tick;
    Settle 1 (Rejected "EIO: write failed"); Tick;
    Settle 2 (Resolved (JObj [("title", JStr "a"); ("_id", JStr "0")])); Tick ].

(** Events that come from the store, the scheduler or the clock: no new
    call is made. *)
Definition no_call (ev : event) : Prop :=
  match ev with
  | Call _ _ _ => False
  | _ => True
  end.

(** Params whose [$sort] is present and empty, as the query string
    [?$sort=] is parsed. *)
Definition empty_sort_params : json :=
  JObj [("query", JObj [("$sort", JStr EmptyString)])].

Definition descending_id : json := JObj [("id", JNum (-1))].

Definition ne_true : json := JObj [("$ne", JBool true)].

(** The query object of [params], when there is one, filters on
    [internal] with [{ $ne: true }]. *)
Definition internal_filtered (params : option json) : Prop :=
  match params with
  | Some (JObj o) =>
      match prop "query" o with
      | Some (JObj q) => prop "internal" q = Some ne_true
      | _ => True
      end
  | _ => True
  end.

Definition options_find_filtered (c : super_call) : Prop :=
  match c with
  | SuperFind Opts params => internal_filtered params
  | _ => True
  end.

Definition options_finds_filtered (w : world) : Prop :=
  incremental (opts w) = false /\ Forall options_find_filtered (trace w).

(** [params.query], and whether a value is an object, on which a
    property can be set. *)
Definition query_of (params : option json) : option json :=
  match params with
  | Some (JObj o) => prop "query" o
  | _ => None
  end.

Definition is_object (x : option json) : bool :=
  match x with
  | Some (JObj _) => true
  | Some (JArr _) => true
  | Some (JDate _) => true
  | _ => false
  end.

(** ** A batch of creates *)

(** A create request, with the handle of its caller and the document the
    store answers its insert with. *)
Record job : Type := mkJob {
  j_data : document;
  j_params : option json;
  j_handle : handle;
  j_answer : json
}.

Definition stamped (now : Z) (j : job) : document :=
  assoc "created" (JDate now) (j_data j).

(** The key under which line 192 queues the request. *)
Definition queue_key (now : Z) (j : job) : string :=
  JSON_stringify (JArr [JObj (stamped now j); in_array (j_params j)]).

Definition queue_entry (now : Z) (j : job) : string * queued :=
  (queue_key now j, mkQueued (stamped now j) (j_params j) (KCaller (j_handle j))).

Definition call_of (j : job) : event :=
  Call Main (Create (j_data j) (j_params j)) (j_handle j).

Definition insert_of (now : Z) (j : job) : super_call :=
  SuperCreate Main (stamped now j) (j_params j).

Definition reply_of (j : job) : handle * reply :=
  (j_handle j, Returned (formatData (Resolved (j_answer j)))).

(** The store accepts the inserts one after the other, from call [c] on. *)
Fixpoint settles_from (c : nat) (jobs : list job) : list event :=
  match jobs with
  | [] => []
  | j :: rest => Settle c (Resolved (j_answer j)) :: settles_from (S c) rest
  end.

(** The continuation of the insert of [cur], when the inserts of [done]
    (latest first) came before it in the same drain. *)
Fixpoint kont_of (done : list job) (cur : job) : kont :=
  match done with
  | [] => KCaller (j_handle cur)
  | prev :: done' => KDrain (KCaller (j_handle cur)) (j_answer prev) (kont_of done' prev)
  end.

(** All the creates are issued back to back; then the store settles each
    insert; then the continuations run. *)
Definition batch_run (jobs : list job) : list event :=
  map call_of jobs ++ settles_from 0 jobs ++ repeat Tick (2 * List.length jobs - 1).

(** A non-incremental service while an insert is in flight and [q] is
    queued behind it, its caches empty. *)
Definition busy (cacheable : bool) (q : JsMap.t queued) : service :=
  mkService false cacheable [] [] true q.

(** The last insert of a drain and the inserts before it, latest first. *)
Fixpoint final_of (done : list job) (cur : job) (rest : list job) : list job * job :=
  match rest with
  | [] => (done, cur)
  | nxt :: rest' => final_of (cur :: done) nxt rest'
  end.

From Stdlib Require DecimalZ DecimalPos.

(** ** More about [BaseService] *)

(** The cache key of [get], line 133. *)
Definition get_key (id : json) (params : option json) : string :=
  JSON_stringify (JArr [id; in_array params]).

(** The cache key of [find], lines 108-114. *)
Definition find_key (this : service) (params : option json) : string :=
  JSON_stringify_top (find_params this params).

(** The world in which the store call [c] has been made and is no longer
    awaited. *)
Definition after_call (c : super_call) (w : world) : world :=
  mkWorld (main w) (opts w) (clock w) (trace w ++ [c]) (pending w) (ready w) (replies w).

(** No store call of [w] is named like the next one to be made. *)
Definition next_call_fresh (w : world) : Prop :=
  take_pending (List.length (trace w)) (pending w) = None.

(** [update], [patch] and [remove]: the requests that go through lines
    209-235. *)
Definition is_mutation (r : request) : Prop :=
  match r with
  | Update _ _ _ => True
  | Patch _ _ _ => True
  | Remove _ _ => True
  | _ => False
  end.

(** The store call a mutation makes at time [now]. *)
Definition mutation_call (s : sid) (now : Z) (r : request) : option super_call :=
  match r with
  | Update id data params =>
      Some (SuperUpdate s id (assoc "updated" (JDate now) data) params)
  | Patch id data params => Some (SuperPatch s id data params)
  | Remove id params => Some (SuperRemove s id params)
  | _ => None
  end.

(** A service on which no creation is in flight and none is queued.  *)
Definition idle (this : service) : Prop :=
  isCreationInProcess this = false /\ creationQueue this = JsMap.empty.

(** Events that are creates on the main service, or that are no call. *)
Definition create_or_no_call (ev : event) : Prop :=
  match ev with
  | Call Main (Create _ _) _ => True
  | Call _ _ _ => False
  | _ => True
  end.

(** A main service whose flag is set while nothing is awaited or ready:
    no code is left that would reset the flag. *)
Definition locked (w : world) : Prop :=
  isCreationInProcess (main w) = true /\ pending w = [] /\ ready w = [].

(** A property of each service instance holds in [w]. *)
Definition services_hold (Q : sid -> service -> Prop) (w : world) : Prop :=
  forall s, Q s (service_of s w).

(** [Q] is kept by everything the code does to a service: the flag and
    the queue are written (lines 154, 159, 192, 200), the caches are
    emptied (lines 97-105), and a cacheable service stores an ['OK'] result
    (lines 125-127, 144-146). *)
Definition kept_by_the_code (Q : sid -> service -> Prop) : Prop :=
  (forall s this b, Q s this -> Q s (with_isCreationInProcess b this))
  /\ (forall s this q, Q s this -> Q s (with_creationQueue q this))
  /\ (forall s this, Q s this -> Q s (clearCache this))
  /\ (forall s this key o,
        Q s this -> cacheable this = true -> is_OK (formatData o) = true ->
        Q s (with_find_cache (JsMap.set key (formatData o) (cachedQueries_find this)) this))
  /\ (forall s this key o,
        Q s this -> cacheable this = true -> is_OK (formatData o) = true ->
        Q s (with_get_cache (JsMap.set key (formatData o) (cachedQueries_get this)) this)).

(** The main service is not cacheable and its caches are empty. *)
Definition uncached (s : sid) (this : service) : Prop :=
  match s with
  | Main =>
      cacheable this = false
      /\ cachedQueries_find this = JsMap.empty
      /\ cachedQueries_get this = JsMap.empty
  | Opts => True
  end.

(** The configuration of each service is as in [w0]. *)
Definition configured_as (w0 : world) (s : sid) (this : service) : Prop :=
  incremental this = incremental (service_of s w0)
  /\ cacheable this = cacheable (service_of s w0).

(** ** [PostsService] (src/api/posts/index.ts) *)

(** [if (!data.f) { data.f = v; }]. *)
Definition default_to (f : string) (v : json) (data : document) : document :=
  if negb (truthy (prop f data)) then assoc f v data else data.

(** Lines 27-41, in their order. *)
Definition PostsService_defaults (data : document) : document :=
  default_to "type" (JStr "post")
    (default_to "tags" (JArr [])
       (default_to "status" (JStr "publish")
          (default_to "format" (JStr "standard") data))).

(** [PostsService.create], lines 26-44; the posts service is built
    without [incremental] (lines 47-51). *)
Definition PostsService_create (data : document) (params : option json) (k : kont)
    (w : world) : world :=
  create Main (PostsService_defaults data) params k w.

(** The value lines 27-41 give to a field that the caller left out. *)
Definition post_default (f : string) : option json :=
  if (f =? "format")%string then Some (JStr "standard")
  else if (f =? "status")%string then Some (JStr "publish")
  else if (f =? "tags")%string then Some (JArr [])
  else if (f =? "type")%string then Some (JStr "post")
  else None.

(** * The generator of list state ([crudGenerator]) *)

(** [toUpper] is [String.prototype.toUpperCase]; on ASCII text it maps
    [a]-[z] to [A]-[Z] and keeps every other character. *)
Definition toUpper_ascii (c : ascii) : ascii :=
  let n := nat_of_ascii c in
  if (97 <=? n)%nat && (n <=? 122)%nat then ascii_of_nat (n - 32) else c.

Fixpoint toUpper (s : string) : string :=
  match s with
  | EmptyString => EmptyString
  | String c rest => String (toUpper_ascii c) (toUpper rest)
  end.

(** The own members of [Object.prototype], which every object literal
    inherits; each of them is truthy. *)
Definition Object_prototype : list string :=
  ["constructor"; "__defineGetter__"; "__defineSetter__"; "hasOwnProperty";
   "__lookupGetter__"; "__lookupSetter__"; "isPrototypeOf";
   "propertyIsEnumerable"; "toString"; "valueOf"; "__proto__";
   "toLocaleString"].

Definition inherited (name : string) : bool :=
  existsb (String.eqb name) Object_prototype.

Module Crud.

(** [ICrudOptions]: every field is optional, [None] is a field left out
    (or [undefined]). *)
Record ICrudOptions : Type := mkOptions {
  fetch : option bool;
  update : option bool;
  create : option bool;
  delete : option bool
}.

Definition defaultOptions : ICrudOptions :=
  mkOptions (Some false) (Some false) (Some false) (Some false).

(** [opts = {}]. *)
Definition no_options : ICrudOptions := mkOptions None None None None.

Definition spread_field (a b : option bool) : option bool :=
  match b with
  | Some x => Some x
  | None => a
  end.

(** [{...a, ...b}] on options. *)
Definition spread_options (a b : ICrudOptions) : ICrudOptions :=
  mkOptions (spread_field (fetch a) (fetch b)) (spread_field (update a) (update b))
    (spread_field (create a) (create b)) (spread_field (delete a) (delete b)).

(** [options.f ? ... : ...]. *)
Definition enabled (x : option bool) : bool :=
  match x with
  | Some true => true
  | _ => false
  end.

Definition fetchTypes : list string := ["FETCH_START"; "FETCH_SUCCESS"; "FETCH_ERROR"].
Definition updateTypes : list string := ["UPDATE_START"; "UPDATE_SUCCESS"; "UPDATE_ERROR"].
Definition createTypes : list string := ["CREATE_START"; "CREATE_SUCCESS"; "CREATE_ERROR"].
Definition deleteTypes : list string := ["DELETE_START"; "DELETE_SUCCESS"; "DELETE_ERROR"].

(** Objects with string keys are kept as their own properties, written
    with [JsMap.set] and read with [JsMap.get]. *)

(** [{...a, ...b}]. *)
Definition spread {V : Type} (a b : JsMap.t V) : JsMap.t V :=
  fold_left (fun acc kv => JsMap.set (fst kv) (snd kv) acc) b a.

(** Ramda's [indexBy(f, list)]: of the elements with one key the last
    one stays. *)
Definition indexBy {V : Type} (f : V -> string) (l : list V) : JsMap.t V :=
  fold_left (fun acc x => JsMap.set (f x) x acc) l JsMap.empty.

(** An element of a list state: an object with a numeric [id]. *)
Record item : Type := mkItem {
  id : Z;
  body : document
}.

(** [pluck('id', items)]. *)
Definition pluck_id (items : list item) : list Z := map id items.

(** Ramda's [uniq]: an element is kept when it was not seen before. *)
Fixpoint uniq_from (seen l : list Z) : list Z :=
  match l with
  | [] => []
  | x :: rest =>
      if existsb (Z.eqb x) seen then uniq_from seen rest
      else x :: uniq_from (x :: seen) rest
  end.

Definition uniq (l : list Z) : list Z := uniq_from [] l.

(** [sort((a, b) => a - b)]: ascending.  Equal numbers cannot be told
    apart, so the sorted array does not depend on the algorithm. *)
Fixpoint insert (a : Z) (l : list Z) : list Z :=
  match l with
  | [] => [a]
  | b :: rest => if (a - b <=? 0)%Z then a :: l else b :: insert a rest
  end.

Definition sort (l : list Z) : list Z := fold_right insert [] l.

(** [updateArray(items, array = [])]. *)
Definition updateArray (items : list item) (array : option (list Z)) : list Z :=
  let array := match array with
               | Some a => a
               | None => []
               end in
  sort (uniq (pluck_id items ++ array)).

(** [generator(type)]. *)
Definition generator (type : string) (l : list string) : JsMap.t string :=
  let TYPE := toUpper type in
  indexBy (fun x => x) (map (fun i => (TYPE ++ "_" ++ i)%string) l).

Definition typesGenerator (type : string) (options : ICrudOptions) : JsMap.t string :=
  let typeGen := generator type in
  spread
    (spread
       (spread
          (spread JsMap.empty
             (if enabled (fetch options) then typeGen fetchTypes else JsMap.empty))
          (if enabled (update options) then typeGen updateTypes else JsMap.empty))
       (if enabled (create options) then typeGen createTypes else JsMap.empty))
    (if enabled (delete options) then typeGen deleteTypes else JsMap.empty).

(** [ICrudAction]; an [Error] is kept as its message. *)
Record ICrudAction : Type := mkAction {
  a_type : string;
  a_error : option string;
  a_payload : option (list item);
  a_data : option json
}.

Record ICrudActions : Type := mkActions {
  fetchStart : option (option json -> ICrudAction);
  fetchSuccess : option (list item -> option json -> ICrudAction);
  fetchError : option (string -> option json -> ICrudAction)
}.

Definition generateFetchActions (type : string) : ICrudActions :=
  let TYPE := toUpper type in
  mkActions
    (Some (fun data => mkAction (TYPE ++ "_FETCH_START") None None data))
    (Some (fun payload data =>
             mkAction (TYPE ++ "_FETCH_SUCCESS") None (Some payload) data))
    (Some (fun error data =>
             mkAction (TYPE ++ "_FETCH_ERROR") (Some error) None data)).

(** The state of one list: [isFetching], [state[type]],
    [state[type + 'ById']] and [error], for a [type] other than
    ['isFetching'] and ['error'], so that the four are four fields.
    [None] is a field that the state does not have. *)
Record state : Type := mkState {
  isFetching : bool;
  ids : option (list Z);
  byId : option (JsMap.t item);
  error : option string
}.

(** What calling the reducer gives: the next state, an exception, or
    the result of a member of [Object.prototype], which is no part of
    this code. *)
Inductive outcome : Type :=
| Next (s : state)
| Throws
| Inherited (member : string).

Definition handler : Type := state -> ICrudAction -> outcome.

(** [{...x}] of a field that may be missing. *)
Definition own {V : Type} (x : option (JsMap.t V)) : JsMap.t V :=
  match x with
  | Some m => m
  | None => JsMap.empty
  end.

(** [String(id)], the key of an item in [state[type + 'ById']]. *)
Definition key_of (i : item) : string := decimal (id i).

(** [pluck] of a payload that is [undefined] throws a [TypeError]. *)
Definition generateFetchHandlers (type : string) : JsMap.t handler :=
  let TYPE := toUpper type in
  JsMap.set (TYPE ++ "_FETCH_ERROR")
    (fun state action =>
       Next (mkState false (ids state) (byId state) (a_error action)))
    (JsMap.set (TYPE ++ "_FETCH_SUCCESS")
       (fun state action =>
          match a_payload action with
          | None => Throws
          | Some payload =>
              Next (mkState false
                      (Some (updateArray payload (ids state)))
                      (Some (spread (own (byId state)) (indexBy key_of payload)))
                      (error state))
          end)
       (JsMap.set (TYPE ++ "_FETCH_START")
          (fun state _ =>
             Next (mkState true (ids state) (byId state) (error state)))
          JsMap.empty)).

Definition initialState : state := mkState false (Some []) (Some JsMap.empty) None.

(** [generateReducer(type, options)]; [actionHandlers[action.type]] also
    finds what the object literal inherits. *)
Definition generateReducer (type : string) (options : ICrudOptions)
    (state : option state) (action : ICrudAction) : outcome :=
  let state := match state with
               | Some s => s
               | None => initialState
               end in
  let actionHandlers :=
    spread JsMap.empty
      (if enabled (fetch options) then generateFetchHandlers type else JsMap.empty) in
  match JsMap.get (a_type action) actionHandlers with
  | Some h => h state action
  | None =>
      if inherited (a_type action) then Inherited (a_type action) else Next state
  end.

Record generated : Type := mkGenerated {
  types : JsMap.t string;
  actions : ICrudActions;
  reducer : option state -> ICrudAction -> outcome
}.

(** [crudGenerator(type, opts = {})]. *)
Definition crudGenerator (type : string) (opts : option ICrudOptions) : generated :=
  let opts := match opts with
              | Some o => o
              | None => no_options
              end in
  let options := spread_options defaultOptions opts in
  mkGenerated (typesGenerator type options)
    (if enabled (fetch options) then generateFetchActions type
     else mkActions None None None)
    (generateReducer type options).

(** The names of one group of types, when the group is enabled. *)
Definition group (on : option bool) (type : string) (names : list string)
    : list string :=
  if enabled on then map (fun i => (toUpper type ++ "_" ++ i)%string) names else [].

(** A store that hands every action to the reducer for as long as the
    reducer gives a state. *)
Definition dispatch (r : option state -> ICrudAction -> outcome) (o : outcome)
    (action : ICrudAction) : outcome :=
  match o with
  | Next s => r (Some s) action
  | other => other
  end.

Definition dispatch_all (r : option state -> ICrudAction -> outcome)
    (first : ICrudAction) (rest : list ICrudAction) : outcome :=
  fold_left (dispatch r) rest (r None first).

(** The ids are listed in ascending order, each one once. *)
Fixpoint ascending (l : list Z) : Prop :=
  match l with
  | [] => True
  | a :: rest => (forall b, In b rest -> (a < b)%Z) /\ ascending rest
  end.

(** [state[type]], with the default of [updateArray] for a missing one. *)
Definition own_ids (s : state) : list Z :=
  match ids s with
  | Some a => a
  | None => []
  end.

(** [state[type]] and [state[type + 'ById']] tell the same: the listed
    ids are the keys, and an item is kept under its own id. *)
Definition in_step (s : state) : Prop :=
  ascending (own_ids s)
  /\ (forall n, In n (own_ids s) <-> JsMap.has (decimal n) (own (byId s)) = true)
  /\ (forall k i, JsMap.get k (own (byId s)) = Some i -> k = key_of i).

End Crud.

(** * Creations in flight *)

Definition sid_eqb (a b : sid) : bool :=
  match a, b with
  | Main, Main => true
  | Opts, Opts => true
  | _, _ => false
  end.

(** A continuation that holds no suspended [createIncremental]. *)
Fixpoint plain (k : kont) : Prop :=
  match k with
  | KCaller _ => True
  | KDiscard => True
  | KIncremental _ _ _ _ => False
  | KDrain resolve _ k => plain resolve /\ plain k
  end.

(** A continuation that holds a suspended [createIncremental] at most
    at its head. *)
Definition shallow (k : kont) : Prop :=
  match k with
  | KIncremental _ _ _ k' => plain k'
  | _ => plain k
  end.

(** [k] is a creation of [s] that is suspended at line 168. *)
Definition allocating (s : sid) (k : kont) : bool :=
  match k with
  | KIncremental s' _ _ _ => sid_eqb s s'
  | _ => false
  end.

(** [a] belongs to a creation of [s] that has passed line 190: it waits
    for its insert (line 152) or for the counter (line 168). *)
Definition creating (s : sid) (a : awaiting) : bool :=
  match a with
  | AwaitCreate s' _ => sid_eqb s s'
  | AwaitFind _ _ k => allocating s k
  | AwaitGet _ _ k => allocating s k
  | AwaitMutation _ k => allocating s k
  end.

Definition count {A : Type} (p : A -> bool) (l : list A) : nat :=
  List.length (filter p l).

(** The creations of [s] that have passed line 190 and have not yet
    come back from line 152. *)
Definition in_flight (s : sid) (w : world) : nat :=
  count (fun ca => creating s (snd ca)) (pending w)
  + count (fun ke => allocating s (fst ke)) (ready w).

(** The inserts of [s] that the store has not yet settled. *)
Definition inserts_in_flight (s : sid) (w : world) : nat :=
  count (fun ca => match snd ca with
                   | AwaitCreate s' _ => sid_eqb s s'
                   | _ => false
                   end) (pending w).

Definition awaiting_ok (a : awaiting) : Prop :=
  match a with
  | AwaitCreate _ k => plain k
  | AwaitFind _ _ k => shallow k
  | AwaitGet _ _ k => shallow k
  | AwaitMutation _ k => shallow k
  end.

Definition tidy (w : world) : Prop :=
  Forall (fun ca => awaiting_ok (snd ca)) (pending w)
  /\ Forall (fun ke => shallow (fst ke)) (ready w)
  /\ forall s, Forall (fun kq => plain (q_resolve (snd kq)))
                 (creationQueue (service_of s w)).

Definition token (b : bool) : nat := if b then 1 else 0.

(** Every service has at most one creation in flight, and none while
    its [isCreationInProcess] is false.  [owed s] counts the creations of
    [s] whose code is running at the moment. *)
Definition serialized_with (owed : sid -> nat) (w : world) : Prop :=
  tidy w
  /\ forall s, in_flight s w + owed s <= token (isCreationInProcess (service_of s w)).

Definition serialized (w : world) : Prop := serialized_with (fun _ => 0) w.

(** * Replies *)

(** How often [k] ends in the promise handed to the caller [h]. *)
Fixpoint answers_to (h : handle) (k : kont) : nat :=
  match k with
  | KCaller h' => token (Nat.eqb h' h)
  | KDiscard => 0
  | KIncremental _ _ _ k' => answers_to h k'
  | KDrain resolve _ k' => answers_to h resolve + answers_to h k'
  end.

Definition kont_of_awaiting (a : awaiting) : kont :=
  match a with
  | AwaitFind _ _ k => k
  | AwaitGet _ _ k => k
  | AwaitCreate _ k => k
  | AwaitMutation _ k => k
  end.

Definition total {A : Type} (f : A -> nat) (l : list A) : nat :=
  fold_right (fun a n => f a + n) 0 l.

(** The continuations held anywhere in [w] that end in the promise of
    [h]: behind a store call, ready to run, or in a creation queue. *)
Definition owed_to (h : handle) (w : world) : nat :=
  total (fun ca => answers_to h (kont_of_awaiting (snd ca))) (pending w)
  + total (fun ke => answers_to h (fst ke)) (ready w)
  + total (fun kq => answers_to h (q_resolve (snd kq))) (creationQueue (main w))
  + total (fun kq => answers_to h (q_resolve (snd kq))) (creationQueue (opts w)).

Definition replies_to (h : handle) (w : world) : nat :=
  count (fun hr => Nat.eqb (fst hr) h) (replies w).

Definition calls_with (h : handle) (evs : list event) : nat :=
  count (fun ev => match ev with
                   | Call _ _ h' => Nat.eqb h' h
                   | _ => false
                   end) evs.

(** What [h] has received and what is still owed to it. *)
Definition due (h : handle) (w : world) : nat := owed_to h w + replies_to h w.
(** ** Lemmas on [JsMap] *)

Lemma JsMap_get_all_values {V : Type} (P : V -> Prop) (k : string) (m : JsMap.t V) (v : V) :
  all_values P m -> JsMap.get k m = Some v -> P v.
Proof.
  unfold all_values. induction m as [| [k' v'] m IH]; simpl; intros Hm Hget.
  - discriminate.
  - inversion Hm; subst. destruct (k' =? k)%string.
    + injection Hget as <-. assumption.
    + auto.
Qed.

Lemma JsMap_set_all_values {V : Type} (P : V -> Prop) (k : string) (v : V) (m : JsMap.t V) :
  all_values P m -> P v -> all_values P (JsMap.set k v m).
Proof.
  unfold all_values. induction m as [| [k' v'] m IH]; simpl; intros Hm Hv.
  - constructor; auto.
  - inversion Hm; subst. destruct (k' =? k)%string; constructor; auto.
Qed.

Lemma JsMap_get_set_same {V : Type} (k : string) (v : V) (m : JsMap.t V) :
  JsMap.get k (JsMap.set k v m) = Some v.
Proof.
  induction m as [| [k' v'] m IH]; simpl.
  - rewrite String.eqb_refl. reflexivity.
  - destruct (k' =? k)%string eqn:E; simpl.
    + rewrite String.eqb_refl. reflexivity.
    + rewrite E. exact IH.
Qed.

Lemma all_values_empty {V : Type} (P : V -> Prop) : all_values P (@JsMap.empty V).
Proof. constructor. Qed.

(** ** Lemmas on [formatData] *)

Lemma formatData_well_formed (o : settled) : well_formed (formatData o).
Proof.
  destruct o; unfold well_formed; simpl; split; congruence.
Qed.

Lemma formatData_is_OK (o : settled) :
  is_OK (formatData o) = true -> resultCode (formatData o) = OK.
Proof. destruct o; simpl; intros H; [reflexivity | discriminate H]. Qed.

(** ** What the cache holds, operation by operation *)

Create HintDb cache.

Section CacheInvariant.
Variable P : envelope -> Prop.

Lemma caches_hold_with_service (s : sid) (this : service) (w : world) :
  caches_hold P w ->
  all_values P (cachedQueries_find this) ->
  all_values P (cachedQueries_get this) ->
  caches_hold P (with_service s this w).
Proof.
  intros Hw Hf Hg s'. specialize (Hw s').
  destruct s, s'; simpl; auto.
Qed.

Lemma caches_hold_same_services (w w' : world) :
  main w' = main w -> opts w' = opts w -> caches_hold P w -> caches_hold P w'.
Proof.
  intros Hm Ho Hw s. specialize (Hw s). destruct s; simpl in *; congruence.
Qed.

Lemma caches_hold_issue c a w : caches_hold P w -> caches_hold P (issue c a w).
Proof. apply caches_hold_same_services; reflexivity. Qed.

Lemma caches_hold_fulfil k e w : caches_hold P w -> caches_hold P (fulfil k e w).
Proof. apply caches_hold_same_services; reflexivity. Qed.

Lemma caches_hold_answer h r w : caches_hold P w -> caches_hold P (answer h r w).
Proof. apply caches_hold_same_services; reflexivity. Qed.

Lemma caches_hold_with_pending p w : caches_hold P w -> caches_hold P (with_pending p w).
Proof. apply caches_hold_same_services; reflexivity. Qed.

Lemma caches_hold_with_ready r w : caches_hold P w -> caches_hold P (with_ready r w).
Proof. apply caches_hold_same_services; reflexivity. Qed.

Lemma caches_hold_with_clock t w : caches_hold P w -> caches_hold P (with_clock t w).
Proof. apply caches_hold_same_services; reflexivity. Qed.

Lemma caches_hold_clearCache s w :
  caches_hold P w -> caches_hold P (with_service s (clearCache (service_of s w)) w).
Proof.
  intros Hw. apply caches_hold_with_service; auto; apply all_values_empty.
Qed.

Lemma caches_hold_flag s b w :
  caches_hold P w ->
  caches_hold P (with_service s (with_isCreationInProcess b (service_of s w)) w).
Proof.
  intros Hw. apply caches_hold_with_service; auto; apply (Hw s).
Qed.

Lemma caches_hold_queue s q w :
  caches_hold P w ->
  caches_hold P (with_service s (with_creationQueue q (service_of s w)) w).
Proof.
  intros Hw. apply caches_hold_with_service; auto; apply (Hw s).
Qed.

Hint Resolve caches_hold_issue caches_hold_fulfil caches_hold_answer
  caches_hold_with_pending caches_hold_with_ready caches_hold_with_clock
  caches_hold_clearCache caches_hold_flag caches_hold_queue : cache.

Lemma caches_hold_find s params k w : caches_hold P w -> caches_hold P (find s params k w).
Proof.
  intros Hw. unfold find.
  destruct (if cacheable (service_of s w) then _ else None); auto with cache.
Qed.

Lemma caches_hold_get s id params k w : caches_hold P w -> caches_hold P (get s id params k w).
Proof.
  intros Hw. unfold get.
  destruct (if cacheable (service_of s w) then _ else None); auto with cache.
Qed.

Lemma caches_hold_update s id data params k w :
  caches_hold P w -> caches_hold P (update s id data params k w).
Proof. unfold update; auto with cache. Qed.

Lemma caches_hold_patch s id data params k w :
  caches_hold P w -> caches_hold P (patch s id data params k w).
Proof. unfold patch; auto with cache. Qed.

Lemma caches_hold_remove s id params k w :
  caches_hold P w -> caches_hold P (remove s id params k w).
Proof. unfold remove; auto with cache. Qed.

Lemma caches_hold_createNormal s data params k w :
  caches_hold P w -> caches_hold P (createNormal s data params k w).
Proof. unfold createNormal; auto with cache. Qed.

Hint Resolve caches_hold_find caches_hold_get caches_hold_update caches_hold_patch
  caches_hold_remove caches_hold_createNormal : cache.

Lemma caches_hold_create s data params k w :
  caches_hold P w -> caches_hold P (create s data params k w).
Proof.
  intros Hw. unfold create, createIncremental.
  destruct (isCreationInProcess (service_of s w)); auto with cache.
  destruct (incremental (service_of s w)); auto with cache.
Qed.

Lemma caches_hold_this_create s data params k w w' :
  caches_hold P w -> this_create s data params k w = Normal w' -> caches_hold P w'.
Proof.
  intros Hw. unfold this_create, OptionsService_create.
  destruct s; [| destruct (negb _)]; intros H; inversion H; subst;
    auto using caches_hold_create.
Qed.

Lemma caches_hold_this_find s params k w w' :
  caches_hold P w -> this_find s params k w = Normal w' -> caches_hold P w'.
Proof.
  intros Hw. unfold this_find, OptionsService_find.
  destruct s; [| destruct (OptionsService_find_params params)];
    intros H; inversion H; subst; auto with cache.
Qed.

Lemma caches_hold_invoke s r k w w' :
  caches_hold P w -> invoke s r k w = Normal w' -> caches_hold P w'.
Proof.
  intros Hw. destruct r; simpl; intros H;
    eauto using caches_hold_this_create, caches_hold_this_find;
    inversion H; subst; auto with cache.
Qed.

Lemma caches_hold_createIncremental_resumed s data params k e w :
  caches_hold P w -> caches_hold P (createIncremental_resumed s data params k e w).
Proof.
  intros Hw. unfold createIncremental_resumed.
  destruct (newId_of e) as [newId | m]; auto with cache.
  destruct (js_gt_0 newId); auto with cache.
  destruct (this_create Opts _ None KDiscard w) as [w' | m] eqn:E; auto with cache.
  apply caches_hold_createNormal. eapply caches_hold_this_create; eauto.
Qed.

Lemma caches_hold_envelope_delivered k e w :
  caches_hold P w -> caches_hold P (envelope_delivered k e w).
Proof.
  intros Hw. destruct k; simpl;
    auto using caches_hold_createIncremental_resumed with cache.
Qed.

Lemma caches_hold_mutation_settled s k o w :
  caches_hold P w -> caches_hold P (mutation_settled s k o w).
Proof. unfold mutation_settled; auto with cache. Qed.

Lemma caches_hold_createNormal_settled s k o w :
  caches_hold P w -> caches_hold P (createNormal_settled s k o w).
Proof.
  intros Hw. unfold createNormal_settled. destruct o as [result | m]; auto with cache.
  set (w1 := with_service s (with_isCreationInProcess false _) _).
  assert (H1 : caches_hold P w1) by (subst w1; auto with cache).
  clearbody w1.
  destruct (JsMap.first (creationQueue (service_of s w1))) as [[key value] |];
    auto with cache.
  match goal with |- context [this_create ?a ?b ?c ?d ?e] =>
    destruct (this_create a b c d e) as [w' | m] eqn:E end.
  - eapply caches_hold_this_create; [| exact E]. auto with cache.
  - auto with cache.
Qed.

(** Lines 125-127 and 144-146 are the only places that write a cache:
    what goes in is a [formatData] result that passed the ['OK'] test. *)
Hypothesis P_formatData : forall o, is_OK (formatData o) = true -> P (formatData o).

Lemma caches_hold_find_settled s key k o w :
  caches_hold P w -> caches_hold P (find_settled s key k o w).
Proof.
  intros Hw. unfold find_settled. apply caches_hold_fulfil.
  destruct (cacheable (service_of s w) && is_OK (formatData o))%bool eqn:E; auto.
  apply andb_true_iff in E as [_ E].
  apply caches_hold_with_service; auto; simpl.
  - apply JsMap_set_all_values; auto. apply (Hw s).
  - apply (Hw s).
Qed.

Lemma caches_hold_get_settled s key k o w :
  caches_hold P w -> caches_hold P (get_settled s key k o w).
Proof.
  intros Hw. unfold get_settled. apply caches_hold_fulfil.
  destruct (cacheable (service_of s w) && is_OK (formatData o))%bool eqn:E; auto.
  apply andb_true_iff in E as [_ E].
  apply caches_hold_with_service; auto; simpl.
  - apply (Hw s).
  - apply JsMap_set_all_values; auto. apply (Hw s).
Qed.

Lemma caches_hold_store_settled a o w :
  caches_hold P w -> caches_hold P (store_settled a o w).
Proof.
  destruct a; simpl;
    auto using caches_hold_find_settled, caches_hold_get_settled,
      caches_hold_createNormal_settled, caches_hold_mutation_settled.
Qed.

Lemma caches_hold_step w ev : caches_hold P w -> caches_hold P (step w ev).
Proof.
  intros Hw. destruct ev as [s r h | c o | | t]; simpl.
  - destruct (invoke s r (KCaller h) w) eqn:E.
    + eapply caches_hold_invoke; eauto.
    + auto with cache.
  - destruct (take_pending c (pending w)) as [[a rest] |]; auto.
    apply caches_hold_store_settled. auto with cache.
  - destruct (ready w) as [| [k e] rest]; auto.
    apply caches_hold_envelope_delivered. auto with cache.
  - auto with cache.
Qed.

Lemma caches_hold_run evs w : caches_hold P w -> caches_hold P (run evs w).
Proof.
  unfold run. revert w. induction evs as [| ev evs IH]; simpl; intros w Hw.
  - assumption.
  - apply IH. apply caches_hold_step. assumption.
Qed.

Lemma caches_hold_new_world inc cach : caches_hold P (new_world inc cach).
Proof. intros s. destruct s; simpl; split; constructor. Qed.
End CacheInvariant.

(** ** Every envelope on its way to a caller is well formed *)

Create HintDb outputs.

Lemma outputs_same (w w' : world) :
  ready w' = ready w -> replies w' = replies w ->
  outputs_well_formed w -> outputs_well_formed w'.
Proof. unfold outputs_well_formed. intros -> ->. auto. Qed.

Lemma outputs_with_service s this w :
  outputs_well_formed w -> outputs_well_formed (with_service s this w).
Proof. apply outputs_same; destruct s; reflexivity. Qed.

Lemma outputs_issue c a w : outputs_well_formed w -> outputs_well_formed (issue c a w).
Proof. apply outputs_same; reflexivity. Qed.

Lemma outputs_with_pending p w :
  outputs_well_formed w -> outputs_well_formed (with_pending p w).
Proof. apply outputs_same; reflexivity. Qed.

Lemma outputs_with_clock t w :
  outputs_well_formed w -> outputs_well_formed (with_clock t w).
Proof. apply outputs_same; reflexivity. Qed.

Lemma outputs_fulfil k e w :
  well_formed e -> outputs_well_formed w -> outputs_well_formed (fulfil k e w).
Proof.
  intros He [Hr Hp]. split; simpl; auto.
  apply Forall_app. split; auto.
Qed.

Lemma outputs_answer h e w :
  well_formed e -> outputs_well_formed w -> outputs_well_formed (answer h (Returned e) w).
Proof.
  intros He [Hr Hp]. split; simpl; auto.
  apply Forall_app. split; auto. constructor; [| constructor].
  exists e. auto.
Qed.

#[local] Hint Resolve outputs_with_service outputs_issue outputs_with_pending
  outputs_with_clock outputs_fulfil outputs_answer formatData_well_formed : outputs.

Lemma outputs_find s params k w :
  caches_hold well_formed w -> outputs_well_formed w ->
  outputs_well_formed (find s params k w).
Proof.
  intros Hc Hw. unfold find.
  destruct (cacheable (service_of s w)); auto with outputs.
  destruct (JsMap.get _ _) as [cached |] eqn:E; auto with outputs.
  apply outputs_fulfil; auto.
  eapply JsMap_get_all_values; [apply (proj1 (Hc s)) | exact E].
Qed.

Lemma outputs_get s id params k w :
  caches_hold well_formed w -> outputs_well_formed w ->
  outputs_well_formed (get s id params k w).
Proof.
  intros Hc Hw. unfold get.
  destruct (cacheable (service_of s w)); auto with outputs.
  destruct (JsMap.get _ _) as [cached |] eqn:E; auto with outputs.
  apply outputs_fulfil; auto.
  eapply JsMap_get_all_values; [apply (proj2 (Hc s)) | exact E].
Qed.

Lemma outputs_update s id data params k w :
  outputs_well_formed w -> outputs_well_formed (update s id data params k w).
Proof. unfold update; auto with outputs. Qed.

Lemma outputs_patch s id data params k w :
  outputs_well_formed w -> outputs_well_formed (patch s id data params k w).
Proof. unfold patch; auto with outputs. Qed.

Lemma outputs_remove s id params k w :
  outputs_well_formed w -> outputs_well_formed (remove s id params k w).
Proof. unfold remove; auto with outputs. Qed.

Lemma outputs_createNormal s data params k w :
  outputs_well_formed w -> outputs_well_formed (createNormal s data params k w).
Proof. unfold createNormal; auto with outputs. Qed.

#[local] Hint Resolve outputs_find outputs_get outputs_update outputs_patch
  outputs_remove outputs_createNormal : outputs.

Lemma outputs_create s data params k w :
  caches_hold well_formed w -> outputs_well_formed w ->
  outputs_well_formed (create s data params k w).
Proof.
  intros Hc Hw. unfold create, createIncremental.
  destruct (isCreationInProcess (service_of s w)); auto with outputs.
  destruct (incremental (service_of s w)); auto with outputs.
  apply outputs_get; auto with outputs. apply caches_hold_flag. assumption.
Qed.

Lemma outputs_this_create s data params k w w' :
  caches_hold well_formed w -> outputs_well_formed w ->
  this_create s data params k w = Normal w' -> outputs_well_formed w'.
Proof.
  intros Hc Hw. unfold this_create, OptionsService_create.
  destruct s; [| destruct (negb _)]; intros H; inversion H; subst;
    auto using outputs_create.
Qed.

Lemma outputs_this_find s params k w w' :
  caches_hold well_formed w -> outputs_well_formed w ->
  this_find s params k w = Normal w' -> outputs_well_formed w'.
Proof.
  intros Hc Hw. unfold this_find, OptionsService_find.
  destruct s; [| destruct (OptionsService_find_params params)];
    intros H; inversion H; subst; auto with outputs.
Qed.

Lemma outputs_invoke s r k w w' :
  caches_hold well_formed w -> outputs_well_formed w ->
  invoke s r k w = Normal w' -> outputs_well_formed w'.
Proof.
  intros Hc Hw. destruct r; simpl; intros H;
    eauto using outputs_this_create, outputs_this_find;
    inversion H; subst; auto with outputs.
Qed.

Lemma invoke_BaseService_returns s r k w :
  overridden s r = false -> exists w', invoke s r k w = Normal w'.
Proof.
  destruct s, r; simpl; intros H; try discriminate; eauto.
Qed.

Lemma outputs_createIncremental_resumed s data params k e w :
  caches_hold well_formed w -> outputs_well_formed w ->
  outputs_well_formed (createIncremental_resumed s data params k e w).
Proof.
  intros Hc Hw. unfold createIncremental_resumed.
  destruct (newId_of e) as [newId | m]; auto with outputs.
  destruct (js_gt_0 newId); auto with outputs.
  destruct (this_create Opts _ None KDiscard w) as [w' | m] eqn:E; auto with outputs.
  apply outputs_createNormal. eapply outputs_this_create; eauto.
Qed.

Lemma outputs_envelope_delivered k e w :
  well_formed e -> caches_hold well_formed w -> outputs_well_formed w ->
  outputs_well_formed (envelope_delivered k e w).
Proof.
  intros He Hc Hw. destruct k; simpl;
    auto using outputs_createIncremental_resumed with outputs.
Qed.

Lemma outputs_createNormal_settled s k o w :
  caches_hold well_formed w -> outputs_well_formed w ->
  outputs_well_formed (createNormal_settled s k o w).
Proof.
  intros Hc Hw. unfold createNormal_settled. destruct o as [result | m]; auto with outputs.
  set (w1 := with_service s (with_isCreationInProcess false _) _).
  assert (H1 : outputs_well_formed w1) by (subst w1; auto with outputs).
  assert (C1 : caches_hold well_formed w1)
    by (subst w1; auto using caches_hold_flag, caches_hold_clearCache).
  clearbody w1.
  destruct (JsMap.first (creationQueue (service_of s w1))) as [[key value] |];
    auto with outputs.
  match goal with |- context [this_create ?a ?b ?c ?d ?e] =>
    destruct (this_create a b c d e) as [w' | m] eqn:E end.
  - eapply outputs_this_create; [| | exact E]; auto using caches_hold_queue with outputs.
  - auto with outputs.
Qed.

Lemma outputs_store_settled a o w :
  caches_hold well_formed w -> outputs_well_formed w ->
  outputs_well_formed (store_settled a o w).
Proof.
  intros Hc Hw. destruct a; simpl; auto using outputs_createNormal_settled.
  - unfold find_settled. apply outputs_fulfil; auto with outputs.
    destruct (_ && _)%bool; auto with outputs.
  - unfold get_settled. apply outputs_fulfil; auto with outputs.
    destruct (_ && _)%bool; auto with outputs.
  - unfold mutation_settled. auto with outputs.
Qed.

Lemma well_formed_caches_step w ev :
  caches_hold well_formed w -> caches_hold well_formed (step w ev).
Proof.
  apply caches_hold_step. intros o _. apply formatData_well_formed.
Qed.

Lemma outputs_step w ev :
  BaseService_event ev ->
  caches_hold well_formed w -> outputs_well_formed w ->
  outputs_well_formed (step w ev).
Proof.
  intros Hev Hc Hw. destruct ev as [s r h | c o | | t]; simpl in *.
  - destruct (invoke_BaseService_returns s r (KCaller h) w Hev) as [w' E].
    rewrite E. eapply outputs_invoke; eauto.
  - destruct (take_pending c (pending w)) as [[a rest] |]; auto.
    apply outputs_store_settled; auto using caches_hold_with_pending with outputs.
  - destruct (ready w) as [| [k e] rest] eqn:E; auto.
    destruct Hw as [Hr Hp]. rewrite E in Hr. inversion Hr; subst.
    apply outputs_envelope_delivered; auto using caches_hold_with_ready.
    split; simpl; auto.
  - auto with outputs.
Qed.

Lemma envelopes_well_formed_run evs w :
  Forall BaseService_event evs ->
  caches_hold well_formed w -> outputs_well_formed w ->
  caches_hold well_formed (run evs w) /\ outputs_well_formed (run evs w).
Proof.
  unfold run. revert w. induction evs as [| ev evs IH]; simpl; intros w Hevs Hc Hw.
  - auto.
  - inversion Hevs; subst. apply IH; auto.
    + apply well_formed_caches_step; assumption.
    + apply outputs_step; assumption.
Qed.

Lemma outputs_new_world inc cach : outputs_well_formed (new_world inc cach).
Proof. split; constructor. Qed.

(** ** C1: the envelope invariant *)

Lemma plain_operation_reply inc cach r h o :
  match r with
  | Create _ _ => inc = false
  | _ => True
  end ->
  replies (run [Call Main r h; Settle 0 o; Tick] (new_world inc cach))
  = [(h, Returned (formatData o))].
Proof.
  intros Hr. destruct r; destruct inc; try discriminate Hr; destruct cach, o; reflexivity.
Qed.

Lemma newId_of_formatData (read : settled) :
  newId_of (formatData read) =
  match read with
  | Rejected _ => Normal (JNum 0)
  | Resolved (JObj o) => Normal (js_plus_1 (prop "value" o))
  | Resolved JNull => Throw "TypeError: cannot read property 'value'"
  | Resolved _ => Normal JNaN
  end.
Proof. destruct read as [[] |]; reflexivity. Qed.

Lemma incremental_create_reply cach data params h read o :
  replies (run [Call Main (Create data params) h; Settle 0 read; Tick; Settle 2 o; Tick]
               (new_world true cach))
  = [(h, Returned
           match read with
           | Resolved JNull => formatData (Rejected "TypeError: cannot read property 'value'")
           | _ => formatData o
           end)].
Proof.
  destruct read as [v | m].
  - destruct v; try (destruct cach, o; reflexivity).
    destruct (js_gt_0 (js_plus_1 (prop "value" fields))) eqn:E;
      destruct cach, o; cbn; rewrite E; reflexivity.
  - destruct cach, o; reflexivity.
Qed.



(** ** C2: what happens to the caches when a mutation completes *)

Lemma mutation_settled_clears s k o w :
  cachedQueries_find (service_of s (mutation_settled s k o w)) = JsMap.empty /\
  cachedQueries_get (service_of s (mutation_settled s k o w)) = JsMap.empty.
Proof. destruct s; split; reflexivity. Qed.

Lemma this_create_keeps_caches s' s data params k w w' :
  this_create s data params k w = Normal w' ->
  cachedQueries_find (service_of s' w') = cachedQueries_find (service_of s' w) /\
  cachedQueries_get (service_of s' w') = cachedQueries_get (service_of s' w).
Proof.
  unfold this_create, OptionsService_create, create, createIncremental, createNormal, get.
  intros H.
  destruct s; [| destruct (negb (truthy (prop "_id" data))); [discriminate |]];
    injection H as <-.
  all: repeat match goal with
         | |- context [if ?b then _ else _] => destruct b
         | |- context [match JsMap.get ?key ?m with _ => _ end] => destruct (JsMap.get key m)
         end.
  all: destruct s'; split; reflexivity.
Qed.

(** A create whose insert the store accepts does clear both caches. *)
Lemma createNormal_resolved_clears s k v w :
  cachedQueries_find (service_of s (createNormal_settled s k (Resolved v) w)) = JsMap.empty /\
  cachedQueries_get (service_of s (createNormal_settled s k (Resolved v) w)) = JsMap.empty.
Proof.
  unfold createNormal_settled.
  set (w1 := with_service s (with_isCreationInProcess false _) _).
  assert (H1 : cachedQueries_find (service_of s w1) = JsMap.empty /\
               cachedQueries_get (service_of s w1) = JsMap.empty)
    by (subst w1; destruct s; split; reflexivity).
  clearbody w1.
  destruct (JsMap.first (creationQueue (service_of s w1))) as [[key value] |].
  - match goal with |- context [this_create ?a ?b ?c ?d ?e] =>
      destruct (this_create a b c d e) as [w' | m] eqn:E end.
    + destruct (this_create_keeps_caches s _ _ _ _ _ _ E) as [-> ->].
      destruct s; exact H1.
    + destruct s; exact H1.
  - destruct s; exact H1.
Qed.

Lemma createNormal_rejected_keeps_service s k m w :
  main (createNormal_settled s k (Rejected m) w) = main w /\
  opts (createNormal_settled s k (Rejected m) w) = opts w.
Proof. split; reflexivity. Qed.

(** C2.  Evaluation at the failing input: a find is cached, then the
    store rejects the insert of a create.  The create answers ['Error'],
    the find cache still holds its entry, the repeated find is answered
    from it (the store sees one find only) and [isCreationInProcess] is
    still set. *)
Theorem C2_failed_create_keeps_caches :
  let w := run failed_create_run (new_world false true) in
  let found := mkEnvelope OK (Some (JArr [JObj [("_id", JStr "a")]])) None in
  replies w = [ (1, Returned found);
                (2, Returned (mkEnvelope Error None (Some "unique constraint violated")));
                (3, Returned found) ]
  /\ trace w = [ SuperFind Main (Some (JObj []));
                 SuperCreate Main [("_id", JStr "a"); ("created", JDate 0)] None ]
  /\ cachedQueries_find (main w) = [("{}", found)]
  /\ isCreationInProcess (main w) = true.
Proof. vm_compute. repeat split. Qed.

(** ** C3: the creation queue *)

Lemma quiescent_step w ev :
  pending w = [] -> ready w = [] -> no_call ev ->
  replies (step w ev) = replies w /\ trace (step w ev) = trace w /\
  pending (step w ev) = [] /\ ready (step w ev) = [].
Proof.
  intros Hp Hr Hev. destruct ev as [s r h | c o | | t]; simpl in *.
  - contradiction.
  - rewrite Hp. simpl. auto.
  - rewrite Hr. auto.
  - auto.
Qed.

Lemma quiescent_run evs w :
  pending w = [] -> ready w = [] -> Forall no_call evs ->
  replies (run evs w) = replies w /\ trace (run evs w) = trace w.
Proof.
  unfold run. revert w. induction evs as [| ev evs IH]; simpl; intros w Hp Hr Hevs.
  - auto.
  - inversion Hevs; subst.
    destruct (quiescent_step w ev Hp Hr) as (R & T & P' & R'); auto.
    destruct (IH (step w ev) P' R') as [R2 T2]; auto.
    split; congruence.
Qed.

(** C3.  Evaluation at the failing input: three creates are issued back
    to back, the second and third with the same data and params.  The
    queue is a [Map] keyed by [JSON.stringify([data, params])], so the
    third request takes the place of the second: the store receives two
    inserts, callers 1 and 3 are answered, and the service is left idle,
    with nothing pending, ready or queued that could answer caller 2. *)
Theorem C3_identical_requests_lose_one :
  let w := run duplicate_requests_run (new_world false true) in
  trace w = [ SuperCreate Main [("title", JStr "first"); ("created", JDate 0)] None;
              SuperCreate Main [("title", JStr "same"); ("created", JDate 0)] None ]
  /\ map fst (replies w) = [3; 1]
  /\ pending w = [] /\ ready w = []
  /\ creationQueue (main w) = [].
Proof. vm_compute. repeat split. Qed.

(** After that run no event of the store, of the scheduler or of the clock
    brings an answer to caller 2. *)
Lemma lost_request_is_never_answered evs :
  Forall no_call evs ->
  map fst (replies (run evs (run duplicate_requests_run (new_world false true)))) = [3; 1].
Proof.
  intros Hevs.
  destruct (quiescent_run evs (run duplicate_requests_run (new_world false true)))
    as [-> _]; auto; reflexivity.
Qed.

(** ** C4 and C5: the sequential identifiers *)

Lemma counter_first_run_ids :
  let w := run counter_first_run (new_world true true) in
  inserted_ids Main (trace w) = [Some (JStr "0"); Some (JStr "1"); Some (JStr "2")]
  /\ map fst (replies w) = [3; 2; 1]
  /\ Forall (fun hr => exists e, snd hr = Returned e /\ resultCode e = OK) (replies w).
Proof.
  vm_compute. repeat split. repeat constructor; eexists; split; reflexivity.
Qed.

(** C4.  Evaluation at the failing input: on a fresh incremental service
    three creates are issued back to back, and the update of the counter
    started by the second allocation settles after the insert started next
    to it.  Line 175 does not await that update, so the third allocation
    reads the counter from the options service's [get] cache, which still
    holds the value 0: the documents are sent to the store with the
    identifiers "0", "1", "1". *)
Theorem C4_unawaited_counter_write_repeats_id :
  inserted_ids Main (trace (run insert_first_run (new_world true true)))
  = [Some (JStr "0"); Some (JStr "1"); Some (JStr "1")].
Proof. vm_compute. reflexivity. Qed.


Lemma read_failure_means_no_counter cach data params h m write o :
  let store_calls :=
    [ SuperGet Opts (JStr optionLastId) None;
      SuperCreate Opts
        [("_id", JStr optionLastId); ("value", JNum 0); ("internal", JBool true);
         ("created", JDate 0)] None;
      SuperCreate Main
        (assoc "_id" (JStr "0") (assoc "created" (JDate 0) data)) params ] in
  let settled_write :=
    run [Call Main (Create data params) h; Settle 0 (Rejected m); Tick;
         Settle 1 write; Tick; Settle 2 o; Tick] (new_world true cach) in
  let unsettled_write :=
    run [Call Main (Create data params) h; Settle 0 (Rejected m); Tick;
         Settle 2 o; Tick] (new_world true cach) in
  replies settled_write = [(h, Returned (formatData o))]
  /\ trace settled_write = store_calls
  /\ replies unsettled_write = [(h, Returned (formatData o))]
  /\ trace unsettled_write = store_calls.
Proof.
  destruct cach, write, o; repeat split; reflexivity.
Qed.

Lemma next_id_positive (n : nat) : js_gt_0 (JNum (Z.of_nat n + 1)) = true.
Proof. simpl. apply Z.ltb_lt. lia. Qed.

Lemma write_failure_is_dropped cach data params h (n : nat) write o :
  let store_calls :=
    [ SuperGet Opts (JStr optionLastId) None;
      SuperUpdate Opts (JStr optionLastId)
        [("value", JNum (Z.of_nat n + 1)); ("internal", JBool true);
         ("updated", JDate 0)] None;
      SuperCreate Main
        (assoc "_id" (JStr (decimal (Z.of_nat n + 1)))
               (assoc "created" (JDate 0) data)) params ] in
  let settled_write :=
    run [Call Main (Create data params) h; Settle 0 (Resolved (counter (Z.of_nat n))); Tick;
         Settle 1 write; Tick; Settle 2 o; Tick] (new_world true cach) in
  let unsettled_write :=
    run [Call Main (Create data params) h; Settle 0 (Resolved (counter (Z.of_nat n))); Tick;
         Settle 2 o; Tick] (new_world true cach) in
  replies settled_write = [(h, Returned (formatData o))]
  /\ trace settled_write = store_calls
  /\ replies unsettled_write = [(h, Returned (formatData o))]
  /\ trace unsettled_write = store_calls.
Proof.
  pose proof (next_id_positive n) as Hpos. simpl in Hpos.
  destruct cach, write, o; cbn; rewrite Hpos; repeat split; reflexivity.
Qed.


(** ** C6: the [updated] stamp *)

Lemma prop_assoc_same k v o : prop k (assoc k v o) = Some v.
Proof.
  induction o as [| [k' v'] o IH]; simpl.
  - rewrite String.eqb_refl. reflexivity.
  - destruct (k' =? k)%string eqn:E; simpl.
    + rewrite String.eqb_refl. reflexivity.
    + rewrite E. exact IH.
Qed.

Lemma prop_assoc_other k k' v o : k <> k' -> prop k' (assoc k v o) = prop k' o.
Proof.
  intros Hk. induction o as [| [k0 v0] o IH]; simpl.
  - destruct (k =? k')%string eqn:E; [apply String.eqb_eq in E; contradiction | reflexivity].
  - destruct (k0 =? k)%string eqn:E; simpl.
    + apply String.eqb_eq in E. subst k0.
      destruct (k =? k')%string eqn:E'; [apply String.eqb_eq in E'; contradiction | reflexivity].
    + rewrite IH. reflexivity.
Qed.

(** C6.  [update] sends the data with [updated] set to the current time;
    [patch] sends the data as it received it, so a patch whose data has no
    [updated] field reaches the store without one; [remove] sends no data. *)
Theorem C6_patch_sends_data_unstamped s id data params k w :
  trace (update s id data params k w)
  = trace w ++ [SuperUpdate s id (assoc "updated" (JDate (clock w)) data) params]
  /\ prop "updated" (assoc "updated" (JDate (clock w)) data) = Some (JDate (clock w))
  /\ trace (patch s id data params k w) = trace w ++ [SuperPatch s id data params]
  /\ trace (remove s id params k w) = trace w ++ [SuperRemove s id params]
  /\ trace (run [Clock 1500; Call Main (Patch (JStr "7") [("title", JStr "x")] None) 1]
                (new_world false true))
     = [SuperPatch Main (JStr "7") [("title", JStr "x")] None].
Proof. repeat split; try reflexivity. apply prop_assoc_same. Qed.

(** ** C7: the find cache *)

Lemma take_pending_fresh c a p :
  take_pending c p = None -> take_pending c (p ++ [(c, a)]) = Some (a, p).
Proof.
  induction p as [| [c' a'] p IH]; simpl; intros H.
  - rewrite Nat.eqb_refl. reflexivity.
  - destruct (Nat.eqb c' c); [discriminate |].
    destruct (take_pending c p) as [[a0 rest] |]; [discriminate |].
    rewrite IH; reflexivity.
Qed.

Lemma find_miss_run m o c t p rp params h v :
  cacheable m = true ->
  take_pending (List.length t) p = None ->
  JsMap.get (JSON_stringify_top (find_params m params)) (cachedQueries_find m) = None ->
  run [Call Main (Find params) h; Settle (List.length t) (Resolved v); Tick]
      (mkWorld m o c t p [] rp)
  = mkWorld (with_find_cache
               (JsMap.set (JSON_stringify_top (find_params m params))
                          (formatData (Resolved v)) (cachedQueries_find m)) m)
            o c (t ++ [SuperFind Main (find_params m params)]) p []
            (rp ++ [(h, Returned (formatData (Resolved v)))]).
Proof.
  intros Hc Hp Hmiss. unfold run. cbn [fold_left].
  unfold step at 3. cbn [invoke this_find].
  unfold find at 1. cbn [service_of main]. rewrite Hc, Hmiss.
  unfold step at 2. unfold issue at 1. cbn [pending trace].
  rewrite (take_pending_fresh _ _ _ Hp).
  cbn [store_settled]. unfold find_settled. cbn. rewrite Hc. cbn.
  reflexivity.
Qed.

Lemma find_hit_run w params h e :
  cacheable (main w) = true ->
  ready w = [] ->
  JsMap.get (JSON_stringify_top (find_params (main w) params))
            (cachedQueries_find (main w)) = Some e ->
  run [Call Main (Find params) h; Tick] w = answer h (Returned e) w.
Proof.
  intros Hc Hr Hhit. destruct w as [m o c t p r rp]. simpl in Hc, Hr, Hhit. subst r.
  unfold run. cbn [fold_left].
  unfold step at 2. cbn [invoke this_find].
  unfold find at 1. cbn [service_of main]. rewrite Hc, Hhit.
  reflexivity.
Qed.

Lemma find_twice_after_miss w p1 p2 h1 h2 v :
  cacheable (main w) = true ->
  ready w = [] ->
  take_pending (List.length (trace w)) (pending w) = None ->
  JSON_stringify_top (find_params (main w) p1)
  = JSON_stringify_top (find_params (main w) p2) ->
  JsMap.get (JSON_stringify_top (find_params (main w) p1))
            (cachedQueries_find (main w)) = None ->
  let w1 := run [Call Main (Find p1) h1;
                 Settle (List.length (trace w)) (Resolved v); Tick] w in
  let w2 := run [Call Main (Find p2) h2; Tick] w1 in
  trace w1 = trace w ++ [SuperFind Main (find_params (main w) p1)]
  /\ replies w1 = replies w ++ [(h1, Returned (formatData (Resolved v)))]
  /\ trace w2 = trace w1
  /\ pending w2 = pending w1
  /\ replies w2 = replies w1 ++ [(h2, Returned (formatData (Resolved v)))].
Proof.
  intros Hc Hr Hp Hkey Hmiss w1 w2.
  destruct w as [m o c t p r rp]. simpl in Hc, Hr, Hp, Hkey, Hmiss. subst r.
  assert (E1 := find_miss_run m o c t p rp p1 h1 v Hc Hp Hmiss).
  change (run _ _) with w1 in E1.
  assert (E2 : w2 = answer h2 (Returned (formatData (Resolved v))) w1).
  { subst w2. apply find_hit_run; rewrite E1; cbn; auto.
    unfold find_params in *. cbn. rewrite <- Hkey. apply JsMap_get_set_same. }
  rewrite E2, E1. cbn. repeat split; reflexivity.
Qed.

Lemma only_OK_cached inc cach evs :
  caches_hold (fun e => resultCode e = OK) (run evs (new_world inc cach)).
Proof.
  apply caches_hold_run.
  - intros o. apply formatData_is_OK.
  - apply caches_hold_new_world.
Qed.

(** C7.  On a cacheable service, when a find has been answered ['OK'],
    by the store or from the cache, the next find whose serialized
    parameters (the key of line 114) are the same is answered with the
    same envelope and makes no store call.  In every run, every envelope
    held by a find or get cache has [resultCode] ['OK']. *)
Theorem C7_find_cache_idempotent :
  (forall w p1 p2 h1 h2 v,
      cacheable (main w) = true ->
      ready w = [] ->
      take_pending (List.length (trace w)) (pending w) = None ->
      JSON_stringify_top (find_params (main w) p1)
      = JSON_stringify_top (find_params (main w) p2) ->
      JsMap.get (JSON_stringify_top (find_params (main w) p1))
                (cachedQueries_find (main w)) = None ->
      let w1 := run [Call Main (Find p1) h1;
                     Settle (List.length (trace w)) (Resolved v); Tick] w in
      let w2 := run [Call Main (Find p2) h2; Tick] w1 in
      trace w1 = trace w ++ [SuperFind Main (find_params (main w) p1)]
      /\ replies w1 = replies w ++ [(h1, Returned (formatData (Resolved v)))]
      /\ trace w2 = trace w1
      /\ pending w2 = pending w1
      /\ replies w2 = replies w1 ++ [(h2, Returned (formatData (Resolved v)))])
  /\ (forall w p1 p2 h1 h2 e,
      cacheable (main w) = true ->
      ready w = [] ->
      JSON_stringify_top (find_params (main w) p1)
      = JSON_stringify_top (find_params (main w) p2) ->
      JsMap.get (JSON_stringify_top (find_params (main w) p1))
                (cachedQueries_find (main w)) = Some e ->
      let w1 := run [Call Main (Find p1) h1; Tick] w in
      let w2 := run [Call Main (Find p2) h2; Tick] w1 in
      replies w1 = replies w ++ [(h1, Returned e)]
      /\ replies w2 = replies w1 ++ [(h2, Returned e)]
      /\ trace w2 = trace w
      /\ pending w2 = pending w)
  /\ (forall inc cach evs s key e,
      JsMap.get key (cachedQueries_find (service_of s (run evs (new_world inc cach)))) = Some e
      \/ JsMap.get key (cachedQueries_get (service_of s (run evs (new_world inc cach)))) = Some e ->
      resultCode e = OK).
Proof.
  split; [| split].
  - exact find_twice_after_miss.
  - intros w p1 p2 h1 h2 e Hc Hr Hkey Hhit w1 w2.
    assert (E1 : w1 = answer h1 (Returned e) w) by (apply find_hit_run; assumption).
    assert (E2 : w2 = answer h2 (Returned e) w1).
    { apply find_hit_run; rewrite E1.
      - destruct w; assumption.
      - destruct w; assumption.
      - destruct w. simpl in *. rewrite <- Hkey. assumption. }
    rewrite E2, E1. destruct w. repeat split; reflexivity.
  - intros inc cach evs s key e H.
    destruct (only_OK_cached inc cach evs s) as [Hf Hg].
    destruct H as [H | H].
    + exact (JsMap_get_all_values _ _ _ _ Hf H).
    + exact (JsMap_get_all_values _ _ _ _ Hg H).
Qed.

Lemma C7_find_cache_idempotent_witness :
  (let w := new_world false true in
   let w1 := run [Call Main (Find (Some (JObj []))) 1; Settle 0 (Resolved (JArr [])); Tick] w in
   let w2 := run [Call Main (Find (Some (JObj []))) 2; Tick] w1 in
   trace w1 = trace w ++ [SuperFind Main (find_params (main w) (Some (JObj [])))]
   /\ replies w1 = replies w ++ [(1, Returned (formatData (Resolved (JArr []))))]
   /\ trace w2 = trace w1
   /\ pending w2 = pending w1
   /\ replies w2 = replies w1 ++ [(2, Returned (formatData (Resolved (JArr []))))])
  /\ (let w := run [Call Main (Find (Some (JObj []))) 1; Settle 0 (Resolved (JArr [])); Tick]
                   (new_world false true) in
      let w1 := run [Call Main (Find (Some (JObj []))) 2; Tick] w in
      let w2 := run [Call Main (Find (Some (JObj []))) 3; Tick] w1 in
      replies w1 = replies w ++ [(2, Returned (formatData (Resolved (JArr []))))]
      /\ replies w2 = replies w1 ++ [(3, Returned (formatData (Resolved (JArr []))))]
      /\ trace w2 = trace w
      /\ pending w2 = pending w)
  /\ resultCode (formatData (Resolved (JArr []))) = OK.
Proof.
  split; [| split].
  - apply (proj1 C7_find_cache_idempotent (new_world false true)
             (Some (JObj [])) (Some (JObj [])) 1 2 (JArr [])); reflexivity.
  - apply (proj1 (proj2 C7_find_cache_idempotent)
             (run [Call Main (Find (Some (JObj []))) 1; Settle 0 (Resolved (JArr [])); Tick]
                  (new_world false true))
             (Some (JObj [])) (Some (JObj [])) 2 3 (formatData (Resolved (JArr []))));
      reflexivity.
  - apply (proj2 (proj2 C7_find_cache_idempotent) false true
             [Call Main (Find (Some (JObj []))) 1; Settle 0 (Resolved (JArr [])); Tick]
             Main "{}").
    left. reflexivity.
Defined.

(** ** C8: the default sort *)

Lemma view_set_sortL v params : view_sortL (Some (set_sortL v params)) = Some v.
Proof.
  unfold view_sortL, set_sortL, assocPath2, path2.
  rewrite prop_assoc_same. apply prop_assoc_same.
Qed.

Lemma set_sortL_keeps_query_fields v params k :
  k <> "$sort" ->
  path2 "query" k (Some (set_sortL v params)) = path2 "query" k params.
Proof.
  intros Hk. unfold set_sortL, assocPath2, path2.
  rewrite prop_assoc_same. rewrite prop_assoc_other by congruence.
  destruct params as [[] |]; try reflexivity.
  simpl. destruct (prop "query" fields) as [[] |]; reflexivity.
Qed.

Lemma set_sortL_keeps_params_fields v params k :
  k <> "query" ->
  prop k (own_fields (Some (set_sortL v params))) = prop k (own_fields params).
Proof.
  intros Hk. unfold set_sortL, assocPath2. simpl.
  apply prop_assoc_other. congruence.
Qed.

Lemma find_dispatch s params k w :
  (if cacheable (service_of s w)
   then JsMap.get (JSON_stringify_top (find_params (service_of s w) params))
                  (cachedQueries_find (service_of s w))
   else None) = None ->
  trace (find s params k w)
  = trace w ++ [SuperFind s (find_params (service_of s w) params)].
Proof. intros H. unfold find. rewrite H. reflexivity. Qed.

Lemma get_dispatch s id params k w :
  (if cacheable (service_of s w)
   then JsMap.get (JSON_stringify (JArr [id; in_array params]))
                  (cachedQueries_get (service_of s w))
   else None) = None ->
  trace (get s id params k w) = trace w ++ [SuperGet s id params].
Proof. intros H. unfold get. rewrite H. reflexivity. Qed.

(** Once [update], [patch] or [remove] has completed, or a create whose
    insert succeeded, any find and any get goes to the store. *)
Lemma find_asks_store_when_cleared s params k w :
  cachedQueries_find (service_of s w) = JsMap.empty ->
  trace (find s params k w)
  = trace w ++ [SuperFind s (find_params (service_of s w) params)].
Proof.
  intros H. apply find_dispatch. rewrite H.
  destruct (cacheable (service_of s w)); reflexivity.
Qed.

Lemma get_asks_store_when_cleared s id params k w :
  cachedQueries_get (service_of s w) = JsMap.empty ->
  trace (get s id params k w) = trace w ++ [SuperGet s id params].
Proof.
  intros H. apply get_dispatch. rewrite H.
  destruct (cacheable (service_of s w)); reflexivity.
Qed.

Lemma mutation_then_find_asks_store s k o w params k' :
  let w' := mutation_settled s k o w in
  trace (find s params k' w')
  = trace w' ++ [SuperFind s (find_params (service_of s w') params)].
Proof.
  intros w'. apply find_asks_store_when_cleared.
  apply (proj1 (mutation_settled_clears s k o w)).
Qed.

Lemma mutation_then_get_asks_store s k o w id params k' :
  let w' := mutation_settled s k o w in
  trace (get s id params k' w') = trace w' ++ [SuperGet s id params].
Proof.
  intros w'. apply get_asks_store_when_cleared.
  apply (proj2 (mutation_settled_clears s k o w)).
Qed.




(** ** C9: the guard of [OptionsService.create] *)

(** C9, counterexample.  A create on the options service whose data has
    no [_id] is answered by a raised error; no envelope is returned. *)
Lemma C9_guard_raises :
  replies (run [Call Opts (Create [("value", JNum 1)] None) 1] (new_world false true))
  = [(1, Raised "ID parameter is mandatory!")]
  /\ ~ (exists e, In (1, Returned e)
                     (replies (run [Call Opts (Create [("value", JNum 1)] None) 1]
                                   (new_world false true)))).
Proof.
  split; [reflexivity |].
  intros [e H]. vm_compute in H. destruct H as [H | []]. discriminate H.
Qed.

(** C9, amended.  A create on the options service whose data has no
    [_id], or a falsy one, is rejected by the guard of line 23: the method
    throws [Error('ID parameter is mandatory!')] to its caller.  No
    envelope is produced, [BaseService.create] is not entered and the
    service and the store are left as they were.  With a truthy [_id] the
    call is [BaseService.create]'s. *)
Theorem C9_missing_id_is_thrown w data params h :
  (prop "_id" data = None -> truthy (prop "_id" data) = false)
  /\ (truthy (prop "_id" data) = false ->
        OptionsService_create data params (KCaller h) w = Throw "ID parameter is mandatory!"
        /\ step w (Call Opts (Create data params) h)
           = answer h (Raised "ID parameter is mandatory!") w)
  /\ (truthy (prop "_id" data) = true ->
        step w (Call Opts (Create data params) h) = create Opts data params (KCaller h) w).
Proof.
  split; [| split].
  - intros ->. reflexivity.
  - intros H. simpl. unfold OptionsService_create. rewrite H. simpl. auto.
  - intros H. simpl. unfold OptionsService_create. rewrite H. reflexivity.
Qed.

Lemma C9_missing_id_is_thrown_witness :
  truthy (prop "_id" [("value", JNum 1)]) = false
  /\ step (new_world false true) (Call Opts (Create [("value", JNum 1)] None) 1)
     = answer 1 (Raised "ID parameter is mandatory!") (new_world false true)
  /\ step (new_world false true) (Call Opts (Create [("_id", JStr "motto")] None) 1)
     = create Opts [("_id", JStr "motto")] None (KCaller 1) (new_world false true).
Proof.
  split; [| split].
  - apply (proj1 (C9_missing_id_is_thrown (new_world false true)
                    [("value", JNum 1)] None 1)).
    reflexivity.
  - apply (proj1 (proj2 (C9_missing_id_is_thrown (new_world false true)
                           [("value", JNum 1)] None 1))).
    reflexivity.
  - apply (proj2 (proj2 (C9_missing_id_is_thrown (new_world false true)
                           [("_id", JStr "motto")] None 1))).
    reflexivity.
Defined.

(** ** C10: [OptionsService.find] *)

Lemma OptionsService_find_params_filtered p0 p :
  OptionsService_find_params p0 = Normal p -> internal_filtered p.
Proof.
  unfold OptionsService_find_params.
  destruct p0 as [[| | | | | | | o] |]; try discriminate.
  destruct (prop "query" o) as [[| | | | | | | q] |] eqn:E; try discriminate;
    intros H; injection H as <-; unfold internal_filtered.
  - rewrite E. exact I.
  - rewrite E. exact I.
  - rewrite prop_assoc_same. apply prop_assoc_same.
Qed.

Create HintDb filtered.

Lemma filtered_same_trace (w w' : world) :
  incremental (opts w') = incremental (opts w) -> trace w' = trace w ->
  options_finds_filtered w -> options_finds_filtered w'.
Proof. unfold options_finds_filtered. intros -> ->. auto. Qed.

Lemma filtered_with_service s this w :
  incremental this = incremental (service_of s w) ->
  options_finds_filtered w -> options_finds_filtered (with_service s this w).
Proof. intros H. apply filtered_same_trace; destruct s; simpl in *; auto. Qed.

Lemma filtered_issue c a w :
  options_find_filtered c ->
  options_finds_filtered w -> options_finds_filtered (issue c a w).
Proof.
  intros Hc [Hinc Ht]. split; simpl; auto.
  apply Forall_app. split; auto.
Qed.

Lemma filtered_fulfil k e w :
  options_finds_filtered w -> options_finds_filtered (fulfil k e w).
Proof. apply filtered_same_trace; reflexivity. Qed.

Lemma filtered_answer h r w :
  options_finds_filtered w -> options_finds_filtered (answer h r w).
Proof. apply filtered_same_trace; reflexivity. Qed.

Lemma filtered_with_pending p w :
  options_finds_filtered w -> options_finds_filtered (with_pending p w).
Proof. apply filtered_same_trace; reflexivity. Qed.

Lemma filtered_with_ready r w :
  options_finds_filtered w -> options_finds_filtered (with_ready r w).
Proof. apply filtered_same_trace; reflexivity. Qed.

Lemma filtered_with_clock t w :
  options_finds_filtered w -> options_finds_filtered (with_clock t w).
Proof. apply filtered_same_trace; reflexivity. Qed.

#[local] Hint Resolve filtered_fulfil filtered_answer filtered_with_pending
  filtered_with_ready filtered_with_clock : filtered.
#[local] Hint Extern 1 (options_finds_filtered (with_service _ _ _)) =>
  apply filtered_with_service; [reflexivity |] : filtered.
#[local] Hint Extern 1 (options_finds_filtered (issue _ _ _)) =>
  apply filtered_issue; [exact I |] : filtered.

Lemma filtered_find_Main params k w :
  options_finds_filtered w -> options_finds_filtered (find Main params k w).
Proof.
  intros Hw. unfold find.
  destruct (if cacheable _ then _ else None); auto with filtered.
Qed.

Lemma filtered_find_Opts params k w :
  internal_filtered params ->
  options_finds_filtered w -> options_finds_filtered (find Opts params k w).
Proof.
  intros Hp Hw. unfold find.
  destruct (if cacheable _ then _ else None); auto with filtered.
  apply filtered_issue; auto.
  unfold find_params. simpl. destruct Hw as [-> _]. exact Hp.
Qed.

Lemma filtered_get s id params k w :
  options_finds_filtered w -> options_finds_filtered (get s id params k w).
Proof.
  intros Hw. unfold get.
  destruct (if cacheable _ then _ else None); auto with filtered.
Qed.

Lemma filtered_update s id data params k w :
  options_finds_filtered w -> options_finds_filtered (update s id data params k w).
Proof. unfold update; auto with filtered. Qed.

Lemma filtered_patch s id data params k w :
  options_finds_filtered w -> options_finds_filtered (patch s id data params k w).
Proof. unfold patch; auto with filtered. Qed.

Lemma filtered_remove s id params k w :
  options_finds_filtered w -> options_finds_filtered (remove s id params k w).
Proof. unfold remove; auto with filtered. Qed.

Lemma filtered_createNormal s data params k w :
  options_finds_filtered w -> options_finds_filtered (createNormal s data params k w).
Proof. unfold createNormal; auto with filtered. Qed.

#[local] Hint Resolve filtered_find_Main filtered_get filtered_update filtered_patch
  filtered_remove filtered_createNormal : filtered.

Lemma filtered_create s data params k w :
  options_finds_filtered w -> options_finds_filtered (create s data params k w).
Proof.
  intros Hw. unfold create, createIncremental.
  destruct (isCreationInProcess (service_of s w)); auto with filtered.
  destruct (incremental (service_of s w)); auto with filtered.
Qed.

Lemma filtered_this_create s data params k w w' :
  options_finds_filtered w -> this_create s data params k w = Normal w' ->
  options_finds_filtered w'.
Proof.
  intros Hw. unfold this_create, OptionsService_create.
  destruct s; [| destruct (negb _)]; intros H; inversion H; subst;
    auto using filtered_create.
Qed.

Lemma filtered_this_find s params k w w' :
  options_finds_filtered w -> this_find s params k w = Normal w' ->
  options_finds_filtered w'.
Proof.
  intros Hw. unfold this_find, OptionsService_find.
  destruct s.
  - intros H; inversion H; subst. auto with filtered.
  - destruct (OptionsService_find_params params) as [params' | m] eqn:E;
      intros H; inversion H; subst.
    apply filtered_find_Opts; auto.
    eapply OptionsService_find_params_filtered; eauto.
Qed.

Lemma filtered_invoke s r k w w' :
  options_finds_filtered w -> invoke s r k w = Normal w' -> options_finds_filtered w'.
Proof.
  intros Hw. destruct r; simpl; intros H;
    eauto using filtered_this_create, filtered_this_find;
    inversion H; subst; auto with filtered.
Qed.

Lemma filtered_createIncremental_resumed s data params k e w :
  options_finds_filtered w ->
  options_finds_filtered (createIncremental_resumed s data params k e w).
Proof.
  intros Hw. unfold createIncremental_resumed.
  destruct (newId_of e) as [newId | m]; auto with filtered.
  destruct (js_gt_0 newId); auto with filtered.
  destruct (this_create Opts _ None KDiscard w) as [w' | m] eqn:E; auto with filtered.
  apply filtered_createNormal. eapply filtered_this_create; eauto.
Qed.

Lemma filtered_createNormal_settled s k o w :
  options_finds_filtered w -> options_finds_filtered (createNormal_settled s k o w).
Proof.
  intros Hw. unfold createNormal_settled. destruct o as [result | m]; auto with filtered.
  set (w1 := with_service s (with_isCreationInProcess false _) _).
  assert (H1 : options_finds_filtered w1) by (subst w1; auto with filtered).
  clearbody w1.
  destruct (JsMap.first (creationQueue (service_of s w1))) as [[key value] |];
    auto with filtered.
  match goal with |- context [this_create ?a ?b ?c ?d ?e] =>
    destruct (this_create a b c d e) as [w' | m] eqn:E end.
  - eapply filtered_this_create; [| exact E]. auto with filtered.
  - auto with filtered.
Qed.

Lemma filtered_store_settled a o w :
  options_finds_filtered w -> options_finds_filtered (store_settled a o w).
Proof.
  intros Hw. destruct a; simpl; auto using filtered_createNormal_settled.
  - unfold find_settled. apply filtered_fulfil. destruct (_ && _)%bool; auto with filtered.
  - unfold get_settled. apply filtered_fulfil. destruct (_ && _)%bool; auto with filtered.
  - unfold mutation_settled. auto with filtered.
Qed.

Lemma filtered_step w ev :
  options_finds_filtered w -> options_finds_filtered (step w ev).
Proof.
  intros Hw. destruct ev as [s r h | c o | | t]; simpl.
  - destruct (invoke s r (KCaller h) w) eqn:E.
    + eapply filtered_invoke; eauto.
    + auto with filtered.
  - destruct (take_pending c (pending w)) as [[a rest] |]; auto.
    apply filtered_store_settled. auto with filtered.
  - destruct (ready w) as [| [k e] rest]; auto.
    destruct k; simpl; auto using filtered_createIncremental_resumed with filtered.
  - auto with filtered.
Qed.

Lemma filtered_run evs w :
  options_finds_filtered w -> options_finds_filtered (run evs w).
Proof.
  unfold run. revert w. induction evs as [| ev evs IH]; simpl; intros w Hw.
  - assumption.
  - apply IH. apply filtered_step. assumption.
Qed.

Lemma filtered_new_world inc cach : options_finds_filtered (new_world inc cach).
Proof. split; [reflexivity | constructor]. Qed.



(** ** The creation queue when the keys differ and the inserts succeed *)

Lemma JsMap_get_None_set {V : Type} (k : string) (v : V) (m : JsMap.t V) :
  ~ In k (map fst m) -> JsMap.set k v m = m ++ [(k, v)].
Proof.
  induction m as [| [k' v'] m IH]; simpl; intros H.
  - reflexivity.
  - destruct (k' =? k)%string eqn:E.
    + apply String.eqb_eq in E. tauto.
    + rewrite IH by tauto. reflexivity.
Qed.

Lemma assoc_twice k v o : assoc k v (assoc k v o) = assoc k v o.
Proof.
  induction o as [| [k' v'] o IH]; simpl.
  - rewrite String.eqb_refl. reflexivity.
  - destruct (k' =? k)%string eqn:E; simpl.
    + rewrite String.eqb_refl. reflexivity.
    + rewrite E, IH. reflexivity.
Qed.

Section Batch.
Variables (cach : bool) (o : service) (now : Z) (rp : list (handle * reply)).

Lemma step_call_busy (j : job) (q : JsMap.t queued) tr pend :
  step (mkWorld (busy cach q) o now tr pend [] rp) (call_of j)
  = mkWorld (busy cach (JsMap.set (queue_key now j) (snd (queue_entry now j)) q))
            o now tr pend [] rp.
Proof. reflexivity. Qed.

Lemma enqueue_batch (rest : list job) (q : JsMap.t queued) tr pend :
  NoDup (map (queue_key now) rest) ->
  (forall j, In j rest -> ~ In (queue_key now j) (map fst q)) ->
  run (map call_of rest) (mkWorld (busy cach q) o now tr pend [] rp)
  = mkWorld (busy cach (q ++ map (queue_entry now) rest)) o now tr pend [] rp.
Proof.
  revert q. induction rest as [| j rest IH]; intros q Hnd Hq.
  - cbn [map]. rewrite app_nil_r. reflexivity.
  - cbn [map] in Hnd. inversion Hnd as [| ? ? Hj Hnd']; subst.
    unfold run in *. cbn [map fold_left]. rewrite step_call_busy.
    rewrite JsMap_get_None_set by (apply Hq; left; reflexivity).
    rewrite IH; auto.
    + rewrite <- app_assoc. reflexivity.
    + intros j' Hj'. rewrite map_app, in_app_iff. cbn [map fst queue_entry In].
      intros [H | [H | []]].
      * apply (Hq j'); [right; assumption | exact H].
      * apply Hj. rewrite H. apply in_map. assumption.
Qed.

Lemma step_settle_last (done : list job) (cur : job) tr :
  step (mkWorld (busy cach []) o now tr
                [(List.length done, AwaitCreate Main (kont_of done cur))] [] rp)
       (Settle (List.length done) (Resolved (j_answer cur)))
  = mkWorld (mkService false cach [] [] false []) o now tr []
            [(kont_of done cur, formatData (Resolved (j_answer cur)))] rp.
Proof.
  unfold step. cbn [pending take_pending]. rewrite Nat.eqb_refl. reflexivity.
Qed.

Lemma step_settle_next (done : list job) (cur nxt : job) (rest : list job) tr :
  step (mkWorld (busy cach (queue_entry now nxt :: map (queue_entry now) rest)) o now tr
                [(List.length done, AwaitCreate Main (kont_of done cur))] [] rp)
       (Settle (List.length done) (Resolved (j_answer cur)))
  = mkWorld (busy cach (map (queue_entry now) rest)) o now (tr ++ [insert_of now nxt])
            [(List.length tr, AwaitCreate Main (kont_of (cur :: done) nxt))] [] rp.
Proof.
  unfold step. cbn [pending take_pending]. rewrite Nat.eqb_refl.
  unfold store_settled, createNormal_settled, queue_entry.
  cbn [with_pending with_service service_of main clearCache with_get_cache
       with_find_cache with_isCreationInProcess with_creationQueue creationQueue
       JsMap.first JsMap.delete q_data q_params q_resolve incremental cacheable
       cachedQueries_find cachedQueries_get isCreationInProcess busy
       opts clock trace pending ready replies this_create].
  rewrite String.eqb_refl. unfold create.
  cbn [with_pending with_service service_of main clearCache with_get_cache
       with_find_cache with_isCreationInProcess with_creationQueue creationQueue
       incremental cacheable cachedQueries_find cachedQueries_get isCreationInProcess
       opts clock trace pending ready replies].
  unfold busy, insert_of, stamped. cbn. rewrite assoc_twice. reflexivity.
Qed.

Lemma drain_batch (rest : list job) (done : list job) (cur : job) tr :
  List.length tr = S (List.length done) ->
  run (settles_from (List.length done) (cur :: rest))
      (mkWorld (busy cach (map (queue_entry now) rest)) o now tr
               [(List.length done, AwaitCreate Main (kont_of done cur))] [] rp)
  = let last := final_of done cur rest in
    mkWorld (mkService false cach [] [] false []) o now
            (tr ++ map (insert_of now) rest) []
            [(kont_of (fst last) (snd last),
              formatData (Resolved (j_answer (snd last))))] rp.
Proof.
  revert done cur tr. induction rest as [| nxt rest IH]; intros done cur tr Hlen.
  - unfold run. cbn [settles_from fold_left map]. rewrite step_settle_last.
    cbn. rewrite app_nil_r. reflexivity.
  - unfold run in *.
    change (settles_from (List.length done) (cur :: nxt :: rest))
      with (Settle (List.length done) (Resolved (j_answer cur))
              :: settles_from (List.length (cur :: done)) (nxt :: rest)).
    cbn [fold_left map]. rewrite step_settle_next.
    rewrite Hlen. change (S (List.length done)) with (List.length (cur :: done)).
    rewrite IH.
    + cbn [final_of]. rewrite <- !app_assoc. reflexivity.
    + rewrite length_app. cbn [List.length]. rewrite Hlen. lia.
Qed.

Lemma tick_drain resolve result k e (m : service) tr replies0 :
  step (mkWorld m o now tr [] [(KDrain resolve result k, e)] replies0) Tick
  = mkWorld m o now tr [] [(resolve, e); (k, formatData (Resolved result))] replies0.
Proof. reflexivity. Qed.

Lemma tick_caller h e rest (m : service) tr replies0 :
  step (mkWorld m o now tr [] ((KCaller h, e) :: rest) replies0) Tick
  = mkWorld m o now tr [] rest (replies0 ++ [(h, Returned e)]).
Proof. reflexivity. Qed.

Lemma unwind_batch (done : list job) (cur : job) (m : service) tr replies0 :
  run (repeat Tick (2 * List.length done + 1))
      (mkWorld m o now tr []
               [(kont_of done cur, formatData (Resolved (j_answer cur)))] replies0)
  = mkWorld m o now tr [] [] (replies0 ++ map reply_of (cur :: done)).
Proof.
  revert cur replies0. induction done as [| prev done IH]; intros cur replies0.
  - reflexivity.
  - replace (2 * List.length (prev :: done) + 1)
      with (S (S (2 * List.length done + 1))) by (cbn [List.length]; lia).
    unfold run in *. cbn [repeat fold_left kont_of].
    rewrite tick_drain, tick_caller, IH. rewrite <- app_assoc. reflexivity.
Qed.
End Batch.

Lemma final_of_all done cur rest :
  snd (final_of done cur rest) :: fst (final_of done cur rest) = rev rest ++ cur :: done.
Proof.
  revert done cur. induction rest as [| nxt rest IH]; intros done cur.
  - reflexivity.
  - cbn [final_of rev]. rewrite IH, <- app_assoc. reflexivity.
Qed.

Lemma final_of_length done cur rest :
  List.length (fst (final_of done cur rest)) = List.length rest + List.length done.
Proof.
  revert done cur. induction rest as [| nxt rest IH]; intros done cur.
  - reflexivity.
  - cbn [final_of]. rewrite IH. cbn [List.length]. lia.
Qed.

Lemma run_app evs1 evs2 w : run (evs1 ++ evs2) w = run evs2 (run evs1 w).
Proof. unfold run. apply fold_left_app. Qed.

(** Creates issued back to back on a fresh non-incremental service, whose
    queue keys differ and whose inserts the store accepts: the store
    receives the inserts in the order of the calls, one per call, and
    every caller is answered with the document the store returned for its
    own insert (the latest caller first); the service ends idle. *)
Lemma batch_of_creates_is_fifo cach first rest :
  NoDup (map (queue_key 0) rest) ->
  let jobs := first :: rest in
  let w := run (batch_run jobs) (new_world false cach) in
  trace w = map (insert_of 0) jobs
  /\ replies w = map reply_of (rev jobs)
  /\ pending w = [] /\ ready w = []
  /\ isCreationInProcess (main w) = false
  /\ creationQueue (main w) = [].
Proof.
  intros Hnd jobs w. subst w jobs. unfold batch_run.
  rewrite !run_app. cbn [map].
  change (run (call_of first :: map call_of rest) (new_world false cach))
    with (run (map call_of rest)
              (mkWorld (busy cach []) (new_service false true) 0
                       [insert_of 0 first]
                       [(List.length (@nil job), AwaitCreate Main (kont_of [] first))]
                       [] [])).
  rewrite enqueue_batch by (auto; intros j _ []).
  cbn [app].
  rewrite (drain_batch cach (new_service false true) 0 [] rest [] first) by reflexivity.
  cbv zeta.
  replace (2 * List.length (first :: rest) - 1)
    with (2 * List.length (fst (final_of [] first rest)) + 1)
    by (rewrite final_of_length; cbn [List.length]; lia).
  rewrite unwind_batch. cbn [trace replies pending ready main isCreationInProcess
                             creationQueue app].
  rewrite final_of_all. cbn [rev]. repeat split; reflexivity.
Qed.

(** ** Further properties of [BaseService] *)

Lemma step_settle_issued c a o w :
  next_call_fresh w ->
  step (issue c a w) (Settle (List.length (trace w)) o) = store_settled a o (after_call c w).
Proof.
  intros H. unfold step, issue. cbn [pending].
  rewrite (take_pending_fresh _ _ _ H). reflexivity.
Qed.

Lemma step_tick_caller h e rest w :
  ready w = (KCaller h, e) :: rest ->
  step w Tick = answer h (Returned e) (with_ready rest w).
Proof. intros H. unfold step. rewrite H. reflexivity. Qed.

Lemma get_miss s id params k w :
  (if cacheable (service_of s w)
   then JsMap.get (get_key id params) (cachedQueries_get (service_of s w))
   else None) = None ->
  get s id params k w = issue (SuperGet s id params) (AwaitGet s (get_key id params) k) w.
Proof. intros H. unfold get. fold (get_key id params). rewrite H. reflexivity. Qed.

Lemma get_hit s id params k w e :
  cacheable (service_of s w) = true ->
  JsMap.get (get_key id params) (cachedQueries_get (service_of s w)) = Some e ->
  get s id params k w = fulfil k e w.
Proof. intros Hc H. unfold get. fold (get_key id params). rewrite Hc, H. reflexivity. Qed.

Lemma find_miss s params k w :
  (if cacheable (service_of s w)
   then JsMap.get (find_key (service_of s w) params) (cachedQueries_find (service_of s w))
   else None) = None ->
  find s params k w
  = issue (SuperFind s (find_params (service_of s w) params))
          (AwaitFind s (find_key (service_of s w) params) k) w.
Proof. intros H. unfold find. fold (find_key (service_of s w) params). rewrite H. reflexivity. Qed.

(** X1.  On a cacheable service, once a get has been answered by the
    store with a document, the next get whose serialized [[id, params]]
    (the key of line 133) is the same receives the same envelope and no
    store call is made for it. *)
Theorem X1_get_cache_idempotent s w id1 params1 id2 params2 h1 h2 v :
  cacheable (service_of s w) = true ->
  ready w = [] ->
  next_call_fresh w ->
  get_key id1 params1 = get_key id2 params2 ->
  JsMap.get (get_key id1 params1) (cachedQueries_get (service_of s w)) = None ->
  let w1 := run [Call s (Get id1 params1) h1;
                 Settle (List.length (trace w)) (Resolved v); Tick] w in
  let w2 := run [Call s (Get id2 params2) h2; Tick] w1 in
  trace w1 = trace w ++ [SuperGet s id1 params1]
  /\ replies w1 = replies w ++ [(h1, Returned (formatData (Resolved v)))]
  /\ trace w2 = trace w1
  /\ pending w2 = pending w1
  /\ replies w2 = replies w1 ++ [(h2, Returned (formatData (Resolved v)))].
Proof.
  intros Hc Hr Hp Hkey Hmiss w1 w2.
  assert (E1 : w1 = answer h1 (Returned (formatData (Resolved v)))
                 (with_service s
                    (with_get_cache (JsMap.set (get_key id1 params1) (formatData (Resolved v))
                                       (cachedQueries_get (service_of s w)))
                                    (service_of s w))
                    (after_call (SuperGet s id1 params1) w))).
  { subst w1. unfold run. cbn [fold_left]. 
    change (step w (Call s (Get id1 params1) h1)) with (get s id1 params1 (KCaller h1) w).
    rewrite get_miss by (rewrite Hc; exact Hmiss).
    rewrite step_settle_issued by exact Hp.
    cbn [store_settled]. unfold get_settled.
    replace (service_of s (after_call (SuperGet s id1 params1) w)) with (service_of s w)
      by (destruct s; reflexivity).
    rewrite Hc. cbn [is_OK formatData resultCode andb].
    erewrite step_tick_caller.
    2:{ destruct s; cbn; rewrite Hr; reflexivity. }
    destruct s, w; cbn in *; subst; reflexivity. }
  assert (E2 : w2 = answer h2 (Returned (formatData (Resolved v))) w1).
  { subst w2. unfold run. cbn [fold_left].
    change (step w1 (Call s (Get id2 params2) h2)) with (get s id2 params2 (KCaller h2) w1).
    rewrite (get_hit s id2 params2 (KCaller h2) w1 (formatData (Resolved v))).
    - erewrite step_tick_caller.
      2:{ rewrite E1. destruct s; cbn; rewrite Hr; reflexivity. }
      rewrite E1. destruct s, w; cbn in *; subst; reflexivity.
    - rewrite E1. destruct s; cbn; exact Hc.
    - rewrite E1, <- Hkey. destruct s; cbn; apply JsMap_get_set_same. }
  rewrite E2, E1. destruct s, w; cbn in *; repeat split; reflexivity.
Qed.

Lemma X1_get_cache_idempotent_witness :
  let w := new_world true true in
  let w1 := run [Call Opts (Get (JStr "last_id") None) 1; Settle 0 (Resolved (counter 4)); Tick] w in
  let w2 := run [Call Opts (Get (JStr "last_id") (Some JNull)) 2; Tick] w1 in
  trace w1 = trace w ++ [SuperGet Opts (JStr "last_id") None]
  /\ replies w1 = replies w ++ [(1, Returned (formatData (Resolved (counter 4))))]
  /\ trace w2 = trace w1
  /\ pending w2 = pending w1
  /\ replies w2 = replies w1 ++ [(2, Returned (formatData (Resolved (counter 4))))].
Proof.
  apply (X1_get_cache_idempotent Opts (new_world true true) (JStr "last_id") None
           (JStr "last_id") (Some JNull) 1 2 (counter 4)); reflexivity.
Defined.

(** X2.  A find or a get whose store call is rejected answers ['Error']
    with the message and leaves the caches as they were: the same request,
    made again, goes to the store again. *)
Theorem X2_errors_are_not_cached s w params id m h1 h2 :
  ready w = [] ->
  next_call_fresh w ->
  JsMap.get (find_key (main w) params) (cachedQueries_find (main w)) = None ->
  JsMap.get (get_key id params) (cachedQueries_get (service_of s w)) = None ->
  let f := run [Call Main (Find params) h1; Settle (List.length (trace w)) (Rejected m);
                Tick; Call Main (Find params) h2] w in
  let g := run [Call s (Get id params) h1; Settle (List.length (trace w)) (Rejected m);
                Tick; Call s (Get id params) h2] w in
  replies f = replies w ++ [(h1, Returned (mkEnvelope Error None (Some m)))]
  /\ trace f = trace w ++ [SuperFind Main (find_params (main w) params);
                           SuperFind Main (find_params (main w) params)]
  /\ main f = main w
  /\ replies g = replies w ++ [(h1, Returned (mkEnvelope Error None (Some m)))]
  /\ trace g = trace w ++ [SuperGet s id params; SuperGet s id params]
  /\ main g = main w /\ opts g = opts w.
Proof.
  intros Hr Hp Hf Hg f g.
  assert (E1 : f = find Main params (KCaller h2)
                 (answer h1 (Returned (formatData (Rejected m)))
                    (after_call (SuperFind Main (find_params (main w) params)) w))).
  { subst f. unfold run. cbn [fold_left].
    change (step w (Call Main (Find params) h1)) with (find Main params (KCaller h1) w).
    rewrite find_miss by (cbn [service_of]; rewrite Hf; destruct (cacheable (main w)); reflexivity).
    rewrite step_settle_issued by exact Hp.
    cbn [store_settled]. unfold find_settled.
    cbn [is_OK formatData resultCode]. rewrite andb_false_r.
    erewrite step_tick_caller by (cbn; rewrite Hr; reflexivity).
    cbn [step invoke this_find]. destruct w; cbn in *; subst; reflexivity. }
  assert (E2 : g = get s id params (KCaller h2)
                 (answer h1 (Returned (formatData (Rejected m)))
                    (after_call (SuperGet s id params) w))).
  { subst g. unfold run. cbn [fold_left].
    change (step w (Call s (Get id params) h1)) with (get s id params (KCaller h1) w).
    rewrite get_miss by (rewrite Hg; destruct (cacheable (service_of s w)); reflexivity).
    rewrite step_settle_issued by exact Hp.
    cbn [store_settled]. unfold get_settled.
    cbn [is_OK formatData resultCode]. rewrite andb_false_r.
    erewrite step_tick_caller by (cbn; rewrite Hr; reflexivity).
    cbn [step invoke]. destruct w; cbn in *; subst; reflexivity. }
  rewrite E1, E2.
  rewrite find_miss, get_miss.
  - destruct s, w; cbn in *; rewrite <- !app_assoc; repeat split; reflexivity.
  - replace (service_of s _) with (service_of s w) by (destruct s, w; reflexivity).
    rewrite Hg; destruct (cacheable (service_of s w)); reflexivity.
  - cbn [service_of answer after_call main]. rewrite Hf.
    destruct (cacheable (main w)); reflexivity.
Qed.

Lemma X2_errors_are_not_cached_witness :
  let w := new_world false true in
  let f := run [Call Main (Find None) 1; Settle 0 (Rejected "EIO"); Tick;
                Call Main (Find None) 2] w in
  let g := run [Call Opts (Get (JStr "motto") None) 1; Settle 0 (Rejected "EIO"); Tick;
                Call Opts (Get (JStr "motto") None) 2] w in
  replies f = replies w ++ [(1, Returned (mkEnvelope Error None (Some "EIO")))]
  /\ trace f = trace w ++ [SuperFind Main (find_params (main w) None);
                           SuperFind Main (find_params (main w) None)]
  /\ main f = main w
  /\ replies g = replies w ++ [(1, Returned (mkEnvelope Error None (Some "EIO")))]
  /\ trace g = trace w ++ [SuperGet Opts (JStr "motto") None; SuperGet Opts (JStr "motto") None]
  /\ main g = main w /\ opts g = opts w.
Proof.
  apply (X2_errors_are_not_cached Opts (new_world false true) None (JStr "motto") "EIO" 1 2);
    reflexivity.
Defined.

(** X3.  [update], [patch] and [remove] answer with [formatData] of the
    store's outcome and leave both caches of their service empty, whether
    that outcome is a success or a rejection: after one of them, every
    find and every get of that service goes to the store. *)
Theorem X3_mutation_clears_caches s w r h o :
  is_mutation r ->
  ready w = [] ->
  next_call_fresh w ->
  let w1 := run [Call s r h; Settle (List.length (trace w)) o; Tick] w in
  replies w1 = replies w ++ [(h, Returned (formatData o))]
  /\ Some (trace w1) = option_map (fun c => trace w ++ [c]) (mutation_call s (clock w) r)
  /\ cachedQueries_find (service_of s w1) = JsMap.empty
  /\ cachedQueries_get (service_of s w1) = JsMap.empty
  /\ (forall params k,
        trace (find s params k w1)
        = trace w1 ++ [SuperFind s (find_params (service_of s w1) params)])
  /\ (forall id params k,
        trace (get s id params k w1) = trace w1 ++ [SuperGet s id params]).
Proof.
  intros Hm Hr Hp w1.
  assert (E : exists c, mutation_call s (clock w) r = Some c
                        /\ w1 = answer h (Returned (formatData o))
                                  (with_service s (clearCache (service_of s w))
                                     (after_call c w))).
  { destruct r; try contradiction; eexists; (split; [reflexivity |]);
      subst w1; unfold run; cbn [fold_left];
      [ change (step w (Call s (Update id data params) h))
          with (update s id data params (KCaller h) w); unfold update
      | change (step w (Call s (Patch id data params) h))
          with (patch s id data params (KCaller h) w); unfold patch
      | change (step w (Call s (Remove id params) h))
          with (remove s id params (KCaller h) w); unfold remove ];
      rewrite step_settle_issued by exact Hp;
      cbn [store_settled]; unfold mutation_settled;
      (erewrite step_tick_caller by (destruct s; cbn; rewrite Hr; reflexivity));
      destruct s, w; cbn in *; subst; reflexivity. }
  destruct E as (c & Ec & E). rewrite Ec, E. cbn [option_map].
  assert (Hf : cachedQueries_find (service_of s
                 (answer h (Returned (formatData o))
                    (with_service s (clearCache (service_of s w)) (after_call c w))))
               = JsMap.empty) by (destruct s; reflexivity).
  assert (Hg : cachedQueries_get (service_of s
                 (answer h (Returned (formatData o))
                    (with_service s (clearCache (service_of s w)) (after_call c w))))
               = JsMap.empty) by (destruct s; reflexivity).
  split; [destruct s; reflexivity |]. split; [destruct s; reflexivity |].
  split; [exact Hf |]. split; [exact Hg |]. split.
  - intros. apply find_asks_store_when_cleared. exact Hf.
  - intros. apply get_asks_store_when_cleared. exact Hg.
Qed.

Lemma X3_mutation_clears_caches_witness :
  let w := run [Call Main (Find None) 1; Settle 0 (Resolved (JArr [])); Tick]
               (new_world false true) in
  let w1 := run [Call Main (Remove (JStr "7") None) 2; Settle 1 (Rejected "No record found");
                 Tick] w in
  replies w1 = replies w ++ [(2, Returned (formatData (Rejected "No record found")))]
  /\ Some (trace w1)
     = option_map (fun c => trace w ++ [c])
                  (mutation_call Main (clock w) (Remove (JStr "7") None))
  /\ cachedQueries_find (service_of Main w1) = JsMap.empty
  /\ cachedQueries_get (service_of Main w1) = JsMap.empty
  /\ (forall params k,
        trace (find Main params k w1)
        = trace w1 ++ [SuperFind Main (find_params (service_of Main w1) params)])
  /\ (forall id params k,
        trace (get Main id params k w1) = trace w1 ++ [SuperGet Main id params]).
Proof.
  apply (X3_mutation_clears_caches Main
           (run [Call Main (Find None) 1; Settle 0 (Resolved (JArr [])); Tick]
                (new_world false true))
           (Remove (JStr "7") None) 2 (Rejected "No record found"));
    [exact I | reflexivity | reflexivity].
Defined.

Lemma assoc_assoc k v1 v2 o : assoc k v2 (assoc k v1 o) = assoc k v2 o.
Proof.
  induction o as [| [k' v'] o IH]; simpl.
  - rewrite String.eqb_refl. reflexivity.
  - destruct (k' =? k)%string eqn:E; simpl.
    + rewrite String.eqb_refl. reflexivity.
    + rewrite E, IH. reflexivity.
Qed.

Lemma create_idle_main w data params k :
  isCreationInProcess (main w) = false ->
  incremental (main w) = false ->
  create Main data params k w
  = issue (SuperCreate Main (assoc "created" (JDate (clock w)) data) params)
          (AwaitCreate Main k)
          (with_service Main (with_isCreationInProcess true (main w)) w).
Proof.
  intros Hf Hi. unfold create, createNormal. cbn [service_of]. rewrite Hf.
  cbn [incremental with_isCreationInProcess]. rewrite Hi. reflexivity.
Qed.

(** X4.  On a non-incremental service with no creation in flight, a
    create sends the data to the store with [created] set to the current
    time, over whatever the caller had put there.  When the store accepts
    the insert the caller receives ['OK'] with the stored document, both
    caches are empty and the service is ready for the next create. *)
Theorem X4_create_accepted w data params h v :
  idle (main w) ->
  incremental (main w) = false ->
  ready w = [] ->
  next_call_fresh w ->
  let sent := assoc "created" (JDate (clock w)) data in
  let w1 := run [Call Main (Create data params) h;
                 Settle (List.length (trace w)) (Resolved v); Tick] w in
  trace w1 = trace w ++ [SuperCreate Main sent params]
  /\ prop "created" sent = Some (JDate (clock w))
  /\ replies w1 = replies w ++ [(h, Returned (mkEnvelope OK (Some v) None))]
  /\ cachedQueries_find (main w1) = JsMap.empty
  /\ cachedQueries_get (main w1) = JsMap.empty
  /\ idle (main w1)
  /\ pending w1 = pending w.
Proof.
  intros [Hf Hq] Hi Hr Hp sent w1.
  assert (E : w1 = answer h (Returned (formatData (Resolved v)))
                     (with_service Main
                        (with_isCreationInProcess false (clearCache (main w)))
                        (after_call (SuperCreate Main sent params) w))).
  { subst w1. unfold run. cbn [fold_left].
    change (step w (Call Main (Create data params) h))
      with (create Main data params (KCaller h) w).
    rewrite create_idle_main by assumption.
    rewrite (step_settle_issued _ _ _ (with_service Main _ w)) by exact Hp.
    cbn [store_settled]. unfold createNormal_settled.
    cbn [service_of with_service after_call main clearCache with_get_cache with_find_cache
         with_isCreationInProcess creationQueue].
    rewrite Hq. cbn [JsMap.first JsMap.empty].
    erewrite step_tick_caller by (cbn; rewrite Hr; reflexivity).
    destruct w; cbn in *; subst; reflexivity. }
  clearbody w1. subst w1. destruct w; cbn in *. subst.
  repeat split; try reflexivity; try assumption. apply prop_assoc_same.
Qed.

Lemma X4_create_accepted_witness :
  let w := new_world false true in
  let data := [("title", JStr "a"); ("created", JStr "yesterday")] in
  let sent := assoc "created" (JDate (clock w)) data in
  let w1 := run [Call Main (Create data None) 1; Settle 0 (Resolved (JObj data)); Tick] w in
  trace w1 = trace w ++ [SuperCreate Main sent None]
  /\ prop "created" sent = Some (JDate (clock w))
  /\ replies w1 = replies w ++ [(1, Returned (mkEnvelope OK (Some (JObj data)) None))]
  /\ cachedQueries_find (main w1) = JsMap.empty
  /\ cachedQueries_get (main w1) = JsMap.empty
  /\ idle (main w1)
  /\ pending w1 = pending w.
Proof.
  apply (X4_create_accepted (new_world false true)
           [("title", JStr "a"); ("created", JStr "yesterday")] None 1
           (JObj [("title", JStr "a"); ("created", JStr "yesterday")]));
    try reflexivity. split; reflexivity.
Defined.

Lemma locked_step w ev :
  locked w -> create_or_no_call ev ->
  locked (step w ev) /\ trace (step w ev) = trace w /\ replies (step w ev) = replies w.
Proof.
  intros (Hf & Hp & Hr) Hev. destruct ev as [s r h | c o | | t].
  - destruct s; [| contradiction]. destruct r; try contradiction.
    cbn [step invoke this_create]. unfold create. cbn [service_of]. rewrite Hf.
    destruct w; cbn in *. repeat split; assumption.
  - cbn [step]. rewrite Hp. cbn. repeat split; assumption.
  - cbn [step]. rewrite Hr. repeat split; assumption.
  - destruct w; cbn in *. repeat split; assumption.
Qed.

Lemma locked_run evs w :
  locked w -> Forall create_or_no_call evs ->
  locked (run evs w) /\ trace (run evs w) = trace w /\ replies (run evs w) = replies w.
Proof.
  unfold run. revert w. induction evs as [| ev evs IH]; cbn [fold_left]; intros w Hw Hevs.
  - auto.
  - inversion Hevs; subst.
    destruct (locked_step w ev Hw) as (L & T & R); auto.
    destruct (IH (step w ev) L) as (L' & T' & R'); auto.
    repeat split; try apply L'; congruence.
Qed.

(** X5.  On a non-incremental service, a create whose insert the store
    rejects answers ['Error'] with the message and leaves
    [isCreationInProcess] set and the caches untouched.  From then on
    every create is only put on the queue: whatever creates are called
    and however long one waits, no insert reaches the store and no caller
    is answered. *)
Theorem X5_rejected_insert_locks_creation w data params h m evs :
  idle (main w) ->
  incremental (main w) = false ->
  ready w = [] ->
  pending w = [] ->
  Forall create_or_no_call evs ->
  let w1 := run [Call Main (Create data params) h;
                 Settle (List.length (trace w)) (Rejected m); Tick] w in
  replies w1 = replies w ++ [(h, Returned (mkEnvelope Error None (Some m)))]
  /\ trace w1 = trace w ++ [SuperCreate Main (assoc "created" (JDate (clock w)) data) params]
  /\ isCreationInProcess (main w1) = true
  /\ cachedQueries_find (main w1) = cachedQueries_find (main w)
  /\ cachedQueries_get (main w1) = cachedQueries_get (main w)
  /\ trace (run evs w1) = trace w1
  /\ replies (run evs w1) = replies w1.
Proof.
  intros [Hf Hq] Hi Hr Hp Hevs w1.
  assert (E : w1 = answer h (Returned (formatData (Rejected m)))
                     (with_service Main (with_isCreationInProcess true (main w))
                        (after_call (SuperCreate Main
                                       (assoc "created" (JDate (clock w)) data) params) w))).
  { subst w1. unfold run. cbn [fold_left].
    change (step w (Call Main (Create data params) h))
      with (create Main data params (KCaller h) w).
    rewrite create_idle_main by assumption.
    rewrite (step_settle_issued _ _ _ (with_service Main _ w))
      by (unfold next_call_fresh; cbn; rewrite Hp; reflexivity).
    cbn [store_settled]. unfold createNormal_settled.
    erewrite step_tick_caller by (cbn; rewrite Hr; reflexivity).
    destruct w; cbn in *; subst; reflexivity. }
  assert (L : locked w1).
  { rewrite E. destruct w; cbn in *. subst. repeat split. }
  destruct (locked_run evs w1 L Hevs) as (_ & T & R).
  rewrite T, R. clear T R L. clearbody w1. subst w1.
  destruct w; cbn in *. subst. repeat split.
Qed.

Lemma X5_rejected_insert_locks_creation_witness :
  let w := new_world false true in
  let w1 := run [Call Main (Create [("_id", JStr "a")] None) 1;
                 Settle 0 (Rejected "unique constraint violated"); Tick] w in
  let evs := [Call Main (Create [("_id", JStr "b")] None) 2; Tick; Settle 1 (Resolved JNull);
              Clock 5; Call Main (Create [("_id", JStr "c")] None) 3; Tick] in
  replies w1 = replies w
               ++ [(1, Returned (mkEnvelope Error None (Some "unique constraint violated")))]
  /\ trace w1 = trace w ++ [SuperCreate Main (assoc "created" (JDate (clock w))
                                                   [("_id", JStr "a")]) None]
  /\ isCreationInProcess (main w1) = true
  /\ cachedQueries_find (main w1) = cachedQueries_find (main w)
  /\ cachedQueries_get (main w1) = cachedQueries_get (main w)
  /\ trace (run evs w1) = trace w1
  /\ replies (run evs w1) = replies w1.
Proof.
  apply (X5_rejected_insert_locks_creation (new_world false true) [("_id", JStr "a")] None 1
           "unique constraint violated"
           [Call Main (Create [("_id", JStr "b")] None) 2; Tick; Settle 1 (Resolved JNull);
            Clock 5; Call Main (Create [("_id", JStr "c")] None) 3; Tick]);
    try reflexivity.
  - split; reflexivity.
  - repeat constructor.
Defined.

(** X6.  Creates issued back to back on a fresh non-incremental service,
    whose queue keys (line 192) differ and whose inserts the store
    accepts: the store receives one insert per call, in the order of the
    calls; each caller is answered ['OK'] with the document the store
    returned for its own insert, the last caller first; the service ends
    with no creation in flight and an empty queue. *)
Theorem X6_creation_queue_is_fifo cach first rest :
  NoDup (map (queue_key 0) rest) ->
  let jobs := first :: rest in
  let w := run (batch_run jobs) (new_world false cach) in
  trace w = map (insert_of 0) jobs
  /\ replies w = map reply_of (rev jobs)
  /\ pending w = [] /\ ready w = []
  /\ isCreationInProcess (main w) = false
  /\ creationQueue (main w) = [].
Proof. exact (batch_of_creates_is_fifo cach first rest). Qed.

Lemma X6_creation_queue_is_fifo_witness :
  let a := mkJob [("title", JStr "a")] None 1 (JObj [("title", JStr "a")]) in
  let b := mkJob [("title", JStr "b")] None 2 (JObj [("title", JStr "b")]) in
  let c := mkJob [("title", JStr "c")] None 3 (JObj [("title", JStr "c")]) in
  let jobs := [a; b; c] in
  let w := run (batch_run jobs) (new_world false true) in
  trace w = map (insert_of 0) jobs
  /\ replies w = map reply_of (rev jobs)
  /\ pending w = [] /\ ready w = []
  /\ isCreationInProcess (main w) = false
  /\ creationQueue (main w) = [].
Proof.
  apply (X6_creation_queue_is_fifo true
           (mkJob [("title", JStr "a")] None 1 (JObj [("title", JStr "a")]))
           [mkJob [("title", JStr "b")] None 2 (JObj [("title", JStr "b")]);
            mkJob [("title", JStr "c")] None 3 (JObj [("title", JStr "c")])]).
  vm_compute. repeat constructor; simpl; intuition discriminate.
Defined.

Lemma step_tick_incremental s data params k e rest w :
  ready w = (KIncremental s data params k, e) :: rest ->
  step w Tick = createIncremental_resumed s data params k e (with_ready rest w).
Proof. intros H. unfold step. rewrite H. reflexivity. Qed.



(** X8.  A create that had to wait in the queue is stamped again when it
    is taken from it: its document reaches the store with [created] set
    to the time at which the previous insert settled, not to the time of
    the call. *)
Theorem X8_queued_create_is_stamped_at_drain w d1 p1 h1 d2 p2 h2 t v :
  idle (main w) ->
  incremental (main w) = false ->
  ready w = [] ->
  pending w = [] ->
  trace (run [Call Main (Create d1 p1) h1; Call Main (Create d2 p2) h2; Clock t;
              Settle (List.length (trace w)) (Resolved v)] w)
  = trace w ++ [ SuperCreate Main (assoc "created" (JDate (clock w)) d1) p1;
                 SuperCreate Main (assoc "created" (JDate t) d2) p2 ].
Proof.
  intros [Hf Hq] Hi Hr Hp.
  destruct w as [m o c tr pe re rp]. destruct m as [inc cach cf cg flag q].
  cbn in Hf, Hq, Hi, Hr, Hp. subst. unfold run.
  cbn -[JSON_stringify assoc String.eqb Nat.eqb]. rewrite Nat.eqb_refl.
  cbn -[JSON_stringify assoc String.eqb Nat.eqb].
  rewrite assoc_assoc, <- app_assoc. reflexivity.
Qed.

Lemma X8_queued_create_is_stamped_at_drain_witness :
  let w := new_world false true in
  trace (run [Call Main (Create [("title", JStr "a")] None) 1;
              Call Main (Create [("title", JStr "b")] None) 2; Clock 900;
              Settle (List.length (trace w)) (Resolved JNull)] w)
  = trace w ++ [ SuperCreate Main (assoc "created" (JDate (clock w)) [("title", JStr "a")]) None;
                 SuperCreate Main (assoc "created" (JDate 900) [("title", JStr "b")]) None ].
Proof.
  apply (X8_queued_create_is_stamped_at_drain (new_world false true)
           [("title", JStr "a")] None 1 [("title", JStr "b")] None 2 900 JNull);
    try reflexivity. split; reflexivity.
Defined.

(** ** What no operation changes in a service *)

Create HintDb services.

Section ServiceInvariant.
Variable Q : sid -> service -> Prop.
Hypothesis Q_kept : kept_by_the_code Q.

Lemma services_hold_with_service s this w :
  services_hold Q w -> Q s this -> services_hold Q (with_service s this w).
Proof.
  intros Hw Hs s'. specialize (Hw s'). destruct s, s'; simpl; auto.
Qed.

Lemma services_hold_same (w w' : world) :
  main w' = main w -> opts w' = opts w -> services_hold Q w -> services_hold Q w'.
Proof.
  intros Hm Ho Hw s. specialize (Hw s). destruct s; simpl in *; congruence.
Qed.

Lemma services_hold_issue c a w : services_hold Q w -> services_hold Q (issue c a w).
Proof. apply services_hold_same; reflexivity. Qed.

Lemma services_hold_fulfil k e w : services_hold Q w -> services_hold Q (fulfil k e w).
Proof. apply services_hold_same; reflexivity. Qed.

Lemma services_hold_answer h r w : services_hold Q w -> services_hold Q (answer h r w).
Proof. apply services_hold_same; reflexivity. Qed.

Lemma services_hold_with_pending p w :
  services_hold Q w -> services_hold Q (with_pending p w).
Proof. apply services_hold_same; reflexivity. Qed.

Lemma services_hold_with_ready r w :
  services_hold Q w -> services_hold Q (with_ready r w).
Proof. apply services_hold_same; reflexivity. Qed.

Lemma services_hold_with_clock t w :
  services_hold Q w -> services_hold Q (with_clock t w).
Proof. apply services_hold_same; reflexivity. Qed.

Lemma services_hold_clearCache s w :
  services_hold Q w -> services_hold Q (with_service s (clearCache (service_of s w)) w).
Proof.
  intros Hw. apply services_hold_with_service; auto. apply Q_kept. apply Hw.
Qed.

Lemma services_hold_flag s b w :
  services_hold Q w ->
  services_hold Q (with_service s (with_isCreationInProcess b (service_of s w)) w).
Proof.
  intros Hw. apply services_hold_with_service; auto. apply Q_kept. apply Hw.
Qed.

Lemma services_hold_queue s q w :
  services_hold Q w ->
  services_hold Q (with_service s (with_creationQueue q (service_of s w)) w).
Proof.
  intros Hw. apply services_hold_with_service; auto. apply Q_kept. apply Hw.
Qed.

Hint Resolve services_hold_issue services_hold_fulfil services_hold_answer
  services_hold_with_pending services_hold_with_ready services_hold_with_clock
  services_hold_clearCache services_hold_flag services_hold_queue : services.

Lemma services_hold_find s params k w :
  services_hold Q w -> services_hold Q (find s params k w).
Proof.
  intros Hw. unfold find.
  destruct (if cacheable (service_of s w) then _ else None); auto with services.
Qed.

Lemma services_hold_get s id params k w :
  services_hold Q w -> services_hold Q (get s id params k w).
Proof.
  intros Hw. unfold get.
  destruct (if cacheable (service_of s w) then _ else None); auto with services.
Qed.

Lemma services_hold_update s id data params k w :
  services_hold Q w -> services_hold Q (update s id data params k w).
Proof. unfold update; auto with services. Qed.

Lemma services_hold_patch s id data params k w :
  services_hold Q w -> services_hold Q (patch s id data params k w).
Proof. unfold patch; auto with services. Qed.

Lemma services_hold_remove s id params k w :
  services_hold Q w -> services_hold Q (remove s id params k w).
Proof. unfold remove; auto with services. Qed.

Lemma services_hold_createNormal s data params k w :
  services_hold Q w -> services_hold Q (createNormal s data params k w).
Proof. unfold createNormal; auto with services. Qed.

Hint Resolve services_hold_find services_hold_get services_hold_update
  services_hold_patch services_hold_remove services_hold_createNormal : services.

Lemma services_hold_create s data params k w :
  services_hold Q w -> services_hold Q (create s data params k w).
Proof.
  intros Hw. unfold create, createIncremental.
  destruct (isCreationInProcess (service_of s w)); auto with services.
  destruct (incremental (service_of s w)); auto with services.
Qed.

Lemma services_hold_this_create s data params k w w' :
  services_hold Q w -> this_create s data params k w = Normal w' -> services_hold Q w'.
Proof.
  intros Hw. unfold this_create, OptionsService_create.
  destruct s; [| destruct (negb _)]; intros H; inversion H; subst;
    auto using services_hold_create.
Qed.

Lemma services_hold_this_find s params k w w' :
  services_hold Q w -> this_find s params k w = Normal w' -> services_hold Q w'.
Proof.
  intros Hw. unfold this_find, OptionsService_find.
  destruct s; [| destruct (OptionsService_find_params params)];
    intros H; inversion H; subst; auto with services.
Qed.

Lemma services_hold_invoke s r k w w' :
  services_hold Q w -> invoke s r k w = Normal w' -> services_hold Q w'.
Proof.
  intros Hw. destruct r; simpl; intros H;
    eauto using services_hold_this_create, services_hold_this_find;
    inversion H; subst; auto with services.
Qed.

Lemma services_hold_createIncremental_resumed s data params k e w :
  services_hold Q w -> services_hold Q (createIncremental_resumed s data params k e w).
Proof.
  intros Hw. unfold createIncremental_resumed.
  destruct (newId_of e) as [newId | m]; auto with services.
  destruct (js_gt_0 newId); auto with services.
  destruct (this_create Opts _ None KDiscard w) as [w' | m] eqn:E; auto with services.
  apply services_hold_createNormal. eapply services_hold_this_create; eauto.
Qed.

Lemma services_hold_envelope_delivered k e w :
  services_hold Q w -> services_hold Q (envelope_delivered k e w).
Proof.
  intros Hw. destruct k; simpl;
    auto using services_hold_createIncremental_resumed with services.
Qed.

Lemma services_hold_createNormal_settled s k o w :
  services_hold Q w -> services_hold Q (createNormal_settled s k o w).
Proof.
  intros Hw. unfold createNormal_settled. destruct o as [result | m]; auto with services.
  set (w1 := with_service s (with_isCreationInProcess false _) _).
  assert (H1 : services_hold Q w1) by (subst w1; auto with services).
  clearbody w1.
  destruct (JsMap.first (creationQueue (service_of s w1))) as [[key value] |];
    auto with services.
  match goal with |- context [this_create ?a ?b ?c ?d ?e] =>
    destruct (this_create a b c d e) as [w' | m] eqn:E end.
  - eapply services_hold_this_create; [| exact E]. auto with services.
  - auto with services.
Qed.

Lemma services_hold_store_settled a o w :
  services_hold Q w -> services_hold Q (store_settled a o w).
Proof.
  intros Hw. destruct a; simpl; auto using services_hold_createNormal_settled.
  - unfold find_settled. apply services_hold_fulfil.
    destruct (cacheable (service_of s w) && is_OK (formatData o))%bool eqn:E; auto.
    apply andb_true_iff in E as [E1 E2].
    apply services_hold_with_service; auto. apply Q_kept; auto; apply Hw.
  - unfold get_settled. apply services_hold_fulfil.
    destruct (cacheable (service_of s w) && is_OK (formatData o))%bool eqn:E; auto.
    apply andb_true_iff in E as [E1 E2].
    apply services_hold_with_service; auto. apply Q_kept; auto; apply Hw.
  - unfold mutation_settled. auto with services.
Qed.

Lemma services_hold_step w ev : services_hold Q w -> services_hold Q (step w ev).
Proof.
  intros Hw. destruct ev as [s r h | c o | | t]; simpl.
  - destruct (invoke s r (KCaller h) w) eqn:E.
    + eapply services_hold_invoke; eauto.
    + auto with services.
  - destruct (take_pending c (pending w)) as [[a rest] |]; auto.
    apply services_hold_store_settled. auto with services.
  - destruct (ready w) as [| [k e] rest]; auto.
    apply services_hold_envelope_delivered. auto with services.
  - auto with services.
Qed.

Lemma services_hold_run evs w : services_hold Q w -> services_hold Q (run evs w).
Proof.
  unfold run. revert w. induction evs as [| ev evs IH]; simpl; intros w Hw.
  - assumption.
  - apply IH. apply services_hold_step. assumption.
Qed.
End ServiceInvariant.

Lemma uncached_kept : kept_by_the_code uncached.
Proof.
  unfold kept_by_the_code, uncached.
  repeat split; try (destruct s; auto; fail).
  all: intros s this; intros; destruct s; auto.
  all: match goal with
       | H : _ /\ _ |- _ => destruct H as (Hc & Hf & Hg)
       end; try congruence; auto.
Qed.

Lemma configured_as_kept w0 : kept_by_the_code (configured_as w0).
Proof.
  unfold kept_by_the_code, configured_as.
  repeat split; intros; simpl; tauto.
Qed.

(** No operation changes [incremental] or [cacheable]. *)
Lemma configuration_is_constant evs w s :
  incremental (service_of s (run evs w)) = incremental (service_of s w)
  /\ cacheable (service_of s (run evs w)) = cacheable (service_of s w).
Proof.
  apply (services_hold_run (configured_as w) (configured_as_kept w) evs w).
  intros s'. split; reflexivity.
Qed.

(** X9.  A service built with [cacheable = false] never caches: in every
    run both its caches are empty, so each find and each get it receives
    is a call to the store. *)
Theorem X9_uncacheable_service_never_caches inc evs :
  let w := run evs (new_world inc false) in
  cacheable (main w) = false
  /\ cachedQueries_find (main w) = JsMap.empty
  /\ cachedQueries_get (main w) = JsMap.empty
  /\ (forall params k,
        trace (find Main params k w) = trace w ++ [SuperFind Main (find_params (main w) params)])
  /\ (forall id params k,
        trace (get Main id params k w) = trace w ++ [SuperGet Main id params]).
Proof.
  intros w.
  assert (H : uncached Main (service_of Main w)).
  { apply (services_hold_run uncached uncached_kept evs (new_world inc false)).
    intros s. destruct s; simpl; auto. }
  destruct H as (Hc & Hf & Hg). cbn [service_of] in *.
  repeat split; try assumption.
  - intros. apply find_asks_store_when_cleared. exact Hf.
  - intros. apply get_asks_store_when_cleared. exact Hg.
Qed.

(** ** More about [OptionsService.find] *)

Lemma OptionsService_find_params_internal o q x :
  OptionsService_find_params (Some (JObj (assoc "query" (JObj (assoc "internal" x q)) o)))
  = Normal (Some (JObj (assoc "query" (JObj (assoc "internal" ne_true q)) o))).
Proof.
  unfold OptionsService_find_params. rewrite prop_assoc_same.
  rewrite !assoc_assoc. reflexivity.
Qed.

(** X10.  What [OptionsService.find] goes on with does not depend on the
    filter the caller put on [internal]: whatever value the query holds
    there, the params become the same, with [{ $ne: true }] in its place;
    running the override on its own result changes nothing. *)
Theorem X10_internal_filter_of_caller_is_ignored o q x y :
  let asked z := Some (JObj (assoc "query" (JObj (assoc "internal" z q)) o)) in
  OptionsService_find_params (asked x) = Normal (asked ne_true)
  /\ OptionsService_find_params (asked x) = OptionsService_find_params (asked y)
  /\ OptionsService_find_params (asked ne_true) = Normal (asked ne_true).
Proof.
  cbv beta zeta. rewrite !OptionsService_find_params_internal. repeat split.
Qed.

Lemma find_hit s params k w e :
  cacheable (service_of s w) = true ->
  JsMap.get (find_key (service_of s w) params) (cachedQueries_find (service_of s w)) = Some e ->
  find s params k w = fulfil k e w.
Proof.
  intros Hc H. unfold find. fold (find_key (service_of s w) params).
  rewrite Hc, H. reflexivity.
Qed.

(** X11.  Two finds on the options service that differ only in the
    caller's filter on [internal] share one cache entry: when the first
    has been answered by the store, the second receives the same envelope
    and the store is not asked again. *)
Theorem X11_options_finds_share_cache_entry w o q x y h1 h2 v :
  cacheable (opts w) = true ->
  ready w = [] ->
  next_call_fresh w ->
  let asked z := Some (JObj (assoc "query" (JObj (assoc "internal" z q)) o)) in
  JsMap.get (find_key (opts w) (asked ne_true)) (cachedQueries_find (opts w)) = None ->
  let w2 := run [Call Opts (Find (asked x)) h1; Settle (List.length (trace w)) (Resolved v);
                 Tick; Call Opts (Find (asked y)) h2; Tick] w in
  trace w2 = trace w ++ [SuperFind Opts (find_params (opts w) (asked ne_true))]
  /\ replies w2 = replies w ++ [(h1, Returned (mkEnvelope OK (Some v) None));
                                (h2, Returned (mkEnvelope OK (Some v) None))]
  /\ pending w2 = pending w.
Proof.
  intros Hc Hr Hp asked Hmiss w2.
  assert (Hcall : forall z h w', step w' (Call Opts (Find (asked z)) h)
                                 = find Opts (asked ne_true) (KCaller h) w').
  { intros z h w'. cbn [step invoke this_find]. unfold OptionsService_find. subst asked.
    cbv beta. rewrite OptionsService_find_params_internal. reflexivity. }
  set (e := formatData (Resolved v)).
  set (w1 := answer h1 (Returned e)
               (with_service Opts
                  (with_find_cache (JsMap.set (find_key (opts w) (asked ne_true)) e
                                      (cachedQueries_find (opts w))) (opts w))
                  (after_call (SuperFind Opts (find_params (opts w) (asked ne_true))) w))).
  assert (E1 : run [Call Opts (Find (asked x)) h1;
                    Settle (List.length (trace w)) (Resolved v); Tick] w = w1).
  { unfold run. cbn [fold_left]. rewrite Hcall.
    rewrite find_miss by (cbn [service_of]; rewrite Hc; exact Hmiss).
    rewrite step_settle_issued by exact Hp.
    cbn [store_settled]. unfold find_settled.
    cbn [service_of after_call opts]. rewrite Hc.
    cbn [is_OK formatData resultCode andb].
    erewrite step_tick_caller by (cbn; rewrite Hr; reflexivity).
    subst w1 e. destruct w; cbn in *; subst; reflexivity. }
  assert (E : w2 = answer h2 (Returned e) w1).
  { subst w2.
    change (run [Call Opts (Find (asked x)) h1; Settle (List.length (trace w)) (Resolved v);
                 Tick; Call Opts (Find (asked y)) h2; Tick] w)
      with (run [Call Opts (Find (asked y)) h2; Tick]
                (run [Call Opts (Find (asked x)) h1;
                      Settle (List.length (trace w)) (Resolved v); Tick] w)).
    rewrite E1. unfold run. cbn [fold_left]. rewrite Hcall.
    rewrite (find_hit Opts (asked ne_true) (KCaller h2) w1 e).
    - erewrite step_tick_caller by (subst w1; cbn; rewrite Hr; reflexivity).
      subst w1. destruct w; cbn in *; subst; reflexivity.
    - subst w1. cbn. exact Hc.
    - subst w1. cbn [service_of answer with_service opts after_call with_find_cache
                     cachedQueries_find incremental cacheable].
      unfold find_key, find_params. cbn [incremental with_find_cache].
      apply JsMap_get_set_same. }
  rewrite E. subst w1. destruct w; cbn in *. subst. rewrite <- app_assoc.
  repeat split; reflexivity.
Qed.

Lemma X11_options_finds_share_cache_entry_witness :
  let w := new_world false true in
  let asked z := Some (JObj (assoc "query" (JObj (assoc "internal" z [])) [])) in
  let w2 := run [Call Opts (Find (asked (JBool true))) 1;
                 Settle (List.length (trace w)) (Resolved (JArr []));
                 Tick; Call Opts (Find (asked (JBool false))) 2; Tick] w in
  trace w2 = trace w ++ [SuperFind Opts (find_params (opts w) (asked ne_true))]
  /\ replies w2 = replies w ++ [(1, Returned (mkEnvelope OK (Some (JArr [])) None));
                                (2, Returned (mkEnvelope OK (Some (JArr [])) None))]
  /\ pending w2 = pending w.
Proof.
  apply (X11_options_finds_share_cache_entry (new_world false true) [] [] (JBool true)
           (JBool false) 1 2 (JArr [])); reflexivity.
Defined.

(** ** [PostsService.create] *)

Lemma prop_default_to_same f v data :
  prop f (default_to f v data) = if truthy (prop f data) then prop f data else Some v.
Proof.
  unfold default_to. destruct (truthy (prop f data)); simpl.
  - reflexivity.
  - apply prop_assoc_same.
Qed.

Lemma prop_default_to_other f v data g :
  f <> g -> prop g (default_to f v data) = prop g data.
Proof.
  intros H. unfold default_to. destruct (negb (truthy (prop f data))).
  - apply prop_assoc_other. exact H.
  - reflexivity.
Qed.

Lemma default_to_truthy f v data :
  truthy (prop f data) = true -> default_to f v data = data.
Proof. intros H. unfold default_to. rewrite H. reflexivity. Qed.

Lemma prop_PostsService_defaults data f :
  prop f (PostsService_defaults data)
  = if truthy (prop f data) then prop f data
    else match post_default f with
         | Some v => Some v
         | None => prop f data
         end.
Proof.
  unfold PostsService_defaults, post_default.
  destruct (String.eqb_spec f "format") as [-> | Hformat].
  { rewrite !prop_default_to_other by discriminate. apply prop_default_to_same. }
  destruct (String.eqb_spec f "status") as [-> | Hstatus].
  { rewrite !prop_default_to_other by discriminate. rewrite prop_default_to_same.
    rewrite !prop_default_to_other by discriminate. reflexivity. }
  destruct (String.eqb_spec f "tags") as [-> | Htags].
  { rewrite !prop_default_to_other by discriminate. rewrite prop_default_to_same.
    rewrite !prop_default_to_other by discriminate. reflexivity. }
  destruct (String.eqb_spec f "type") as [-> | Htype].
  { rewrite prop_default_to_same.
    rewrite !prop_default_to_other by discriminate. reflexivity. }
  rewrite !prop_default_to_other by congruence.
  destruct (truthy (prop f data)); reflexivity.
Qed.

Lemma PostsService_defaults_truthy data f v :
  post_default f = Some v -> truthy (prop f (PostsService_defaults data)) = true.
Proof.
  intros H. rewrite prop_PostsService_defaults, H.
  destruct (truthy (prop f data)) eqn:E; [exact E |].
  unfold post_default in H.
  repeat match type of H with
         | (if ?b then _ else _) = _ => destruct b
         end; inversion H; reflexivity.
Qed.

(** X12.  [PostsService.create] completes the post before it creates it:
    each of [format], [status], [tags] and [type] keeps the caller's value
    when that value is truthy and is set to ['standard'], ['publish'],
    [[]] and ['post'] otherwise; every other field is as the caller gave
    it.  Afterwards the four fields are truthy, and completing a
    completed post changes nothing. *)
Theorem X12_post_defaults data :
  (forall f,
      prop f (PostsService_defaults data)
      = if truthy (prop f data) then prop f data
        else match post_default f with
             | Some v => Some v
             | None => prop f data
             end)
  /\ truthy (prop "format" (PostsService_defaults data)) = true
  /\ truthy (prop "status" (PostsService_defaults data)) = true
  /\ truthy (prop "tags" (PostsService_defaults data)) = true
  /\ truthy (prop "type" (PostsService_defaults data)) = true
  /\ PostsService_defaults (PostsService_defaults data) = PostsService_defaults data.
Proof.
  split; [apply prop_PostsService_defaults |].
  assert (Hformat := PostsService_defaults_truthy data "format" _ eq_refl).
  assert (Hstatus := PostsService_defaults_truthy data "status" _ eq_refl).
  assert (Htags := PostsService_defaults_truthy data "tags" _ eq_refl).
  assert (Htype := PostsService_defaults_truthy data "type" _ eq_refl).
  repeat split; try assumption.
  set (d := PostsService_defaults data) in *.
  unfold PostsService_defaults at 1.
  rewrite (default_to_truthy "format" _ d Hformat).
  rewrite (default_to_truthy "status" _ d Hstatus).
  rewrite (default_to_truthy "tags" _ d Htags).
  apply (default_to_truthy "type" _ d Htype).
Qed.

(** X13.  On a posts service with no creation in flight, the document
    that [PostsService.create] sends to the store carries [created], the
    current time, and truthy [format], [status], [tags] and [type]: the
    caller's values where they were truthy, the defaults elsewhere. *)
Theorem X13_post_sent_complete w data params k :
  isCreationInProcess (main w) = false ->
  incremental (main w) = false ->
  exists sent,
    trace (PostsService_create data params k w) = trace w ++ [SuperCreate Main sent params]
    /\ prop "created" sent = Some (JDate (clock w))
    /\ (forall f v, post_default f = Some v ->
          truthy (prop f sent) = true
          /\ prop f sent = if truthy (prop f data) then prop f data else Some v).
Proof.
  intros Hf Hi. exists (assoc "created" (JDate (clock w)) (PostsService_defaults data)).
  unfold PostsService_create. rewrite create_idle_main by assumption.
  split; [reflexivity |]. split; [apply prop_assoc_same |].
  intros f v Hd.
  assert (Hne : "created" <> f).
  { intros <-. discriminate Hd. }
  rewrite prop_assoc_other by exact Hne. split.
  - eapply PostsService_defaults_truthy; eauto.
  - rewrite prop_PostsService_defaults, Hd. reflexivity.
Qed.

Lemma X13_post_sent_complete_witness :
  exists sent,
    trace (PostsService_create [("title", JStr "Hello"); ("status", JStr "draft")] None
             (KCaller 1) (new_world false true))
    = trace (new_world false true) ++ [SuperCreate Main sent None]
    /\ prop "created" sent = Some (JDate (clock (new_world false true)))
    /\ (forall f v, post_default f = Some v ->
          truthy (prop f sent) = true
          /\ prop f sent
             = if truthy (prop f [("title", JStr "Hello"); ("status", JStr "draft")])
               then prop f [("title", JStr "Hello"); ("status", JStr "draft")]
               else Some v).
Proof.
  apply (X13_post_sent_complete (new_world false true)
           [("title", JStr "Hello"); ("status", JStr "draft")] None (KCaller 1));
    reflexivity.
Defined.

(** * [crudGenerator] *)

Section CrudGenerator.
Import Crud.

(** ** [updateArray] *)

Lemma In_insert a l x : In x (insert a l) <-> x = a \/ In x l.
Proof.
  induction l as [| b l IH]; simpl.
  - intuition.
  - destruct (a - b <=? 0)%Z; simpl; rewrite ?IH; intuition.
Qed.

Lemma In_sort l x : In x (sort l) <-> In x l.
Proof.
  induction l as [| a l IH]; simpl.
  - reflexivity.
  - rewrite In_insert, IH. intuition.
Qed.

Lemma ascending_insert a l :
  ascending l -> ~ In a l -> ascending (insert a l).
Proof.
  induction l as [| b l IH]; simpl.
  - intros _ _. split; [intros ? [] | exact I].
  - intros [Hb Hl] Hn. destruct (Z.leb_spec (a - b) 0).
    + simpl. split; [| split; assumption].
      intros c [<- | Hc].
      * assert (a <> b) by (intros ->; apply Hn; now left). lia.
      * specialize (Hb c Hc). lia.
    + simpl. split.
      * intros c Hc. apply In_insert in Hc. destruct Hc as [-> | Hc]; [lia | auto].
      * apply IH; [assumption | intros Hin; apply Hn; now right].
Qed.

Lemma ascending_sort l : NoDup l -> ascending (sort l).
Proof.
  induction 1 as [| a l Hn Hd IH]; simpl.
  - exact I.
  - apply ascending_insert; [assumption | now rewrite In_sort].
Qed.

Lemma existsb_eqb_In x seen : existsb (Z.eqb x) seen = true <-> In x seen.
Proof.
  rewrite existsb_exists. split.
  - intros [y [Hy E]]. apply Z.eqb_eq in E. now subst.
  - intros H. exists x. split; [assumption | apply Z.eqb_refl].
Qed.

Lemma In_uniq_from l : forall seen x,
  In x (uniq_from seen l) <-> In x l /\ ~ In x seen.
Proof.
  induction l as [| a l IH]; intros seen x; simpl.
  - intuition.
  - destruct (existsb (Z.eqb a) seen) eqn:E.
    + apply existsb_eqb_In in E. rewrite IH. split.
      * intuition.
      * intros [[<- | H] Hn]; [contradiction | auto].
    + assert (Ha : ~ In a seen).
      { intros H. apply existsb_eqb_In in H. congruence. }
      simpl. rewrite IH. simpl. split.
      * intros [<- | [H Hn]]; [auto | split; [auto | intros Hs; apply Hn; now right]].
      * intros [[<- | H] Hn]; [now left |].
        destruct (Z.eq_dec a x) as [-> | Hne]; [now left | right].
        split; [assumption | intros [? | ?]; contradiction].
Qed.

Lemma NoDup_uniq_from l : forall seen, NoDup (uniq_from seen l).
Proof.
  induction l as [| a l IH]; intros seen; simpl.
  - constructor.
  - destruct (existsb (Z.eqb a) seen); [apply IH |].
    constructor; [| apply IH].
    rewrite In_uniq_from. intros [_ H]. apply H. now left.
Qed.

Lemma ascending_ext l1 : forall l2,
  ascending l1 -> ascending l2 -> (forall x, In x l1 <-> In x l2) -> l1 = l2.
Proof.
  induction l1 as [| a l1 IH]; intros [| b l2] H1 H2 E.
  - reflexivity.
  - exfalso. apply (E b). now left.
  - exfalso. apply (E a). now left.
  - simpl in H1, H2. destruct H1 as [Ha H1], H2 as [Hb H2].
    assert (a = b).
    { destruct (proj1 (E a) (or_introl eq_refl)) as [-> | Hab]; [reflexivity |].
      destruct (proj2 (E b) (or_introl eq_refl)) as [-> | Hba]; [reflexivity |].
      specialize (Ha _ Hba). specialize (Hb _ Hab). lia. }
    subst b. f_equal. apply IH; try assumption.
    intros x. split; intros Hx.
    + destruct (proj1 (E x) (or_intror Hx)) as [<- | ?]; [| assumption].
      specialize (Ha _ Hx). lia.
    + destruct (proj2 (E x) (or_intror Hx)) as [<- | ?]; [| assumption].
      specialize (Hb _ Hx). lia.
Qed.

Lemma In_updateArray items array n :
  In n (updateArray items array)
  <-> In n (pluck_id items) \/ In n (match array with Some a => a | None => [] end).
Proof.
  unfold updateArray, uniq. rewrite In_sort, In_uniq_from, in_app_iff. simpl. intuition.
Qed.

Lemma ascending_updateArray items array : ascending (updateArray items array).
Proof. unfold updateArray, uniq. apply ascending_sort, NoDup_uniq_from. Qed.

(** X14.  [updateArray(items, array)] lists the ids of [items] and the
    numbers of [array], nothing else, in strictly ascending order: each
    one once, whatever was repeated in either argument. *)
Theorem X14_updateArray_is_sorted_union items array :
  ascending (updateArray items array)
  /\ forall n,
       In n (updateArray items array)
       <-> (exists i, In i items /\ id i = n)
           \/ In n (match array with Some a => a | None => [] end).
Proof.
  split; [apply ascending_updateArray |].
  intros n. rewrite In_updateArray. unfold pluck_id. rewrite in_map_iff.
  split; (intros [[i [? ?]] | ?]; [left; exists i; split; assumption | right; assumption]).
Qed.

(** X15.  Adding the same items to the result of [updateArray] again, or
    adding no items to it, gives the result back. *)
Theorem X15_updateArray_absorbs items array :
  updateArray items (Some (updateArray items array)) = updateArray items array
  /\ updateArray [] (Some (updateArray items array)) = updateArray items array.
Proof.
  split; apply ascending_ext; try apply ascending_updateArray;
    intros x; rewrite !In_updateArray; simpl; rewrite ?In_updateArray; intuition.
Qed.


(** ** Objects keyed by id *)

Lemma decimal_inj n m : decimal n = decimal m -> n = m.
Proof.
  unfold decimal. intros H. apply DecimalZ.to_int_inj.
  assert (Hn : forall z, NilZero.int_of_string (NilZero.string_of_int (Z.to_int z))
                         = Some (Z.to_int z)).
  { intros z. apply NilZero.isi; destruct z; simpl; try discriminate;
      intros E; injection E; apply DecimalPos.Unsigned.to_uint_nonnil. }
  assert (E : Some (Z.to_int n) = Some (Z.to_int m)).
  { rewrite <- !Hn, H. reflexivity. }
  now injection E.
Qed.


Lemma JsMap_get_set {V : Type} k k' (v : V) m :
  JsMap.get k (JsMap.set k' v m) = if (k' =? k)%string then Some v else JsMap.get k m.
Proof.
  induction m as [| [k0 v0] m IH]; simpl.
  - reflexivity.
  - destruct (String.eqb_spec k0 k'); simpl.
    + subst. destruct (String.eqb_spec k' k); reflexivity.
    + rewrite IH.
      destruct (String.eqb_spec k0 k); destruct (String.eqb_spec k' k);
        try reflexivity; congruence.
Qed.

Lemma In_keys_set {V : Type} k k' (v : V) m :
  In k (map fst (JsMap.set k' v m)) <-> k = k' \/ In k (map fst m).
Proof.
  induction m as [| [k0 v0] m IH]; simpl.
  - intuition.
  - destruct (String.eqb_spec k0 k'); simpl.
    + subst. intuition.
    + rewrite IH. intuition.
Qed.

Lemma NoDup_keys_set {V : Type} k (v : V) m :
  NoDup (map fst m) -> NoDup (map fst (JsMap.set k v m)).
Proof.
  induction m as [| [k0 v0] m IH]; simpl; intros H.
  - constructor; [intros [] | constructor].
  - inversion H as [| ? ? Hn Hd]; subst.
    destruct (String.eqb_spec k0 k); simpl.
    + subst. constructor; assumption.
    + constructor; [| auto].
      rewrite In_keys_set. intros [-> | ?]; [congruence | contradiction].
Qed.

Lemma NoDup_keys_fold {V A : Type} (f : A -> string) (g : A -> V) l : forall m,
  NoDup (map fst m) ->
  NoDup (map fst (fold_left (fun acc x => JsMap.set (f x) (g x) acc) l m)).
Proof.
  induction l as [| a l IH]; simpl; intros m H.
  - exact H.
  - apply IH, NoDup_keys_set, H.
Qed.

Lemma NoDup_keys_indexBy {V : Type} (f : V -> string) l :
  NoDup (map fst (indexBy f l)).
Proof.
  unfold indexBy. apply (NoDup_keys_fold f (fun x => x)). constructor.
Qed.

Lemma get_None_keys {V : Type} k (m : JsMap.t V) :
  ~ In k (map fst m) -> JsMap.get k m = None.
Proof.
  induction m as [| [k0 v0] m IH]; simpl; intros H.
  - reflexivity.
  - destruct (String.eqb_spec k0 k); [exfalso; auto | apply IH; auto].
Qed.

Lemma get_spread {V : Type} k (b : JsMap.t V) : forall a,
  NoDup (map fst b) ->
  JsMap.get k (spread a b)
  = match JsMap.get k b with
    | Some v => Some v
    | None => JsMap.get k a
    end.
Proof.
  unfold spread. induction b as [| [k0 v0] b IH]; simpl; intros a H.
  - reflexivity.
  - inversion H as [| ? ? Hn Hd]; subst. rewrite IH by assumption.
    rewrite JsMap_get_set. destruct (String.eqb_spec k0 k).
    + subst. rewrite get_None_keys by assumption. reflexivity.
    + reflexivity.
Qed.

Lemma find_app_last {A : Type} (p : A -> bool) l a :
  List.find p (l ++ [a])
  = match List.find p l with
    | Some x => Some x
    | None => if p a then Some a else None
    end.
Proof.
  induction l as [| b l IH]; simpl.
  - reflexivity.
  - destruct (p b); [reflexivity | exact IH].
Qed.

Lemma get_fold_set {V : Type} (f : V -> string) l : forall m k,
  JsMap.get k (fold_left (fun acc x => JsMap.set (f x) x acc) l m)
  = match List.find (fun x => (f x =? k)%string) (rev l) with
    | Some x => Some x
    | None => JsMap.get k m
    end.
Proof.
  induction l as [| a l IH]; simpl; intros m k.
  - reflexivity.
  - rewrite IH, find_app_last, JsMap_get_set.
    destruct (List.find (fun x => (f x =? k)%string) (rev l)); [reflexivity |].
    destruct (f a =? k)%string; reflexivity.
Qed.

Lemma get_indexBy {V : Type} (f : V -> string) l k :
  JsMap.get k (indexBy f l) = List.find (fun x => (f x =? k)%string) (rev l).
Proof.
  unfold indexBy. rewrite get_fold_set.
  destruct (List.find (fun x => (f x =? k)%string) (rev l)); reflexivity.
Qed.

Lemma find_key_of l n :
  List.find (fun x => (key_of x =? decimal n)%string) l = List.find (fun x => (id x =? n)%Z) l.
Proof.
  induction l as [| a l IH]; simpl.
  - reflexivity.
  - rewrite IH. unfold key_of.
    destruct (String.eqb_spec (decimal (id a)) (decimal n)) as [E | E];
      destruct (Z.eqb_spec (id a) n) as [E' | E']; try reflexivity.
    + apply decimal_inj in E. contradiction.
    + subst. contradiction.
Qed.

(** The lookup of an id in [state[type + 'ById']] after [FETCH_SUCCESS]. *)
Lemma get_merged m payload n :
  JsMap.get (decimal n) (spread m (indexBy key_of payload))
  = match List.find (fun i => (id i =? n)%Z) (rev payload) with
    | Some i => Some i
    | None => JsMap.get (decimal n) m
    end.
Proof.
  rewrite get_spread by apply NoDup_keys_indexBy.
  rewrite get_indexBy, find_key_of. reflexivity.
Qed.

Lemma get_merged_key m payload k i :
  (forall k i, JsMap.get k m = Some i -> k = key_of i) ->
  JsMap.get k (spread m (indexBy key_of payload)) = Some i -> k = key_of i.
Proof.
  intros Hm. rewrite get_spread by apply NoDup_keys_indexBy.
  rewrite get_indexBy.
  destruct (List.find (fun x => (key_of x =? k)%string) (rev payload)) as [x |] eqn:E.
  - intros H. injection H as <-. apply find_some in E. destruct E as [_ E].
    apply String.eqb_eq in E. now symmetry.
  - apply Hm.
Qed.

Lemma find_id_In payload n :
  (exists i, List.find (fun i => (id i =? n)%Z) (rev payload) = Some i)
  <-> In n (pluck_id payload).
Proof.
  unfold pluck_id. rewrite in_map_iff. split.
  - intros [i E]. apply find_some in E. destruct E as [Hi E].
    apply Z.eqb_eq in E. exists i. split; [assumption | now apply in_rev].
  - intros [i [E Hi]].
    destruct (List.find (fun i => (id i =? n)%Z) (rev payload)) as [x |] eqn:F.
    + now exists x.
    + exfalso. apply in_rev in Hi. apply (find_none _ _ F) in Hi.
      apply Z.eqb_neq in Hi. contradiction.
Qed.


(** ** The reducer *)

Lemma append_eqb p a b : ((p ++ a) =? (p ++ b))%string = (a =? b)%string.
Proof.
  induction p as [| c p IH]; simpl.
  - reflexivity.
  - rewrite Ascii.eqb_refl. exact IH.
Qed.

Lemma get_actionHandlers type k :
  JsMap.get k (spread JsMap.empty (generateFetchHandlers type))
  = JsMap.get k (generateFetchHandlers type).
Proof.
  rewrite get_spread.
  - destruct (JsMap.get k (generateFetchHandlers type)); reflexivity.
  - unfold generateFetchHandlers. repeat apply NoDup_keys_set. constructor.
Qed.

Lemma reducer_FETCH_START type options st action :
  enabled (fetch options) = true ->
  a_type action = (toUpper type ++ "_FETCH_START")%string ->
  generateReducer type options st action
  = let s := match st with Some s => s | None => initialState end in
    Next (mkState true (ids s) (byId s) (error s)).
Proof.
  intros Hf Ht. unfold generateReducer. rewrite Hf, get_actionHandlers, Ht.
  unfold generateFetchHandlers. rewrite !JsMap_get_set, !append_eqb. reflexivity.
Qed.

Lemma reducer_FETCH_SUCCESS type options st action :
  enabled (fetch options) = true ->
  a_type action = (toUpper type ++ "_FETCH_SUCCESS")%string ->
  generateReducer type options st action
  = let s := match st with Some s => s | None => initialState end in
    match a_payload action with
    | None => Throws
    | Some payload =>
        Next (mkState false (Some (updateArray payload (ids s)))
                (Some (spread (own (byId s)) (indexBy key_of payload))) (error s))
    end.
Proof.
  intros Hf Ht. unfold generateReducer. rewrite Hf, get_actionHandlers, Ht.
  unfold generateFetchHandlers. rewrite !JsMap_get_set, !append_eqb. reflexivity.
Qed.

Lemma reducer_FETCH_ERROR type options st action :
  enabled (fetch options) = true ->
  a_type action = (toUpper type ++ "_FETCH_ERROR")%string ->
  generateReducer type options st action
  = let s := match st with Some s => s | None => initialState end in
    Next (mkState false (ids s) (byId s) (a_error action)).
Proof.
  intros Hf Ht. unfold generateReducer. rewrite Hf, get_actionHandlers, Ht.
  unfold generateFetchHandlers. rewrite !JsMap_get_set, !append_eqb. reflexivity.
Qed.

Lemma reducer_other type options st action :
  ~ In (a_type action) (group (fetch options) type fetchTypes) ->
  generateReducer type options st action
  = let s := match st with Some s => s | None => initialState end in
    if inherited (a_type action) then Inherited (a_type action) else Next s.
Proof.
  intros Hn. unfold generateReducer, group in *.
  destruct (enabled (fetch options)).
  - rewrite get_actionHandlers. unfold generateFetchHandlers.
    rewrite !JsMap_get_set.
    simpl in Hn.
    destruct (String.eqb_spec (toUpper type ++ "_FETCH_ERROR") (a_type action)) as [E | _];
      [exfalso; apply Hn; rewrite <- E; auto |].
    destruct (String.eqb_spec (toUpper type ++ "_FETCH_SUCCESS") (a_type action)) as [E | _];
      [exfalso; apply Hn; rewrite <- E; auto |].
    destruct (String.eqb_spec (toUpper type ++ "_FETCH_START") (a_type action)) as [E | _];
      [exfalso; apply Hn; rewrite <- E; auto |].
    reflexivity.
  - reflexivity.
Qed.

Lemma reducer_cases type options action :
  (enabled (fetch options) = true
   /\ (a_type action = (toUpper type ++ "_FETCH_START")%string
       \/ a_type action = (toUpper type ++ "_FETCH_SUCCESS")%string
       \/ a_type action = (toUpper type ++ "_FETCH_ERROR")%string))
  \/ ~ In (a_type action) (group (fetch options) type fetchTypes).
Proof.
  unfold group. destruct (enabled (fetch options)); [| right; intros []].
  destruct (in_dec string_dec (a_type action)
              (map (fun i => (toUpper type ++ "_" ++ i)%string) fetchTypes)) as [H | H].
  - left. split; [reflexivity |]. simpl in H. intuition.
  - right. exact H.
Qed.


Lemma enabled_default x : enabled (spread_field (Some false) x) = enabled x.
Proof. destruct x as [[|] |]; reflexivity. Qed.

Lemma group_default x type names :
  group (spread_field (Some false) x) type names = group x type names.
Proof. unfold group. rewrite enabled_default. reflexivity. Qed.

Lemma in_step_initialState : in_step initialState.
Proof.
  repeat split; simpl; try contradiction; try discriminate.
Qed.

Lemma in_step_fields s s' :
  ids s' = ids s -> byId s' = byId s -> in_step s -> in_step s'.
Proof.
  unfold in_step, own_ids. intros -> ->. exact (fun H => H).
Qed.

Lemma has_merged m payload n :
  JsMap.has (decimal n) (spread m (indexBy key_of payload)) = true
  <-> In n (pluck_id payload) \/ JsMap.has (decimal n) m = true.
Proof.
  unfold JsMap.has. rewrite get_merged, <- find_id_In.
  destruct (List.find (fun i => (id i =? n)%Z) (rev payload)) as [i |].
  - split; [intros _; left; now exists i | reflexivity].
  - destruct (JsMap.get (decimal n) m).
    + split; [now right | reflexivity].
    + split; [discriminate | intros [[i H] | H]; discriminate].
Qed.

Lemma in_step_FETCH_SUCCESS s payload e :
  in_step s ->
  in_step (mkState false (Some (updateArray payload (ids s)))
             (Some (spread (own (byId s)) (indexBy key_of payload))) e).
Proof.
  intros [Ha [Hk Hi]]. unfold in_step, own_ids in *. simpl. repeat split.
  - apply ascending_updateArray.
  - rewrite In_updateArray, has_merged, Hk. exact (fun H => H).
  - rewrite In_updateArray, has_merged, Hk. exact (fun H => H).
  - intros k i. apply get_merged_key. exact Hi.
Qed.

Lemma in_step_reducer type options st action s' :
  (forall s, st = Some s -> in_step s) ->
  generateReducer type options st action = Next s' ->
  in_step s'.
Proof.
  intros Hst.
  assert (Hs : in_step (match st with Some s => s | None => initialState end)).
  { destruct st; [now apply Hst | apply in_step_initialState]. }
  clear Hst.
  destruct (reducer_cases type options action) as [[Hf [Ht | [Ht | Ht]]] | Hn].
  - rewrite reducer_FETCH_START by assumption. cbv zeta. intros E. injection E as <-.
    eapply in_step_fields; [| | exact Hs]; reflexivity.
  - rewrite reducer_FETCH_SUCCESS by assumption. cbv zeta.
    destruct (a_payload action); [| discriminate].
    intros E. injection E as <-. apply in_step_FETCH_SUCCESS, Hs.
  - rewrite reducer_FETCH_ERROR by assumption. cbv zeta. intros E. injection E as <-.
    eapply in_step_fields; [| | exact Hs]; reflexivity.
  - rewrite reducer_other by assumption. cbv zeta.
    destruct (inherited (a_type action)); [discriminate |].
    intros E. injection E as <-. exact Hs.
Qed.

Lemma in_step_dispatch type options rest : forall o s,
  (forall s0, o = Next s0 -> in_step s0) ->
  fold_left (dispatch (generateReducer type options)) rest o = Next s ->
  in_step s.
Proof.
  induction rest as [| a rest IH]; simpl; intros o s Ho.
  - apply Ho.
  - apply IH. intros s0. destruct o as [s1 | |]; simpl; try discriminate.
    apply in_step_reducer. intros s2 E. injection E as <-. now apply Ho.
Qed.

(** X16.  After a successful fetch an id resolves to the last item of
    the payload that has it; an id that the payload does not have
    resolves as before. *)
Theorem X16_fetch_success_keeps_last type opts s payload data :
  fetch opts = Some true ->
  exists success s',
    fetchSuccess (actions (crudGenerator type (Some opts))) = Some success
    /\ reducer (crudGenerator type (Some opts)) (Some s) (success payload data) = Next s'
    /\ forall n,
         JsMap.get (decimal n) (own (byId s'))
         = match List.find (fun i => (id i =? n)%Z) (rev payload) with
           | Some i => Some i
           | None => JsMap.get (decimal n) (own (byId s))
           end.
Proof.
  intros Hf. unfold crudGenerator. cbn [types actions reducer].
  assert (E : enabled (fetch (spread_options defaultOptions opts)) = true).
  { cbn [fetch spread_options defaultOptions]. rewrite Hf. reflexivity. }
  rewrite E. cbn [generateFetchActions fetchSuccess].
  eexists. eexists. split; [reflexivity |]. split.
  - rewrite reducer_FETCH_SUCCESS by (try exact E; reflexivity). cbn. reflexivity.
  - intros n. cbn [byId own]. apply get_merged.
Qed.

Lemma X16_fetch_success_keeps_last_witness :
  exists success s',
    fetchSuccess
      (actions (crudGenerator "posts" (Some (mkOptions (Some true) None None None))))
    = Some success
    /\ reducer (crudGenerator "posts" (Some (mkOptions (Some true) None None None)))
         (Some initialState)
         (success [mkItem 2 [("title", JStr "a")]; mkItem 1 []; mkItem 2 []] None)
       = Next s'
    /\ forall n,
         JsMap.get (decimal n) (own (byId s'))
         = match List.find (fun i => (id i =? n)%Z)
                   (rev [mkItem 2 [("title", JStr "a")]; mkItem 1 []; mkItem 2 []]) with
           | Some i => Some i
           | None => JsMap.get (decimal n) (own (byId initialState))
           end.
Proof.
  apply (X16_fetch_success_keeps_last "posts" (mkOptions (Some true) None None None)
           initialState [mkItem 2 [("title", JStr "a")]; mkItem 1 []; mkItem 2 []] None).
  reflexivity.
Defined.

(** X17.  Whatever actions the reducer is given, starting without a
    state, the state it arrives at lists its ids in strictly ascending
    order, has an item under the key of every listed id and no other
    key, and keeps every item under the key of its own id. *)
Theorem X17_ids_and_index_in_step type opts first rest s :
  dispatch_all (reducer (crudGenerator type opts)) first rest = Next s ->
  in_step s.
Proof.
  unfold dispatch_all, crudGenerator. cbn [reducer].
  apply in_step_dispatch. intros s0. apply in_step_reducer. discriminate.
Qed.

Lemma X17_ids_and_index_in_step_witness :
  in_step
    (mkState false (Some [1; 2; 5]%Z)
       (Some [("5", mkItem 5 []); ("1", mkItem 1 []); ("2", mkItem 2 [("title", JStr "b")])])
       (Some "offline")).
Proof.
  apply (X17_ids_and_index_in_step "posts" (Some (mkOptions (Some true) None None None))
           (mkAction "@@redux/INIT" None None None)
           [mkAction "POSTS_FETCH_START" None None None;
            mkAction "POSTS_FETCH_SUCCESS" None
              (Some [mkItem 5 []; mkItem 1 []; mkItem 5 []]) None;
            mkAction "POSTS_FETCH_ERROR" (Some "offline") None None;
            mkAction "POSTS_FETCH_SUCCESS" None
              (Some [mkItem 2 [("title", JStr "a")]; mkItem 2 [("title", JStr "b")]]) None]).
  vm_compute. reflexivity.
Defined.




(** ** The types and the action creators *)

Lemma existsb_eqb_In_string k l : existsb (String.eqb k) l = true <-> In k l.
Proof.
  rewrite existsb_exists. split.
  - intros [y [Hy E]]. apply String.eqb_eq in E. now subst.
  - intros H. exists k. split; [assumption | apply String.eqb_refl].
Qed.

Lemma get_indexBy_identity l k v :
  JsMap.get k (indexBy (fun x : string => x) l) = Some v <-> v = k /\ In k l.
Proof.
  rewrite get_indexBy. split.
  - intros H. apply find_some in H. destruct H as [Hin E].
    apply String.eqb_eq in E. subst. split; [reflexivity | now apply in_rev].
  - intros [-> Hin].
    destruct (List.find (fun x => (x =? k)%string) (rev l)) as [x |] eqn:F.
    + apply find_some in F. destruct F as [_ E]. apply String.eqb_eq in E. now subst.
    + exfalso. apply in_rev in Hin. apply (find_none _ _ F) in Hin.
      rewrite String.eqb_refl in Hin. discriminate.
Qed.

Lemma get_group on type names k v :
  JsMap.get k (if enabled on then generator type names else JsMap.empty) = Some v
  <-> v = k /\ In k (group on type names).
Proof.
  unfold group, generator. destruct (enabled on).
  - apply get_indexBy_identity.
  - simpl. split; [discriminate | intros [_ []]].
Qed.

Lemma NoDup_keys_group on type names :
  NoDup (map fst (if enabled on then generator type names else JsMap.empty)).
Proof.
  destruct (enabled on); [apply NoDup_keys_indexBy | constructor].
Qed.

Lemma get_spread_group m on type names k v :
  JsMap.get k (spread m (if enabled on then generator type names else JsMap.empty))
  = Some v
  <-> (v = k /\ In k (group on type names))
      \/ (~ In k (group on type names) /\ JsMap.get k m = Some v).
Proof.
  rewrite get_spread by apply NoDup_keys_group.
  destruct (JsMap.get k (if enabled on then generator type names else JsMap.empty))
    as [x |] eqn:E.
  - apply get_group in E. destruct E as [-> Hin]. split.
    + intros H. injection H as <-. now left.
    + intros [[-> _] | [Hn _]]; [reflexivity | contradiction].
  - split.
    + intros H. right. split; [| exact H].
      intros Hin.
      assert (F : JsMap.get k (if enabled on then generator type names else JsMap.empty)
                  = Some k) by (apply get_group; auto).
      rewrite E in F. discriminate.
    + intros [[-> Hin] | [_ H]]; [| exact H].
      assert (F : JsMap.get k (if enabled on then generator type names else JsMap.empty)
                  = Some k) by (apply get_group; auto).
      rewrite E in F. discriminate.
Qed.

Lemma get_types type o k v :
  JsMap.get k (types (crudGenerator type (Some o))) = Some v
  <-> v = k
      /\ In k (group (fetch o) type fetchTypes ++ group (update o) type updateTypes
               ++ group (create o) type createTypes
               ++ group (delete o) type deleteTypes).
Proof.
  unfold crudGenerator. cbn [types]. unfold typesGenerator.
  cbn [fetch update create delete spread_options defaultOptions].
  rewrite !get_spread_group, !group_default, !in_app_iff. simpl JsMap.get.
  destruct (in_dec string_dec k (group (fetch o) type fetchTypes));
    destruct (in_dec string_dec k (group (update o) type updateTypes));
    destruct (in_dec string_dec k (group (create o) type createTypes));
    destruct (in_dec string_dec k (group (delete o) type deleteTypes));
    intuition discriminate.
Qed.

(** X19.  The generated [types] hold the three names of every group
    that the options switch on, each under itself, and nothing else;
    without options they are empty. *)
Theorem X19_types_are_the_enabled_groups type :
  (forall o k v,
      JsMap.get k (types (crudGenerator type (Some o))) = Some v
      <-> v = k
          /\ In k (group (fetch o) type fetchTypes ++ group (update o) type updateTypes
                   ++ group (create o) type createTypes
                   ++ group (delete o) type deleteTypes))
  /\ types (crudGenerator type None) = JsMap.empty.
Proof.
  split; [| reflexivity].
  intros o k v. apply get_types.
Qed.

Lemma In_fetch_group o type suffix :
  fetch o = Some true ->
  In suffix fetchTypes ->
  In (toUpper type ++ "_" ++ suffix)%string
    (group (fetch o) type fetchTypes ++ group (update o) type updateTypes
     ++ group (create o) type createTypes ++ group (delete o) type deleteTypes).
Proof.
  intros Hf Hin. apply in_or_app. left. unfold group. rewrite Hf. simpl enabled. cbv iota.
  apply (in_map (fun i => (toUpper type ++ "_" ++ i)%string)), Hin.
Qed.




Lemma has_spread_left {V : Type} k (a b : JsMap.t V) :
  NoDup (map fst b) -> JsMap.has k a = true -> JsMap.has k (spread a b) = true.
Proof.
  intros Hb. unfold JsMap.has. rewrite get_spread by assumption.
  destruct (JsMap.get k b); [reflexivity | exact (fun H => H)].
Qed.




End CrudGenerator.

(** * One creation at a time *)

Lemma count_app {A : Type} (p : A -> bool) l1 l2 :
  count p (l1 ++ l2) = count p l1 + count p l2.
Proof.
  unfold count. induction l1 as [| a l1 IH]; simpl.
  - reflexivity.
  - destruct (p a); simpl; rewrite IH; reflexivity.
Qed.

Lemma count_one {A : Type} (p : A -> bool) a : count p [a] = token (p a).
Proof. unfold count. simpl. destruct (p a); reflexivity. Qed.

Lemma count_cons {A : Type} (p : A -> bool) a l :
  count p (a :: l) = token (p a) + count p l.
Proof. unfold count. simpl. destruct (p a); reflexivity. Qed.

Lemma count_le {A : Type} (p q : A -> bool) l :
  (forall a, p a = true -> q a = true) -> count p l <= count q l.
Proof.
  intros H. induction l as [| a l IH]; [apply Nat.le_refl |].
  rewrite !count_cons. specialize (H a).
  destruct (p a); destruct (q a); simpl; try lia.
Qed.

Lemma take_pending_count (f : awaiting -> bool) c p a rest :
  take_pending c p = Some (a, rest) ->
  count (fun ca => f (snd ca)) p = token (f a) + count (fun ca => f (snd ca)) rest.
Proof.
  revert a rest. induction p as [| [c' a'] p IH]; simpl; intros a rest H.
  - discriminate.
  - destruct (Nat.eqb c' c).
    + injection H as <- <-. rewrite count_cons. reflexivity.
    + destruct (take_pending c p) as [[a0 rest0] |]; [| discriminate].
      injection H as <- <-. rewrite !count_cons, (IH a0 rest0 eq_refl). simpl. lia.
Qed.

Lemma take_pending_Forall (P : nat * awaiting -> Prop) c p a rest :
  take_pending c p = Some (a, rest) ->
  Forall P p -> P (c, a) /\ Forall P rest.
Proof.
  revert a rest. induction p as [| [c' a'] p IH]; simpl; intros a rest H HP.
  - discriminate.
  - inversion HP as [| ? ? Hx Hp]; subst.
    destruct (Nat.eqb_spec c' c).
    + injection H as <- <-. subst. split; assumption.
    + destruct (take_pending c p) as [[a0 rest0] |]; [| discriminate].
      injection H as <- <-. destruct (IH a0 rest0 eq_refl Hp) as [Ha Hr].
      split; [assumption | constructor; assumption].
Qed.

Lemma plain_shallow k : plain k -> shallow k.
Proof. destruct k; simpl; auto. intros []. Qed.

Lemma plain_not_allocating s k : plain k -> allocating s k = false.
Proof. destruct k; simpl; auto. intros []. Qed.

Lemma serialized_with_le (x y : sid -> nat) w :
  (forall s, y s <= x s) -> serialized_with x w -> serialized_with y w.
Proof.
  intros Hxy [Ht Hb]. split; [exact Ht |].
  intros s. specialize (Hb s). specialize (Hxy s). lia.
Qed.

Lemma serialized_with_fulfil x k e w :
  shallow k ->
  serialized_with (fun s => token (allocating s k) + x s) w ->
  serialized_with x (fulfil k e w).
Proof.
  intros Hk [[Hp [Hr Hq]] Hb]. split; [split; [| split] |].
  - exact Hp.
  - simpl. apply Forall_app. split; [exact Hr | constructor; [exact Hk | constructor]].
  - exact Hq.
  - intros s. specialize (Hb s). unfold in_flight in *. destruct s; simpl in *;
      rewrite count_app, count_one; simpl; lia.
Qed.

Lemma serialized_with_issue x c a w :
  awaiting_ok a ->
  serialized_with (fun s => token (creating s a) + x s) w ->
  serialized_with x (issue c a w).
Proof.
  intros Ha [[Hp [Hr Hq]] Hb]. split; [split; [| split] |].
  - simpl. apply Forall_app. split; [exact Hp | constructor; [exact Ha | constructor]].
  - exact Hr.
  - exact Hq.
  - intros s. specialize (Hb s). unfold in_flight in *. destruct s; simpl in *;
      rewrite count_app, count_one; simpl; lia.
Qed.

Lemma serialized_with_answer x h r w :
  serialized_with x w -> serialized_with x (answer h r w).
Proof. exact (fun H => H). Qed.

Lemma serialized_with_clock x t w :
  serialized_with x w -> serialized_with x (with_clock t w).
Proof. exact (fun H => H). Qed.

(** A service may change as long as its flag and its queue stay. *)
Lemma serialized_with_service x s this w :
  isCreationInProcess this = isCreationInProcess (service_of s w) ->
  creationQueue this = creationQueue (service_of s w) ->
  serialized_with x w -> serialized_with x (with_service s this w).
Proof.
  intros Hf Hq [[Hp [Hr Hqs]] Hb]. split; [split; [| split] |].
  - destruct s; exact Hp.
  - destruct s; exact Hr.
  - intros s'. specialize (Hqs s'). destruct s, s'; simpl in *; try rewrite Hq; exact Hqs.
  - intros s'. specialize (Hb s'). unfold in_flight in *.
    destruct s, s'; simpl in *; try rewrite Hf; exact Hb.
Qed.

Lemma serialized_with_queue x s q w :
  Forall (fun kq => plain (q_resolve (snd kq))) q ->
  serialized_with x w ->
  serialized_with x (with_service s (with_creationQueue q (service_of s w)) w).
Proof.
  intros Hq [[Hp [Hr Hqs]] Hb]. split; [split; [| split] |].
  - destruct s; exact Hp.
  - destruct s; exact Hr.
  - intros s'. specialize (Hqs s'). destruct s, s'; simpl in *; assumption.
  - intros s'. specialize (Hb s'). unfold in_flight in *.
    destruct s, s'; simpl in *; exact Hb.
Qed.

Lemma serialized_with_flag_true x s w :
  isCreationInProcess (service_of s w) = false ->
  serialized_with x w ->
  serialized_with (fun s' => token (sid_eqb s' s) + x s')
    (with_service s (with_isCreationInProcess true (service_of s w)) w).
Proof.
  intros Hf [[Hp [Hr Hqs]] Hb]. split; [split; [| split] |].
  - destruct s; exact Hp.
  - destruct s; exact Hr.
  - intros s'. specialize (Hqs s'). destruct s, s'; simpl in *; assumption.
  - intros s'. specialize (Hb s'). unfold in_flight in *.
    destruct s, s'; simpl in *; try rewrite Hf in Hb; simpl in *; lia.
Qed.

Lemma serialized_with_flag_false x s w :
  serialized_with (fun s' => token (sid_eqb s' s) + x s') w ->
  serialized_with x
    (with_service s (with_isCreationInProcess false (service_of s w)) w).
Proof.
  intros [[Hp [Hr Hqs]] Hb]. split; [split; [| split] |].
  - destruct s; exact Hp.
  - destruct s; exact Hr.
  - intros s'. specialize (Hqs s'). destruct s, s'; simpl in *; assumption.
  - intros s'. specialize (Hb s'). unfold in_flight in *.
    destruct s, s'; simpl in *;
      try destruct (isCreationInProcess (main w));
      try destruct (isCreationInProcess (opts w)); simpl in *; lia.
Qed.

Lemma serialized_with_take_pending x c a rest w :
  take_pending c (pending w) = Some (a, rest) ->
  serialized_with x w ->
  awaiting_ok a
  /\ serialized_with (fun s => token (creating s a) + x s) (with_pending rest w).
Proof.
  intros Ht [[Hp [Hr Hqs]] Hb].
  destruct (take_pending_Forall _ _ _ _ _ Ht Hp) as [Ha Hrest].
  split; [exact Ha |]. split; [split; [| split] |].
  - exact Hrest.
  - exact Hr.
  - exact Hqs.
  - intros s. specialize (Hb s). unfold in_flight in *.
    rewrite (take_pending_count (creating s) _ _ _ _ Ht) in Hb.
    destruct s; simpl in *; lia.
Qed.

Lemma serialized_with_take_ready x k e rest w :
  ready w = (k, e) :: rest ->
  serialized_with x w ->
  shallow k
  /\ serialized_with (fun s => token (allocating s k) + x s) (with_ready rest w).
Proof.
  intros Ht [[Hp [Hr Hqs]] Hb]. rewrite Ht in Hr.
  inversion Hr as [| ? ? Hk Hrest]; subst.
  split; [exact Hk |]. split; [split; [| split] |].
  - exact Hp.
  - exact Hrest.
  - exact Hqs.
  - intros s. specialize (Hb s). unfold in_flight in *.
    rewrite Ht, count_cons in Hb.
    destruct s; simpl in *; lia.
Qed.

Lemma Forall_JsMap_set {V : Type} (P : string * V -> Prop) k v m :
  P (k, v) -> Forall P m -> Forall P (JsMap.set k v m).
Proof.
  intros Hv. induction 1 as [| [k' v'] m Hx Hm IH]; simpl.
  - constructor; [exact Hv | constructor].
  - destruct (k' =? k)%string; constructor; assumption.
Qed.

Lemma Forall_JsMap_delete {V : Type} (P : string * V -> Prop) k m :
  Forall P m -> Forall P (JsMap.delete k m).
Proof.
  induction 1 as [| [k' v'] m Hx Hm IH]; simpl.
  - constructor.
  - destruct (k' =? k)%string; [assumption | constructor; assumption].
Qed.

Lemma serialized_with_find x s params k w :
  shallow k ->
  serialized_with (fun s' => token (allocating s' k) + x s') w ->
  serialized_with x (find s params k w).
Proof.
  intros Hk H. unfold find.
  destruct (if cacheable (service_of s w) then _ else _).
  - apply serialized_with_fulfil; assumption.
  - apply serialized_with_issue; [exact Hk | exact H].
Qed.

Lemma serialized_with_get x s id params k w :
  shallow k ->
  serialized_with (fun s' => token (allocating s' k) + x s') w ->
  serialized_with x (get s id params k w).
Proof.
  intros Hk H. unfold get.
  destruct (if cacheable (service_of s w) then _ else _).
  - apply serialized_with_fulfil; assumption.
  - apply serialized_with_issue; [exact Hk | exact H].
Qed.

Lemma serialized_with_plain x k w :
  plain k ->
  serialized_with x w ->
  serialized_with (fun s' => token (allocating s' k) + x s') w.
Proof.
  intros Hk. apply serialized_with_le. intros s.
  rewrite plain_not_allocating by exact Hk. apply Nat.le_refl.
Qed.

Lemma serialized_with_update x s id data params k w :
  plain k -> serialized_with x w -> serialized_with x (update s id data params k w).
Proof.
  intros Hk H. unfold update. apply serialized_with_issue.
  - apply plain_shallow, Hk.
  - apply serialized_with_plain; assumption.
Qed.

Lemma serialized_with_patch x s id data params k w :
  plain k -> serialized_with x w -> serialized_with x (patch s id data params k w).
Proof.
  intros Hk H. unfold patch. apply serialized_with_issue.
  - apply plain_shallow, Hk.
  - apply serialized_with_plain; assumption.
Qed.

Lemma serialized_with_remove x s id params k w :
  plain k -> serialized_with x w -> serialized_with x (remove s id params k w).
Proof.
  intros Hk H. unfold remove. apply serialized_with_issue.
  - apply plain_shallow, Hk.
  - apply serialized_with_plain; assumption.
Qed.

Lemma serialized_with_createNormal x s data params k w :
  plain k ->
  serialized_with (fun s' => token (sid_eqb s' s) + x s') w ->
  serialized_with x (createNormal s data params k w).
Proof.
  intros Hk H. unfold createNormal. apply serialized_with_issue; [exact Hk | exact H].
Qed.

Lemma serialized_with_createIncremental x s data params k w :
  plain k ->
  serialized_with (fun s' => token (sid_eqb s' s) + x s') w ->
  serialized_with x (createIncremental s data params k w).
Proof.
  intros Hk H. unfold createIncremental. apply serialized_with_get; [exact Hk | exact H].
Qed.

Lemma serialized_with_create x s data params k w :
  plain k -> serialized_with x w -> serialized_with x (create s data params k w).
Proof.
  intros Hk H. unfold create.
  destruct (isCreationInProcess (service_of s w)) eqn:Hf.
  - apply serialized_with_queue; [| exact H].
    apply Forall_JsMap_set; [exact Hk |]. apply H.
  - apply (serialized_with_flag_true x s w Hf) in H.
    destruct (incremental (service_of s w)).
    + apply serialized_with_createIncremental; assumption.
    + apply serialized_with_createNormal; assumption.
Qed.

Lemma serialized_with_this_create x s data params k w w' :
  plain k ->
  serialized_with x w ->
  this_create s data params k w = Normal w' ->
  serialized_with x w'.
Proof.
  intros Hk H. destruct s; simpl.
  - intros E. injection E as <-. apply serialized_with_create; assumption.
  - unfold OptionsService_create. destruct (negb _); [discriminate |].
    intros E. injection E as <-. apply serialized_with_create; assumption.
Qed.

Lemma serialized_with_this_find x s params k w w' :
  plain k ->
  serialized_with x w ->
  this_find s params k w = Normal w' ->
  serialized_with x w'.
Proof.
  intros Hk H. destruct s; simpl.
  - intros E. injection E as <-.
    apply serialized_with_find; [apply plain_shallow, Hk |].
    apply serialized_with_plain; assumption.
  - unfold OptionsService_find. destruct (OptionsService_find_params params); [| discriminate].
    intros E. injection E as <-.
    apply serialized_with_find; [apply plain_shallow, Hk |].
    apply serialized_with_plain; assumption.
Qed.

Lemma serialized_with_invoke x s r k w w' :
  plain k ->
  serialized_with x w ->
  invoke s r k w = Normal w' ->
  serialized_with x w'.
Proof.
  intros Hk H. destruct r; simpl.
  - apply serialized_with_this_find; assumption.
  - intros E. injection E as <-.
    apply serialized_with_get; [apply plain_shallow, Hk |].
    apply serialized_with_plain; assumption.
  - apply serialized_with_this_create; assumption.
  - intros E. injection E as <-. apply serialized_with_update; assumption.
  - intros E. injection E as <-. apply serialized_with_patch; assumption.
  - intros E. injection E as <-. apply serialized_with_remove; assumption.
Qed.

Lemma serialized_with_find_settled x s key k o w :
  shallow k ->
  serialized_with (fun s' => token (allocating s' k) + x s') w ->
  serialized_with x (find_settled s key k o w).
Proof.
  intros Hk H. unfold find_settled. apply serialized_with_fulfil; [exact Hk |].
  destruct (cacheable (service_of s w) && is_OK (formatData o))%bool; [| exact H].
  apply serialized_with_service; [reflexivity | reflexivity | exact H].
Qed.

Lemma serialized_with_get_settled x s key k o w :
  shallow k ->
  serialized_with (fun s' => token (allocating s' k) + x s') w ->
  serialized_with x (get_settled s key k o w).
Proof.
  intros Hk H. unfold get_settled. apply serialized_with_fulfil; [exact Hk |].
  destruct (cacheable (service_of s w) && is_OK (formatData o))%bool; [| exact H].
  apply serialized_with_service; [reflexivity | reflexivity | exact H].
Qed.

Lemma serialized_with_clearCache x s w :
  serialized_with x w ->
  serialized_with x (with_service s (clearCache (service_of s w)) w).
Proof. apply serialized_with_service; reflexivity. Qed.

Lemma serialized_with_mutation_settled x s k o w :
  shallow k ->
  serialized_with (fun s' => token (allocating s' k) + x s') w ->
  serialized_with x (mutation_settled s k o w).
Proof.
  intros Hk H. unfold mutation_settled. apply serialized_with_fulfil; [exact Hk |].
  apply serialized_with_clearCache, H.
Qed.

Lemma serialized_with_release x s w :
  serialized_with (fun s' => token (sid_eqb s' s) + x s') w -> serialized_with x w.
Proof. apply serialized_with_le. intros s'. lia. Qed.

Lemma serialized_with_createNormal_settled x s k o w :
  plain k ->
  serialized_with (fun s' => token (sid_eqb s' s) + x s') w ->
  serialized_with x (createNormal_settled s k o w).
Proof.
  intros Hk H. unfold createNormal_settled. destruct o as [result | e].
  - apply (serialized_with_clearCache _ s) in H.
    apply serialized_with_flag_false in H.
    set (w1 := with_service s (with_isCreationInProcess false _) _) in *.
    clearbody w1.
    destruct (JsMap.first (creationQueue (service_of s w1))) as [[key value] |] eqn:Hq.
    + assert (Hv : plain (q_resolve value)).
      { destruct H as [[_ [_ Hqs]] _]. specialize (Hqs s).
        destruct (creationQueue (service_of s w1)) as [| e0 q]; [discriminate |].
        simpl in Hq. injection Hq as ->. inversion Hqs; assumption. }
      assert (H2 : serialized_with x
                     (with_service s
                        (with_creationQueue
                           (JsMap.delete key (creationQueue (service_of s w1)))
                           (service_of s w1)) w1)).
      { apply serialized_with_queue; [| exact H].
        apply Forall_JsMap_delete. apply H. }
      destruct (this_create s (q_data value) (q_params value)
                  (KDrain (q_resolve value) result k) _) as [w2 | m] eqn:E.
      * eapply serialized_with_this_create; [| exact H2 | exact E].
        simpl. split; assumption.
      * apply serialized_with_fulfil; [apply plain_shallow, Hk |].
        apply serialized_with_plain; assumption.
    + apply serialized_with_fulfil; [apply plain_shallow, Hk |].
      apply serialized_with_plain; assumption.
  - apply serialized_with_fulfil; [apply plain_shallow, Hk |].
    apply serialized_with_plain; [exact Hk |].
    apply (serialized_with_release x s), H.
Qed.

Lemma serialized_with_createIncremental_resumed x s data params k e w :
  plain k ->
  serialized_with (fun s' => token (sid_eqb s' s) + x s') w ->
  serialized_with x (createIncremental_resumed s data params k e w).
Proof.
  intros Hk H. unfold createIncremental_resumed.
  assert (Hfail : forall m, serialized_with x (fulfil k (formatData (Rejected m)) w)).
  { intros m. apply serialized_with_fulfil; [apply plain_shallow, Hk |].
    apply serialized_with_plain; [exact Hk |].
    apply (serialized_with_release x s), H. }
  destruct (newId_of e) as [newId | m]; [| apply Hfail].
  destruct (js_gt_0 newId).
  - apply serialized_with_createNormal; [exact Hk |].
    apply serialized_with_update; [exact I | exact H].
  - destruct (this_create Opts _ None KDiscard w) as [w1 | m] eqn:E; [| apply Hfail].
    apply serialized_with_createNormal; [exact Hk |].
    eapply serialized_with_this_create; [| exact H | exact E]. exact I.
Qed.

Lemma serialized_with_store_settled x a o w :
  awaiting_ok a ->
  serialized_with (fun s => token (creating s a) + x s) w ->
  serialized_with x (store_settled a o w).
Proof.
  intros Ha H. destruct a; simpl in *.
  - apply serialized_with_find_settled; assumption.
  - apply serialized_with_get_settled; assumption.
  - apply serialized_with_createNormal_settled; assumption.
  - apply serialized_with_mutation_settled; assumption.
Qed.

Lemma serialized_with_envelope_delivered x k e w :
  shallow k ->
  serialized_with (fun s => token (allocating s k) + x s) w ->
  serialized_with x (envelope_delivered k e w).
Proof.
  intros Hk H. destruct k as [h | | s data params k' | resolve result k']; simpl in *.
  - apply serialized_with_answer. exact H.
  - exact H.
  - apply serialized_with_createIncremental_resumed; assumption.
  - destruct Hk as [Hr Hk'].
    apply serialized_with_fulfil; [apply plain_shallow, Hk' |].
    apply serialized_with_plain; [exact Hk' |].
    apply serialized_with_fulfil; [apply plain_shallow, Hr |].
    apply serialized_with_plain; [exact Hr |]. exact H.
Qed.

Lemma serialized_step w ev : serialized w -> serialized (step w ev).
Proof.
  unfold serialized. intros H. destruct ev as [s r h | c o | | t]; simpl.
  - destruct (invoke s r (KCaller h) w) as [w' | m] eqn:E.
    + eapply serialized_with_invoke; [| exact H | exact E]. exact I.
    + apply serialized_with_answer, H.
  - destruct (take_pending c (pending w)) as [[a rest] |] eqn:E; [| exact H].
    destruct (serialized_with_take_pending _ _ _ _ _ E H) as [Ha H'].
    apply serialized_with_store_settled; assumption.
  - destruct (ready w) as [| [k e] rest] eqn:E; [exact H |].
    destruct (serialized_with_take_ready _ _ _ _ _ E H) as [Hk H'].
    apply serialized_with_envelope_delivered; assumption.
  - apply serialized_with_clock, H.
Qed.

Lemma serialized_run evs : forall w, serialized w -> serialized (run evs w).
Proof.
  unfold run. induction evs as [| ev evs IH]; simpl; intros w H.
  - exact H.
  - apply IH, serialized_step, H.
Qed.

Lemma serialized_new_world incremental cacheable :
  serialized (new_world incremental cacheable).
Proof.
  split; [split; [| split] |].
  - constructor.
  - constructor.
  - intros []; constructor.
  - intros []; simpl; apply Nat.le_refl.
Qed.

Lemma inserts_le_in_flight s w : inserts_in_flight s w <= in_flight s w.
Proof.
  unfold inserts_in_flight, in_flight.
  apply Nat.le_trans with (count (fun ca => creating s (snd ca)) (pending w));
    [| apply Nat.le_add_r].
  apply count_le. intros [c a]. simpl. destruct a; auto; discriminate.
Qed.

(** X23.  Creations are serialized.  In every run of a service from its
    construction, the store has at most one unsettled insert of that
    service at a time, and while [isCreationInProcess] is false no
    creation of the service is in flight: none waits for its insert or
    for the counter. *)
Theorem X23_one_creation_at_a_time incremental cacheable evs s :
  inserts_in_flight s (run evs (new_world incremental cacheable)) <= 1
  /\ in_flight s (run evs (new_world incremental cacheable))
     <= token (isCreationInProcess (service_of s (run evs (new_world incremental cacheable)))).
Proof.
  assert (H : serialized (run evs (new_world incremental cacheable))).
  { apply serialized_run, serialized_new_world. }
  destruct H as [_ H]. specialize (H s). rewrite Nat.add_0_r in H.
  split; [| exact H].
  apply Nat.le_trans with (1 := inserts_le_in_flight s _).
  apply Nat.le_trans with (1 := H).
  destruct (isCreationInProcess _); simpl; auto.
Qed.

(** * No call is answered twice *)

Lemma total_app {A : Type} (f : A -> nat) l1 l2 :
  total f (l1 ++ l2) = total f l1 + total f l2.
Proof.
  unfold total. induction l1 as [| a l1 IH]; simpl; [reflexivity | rewrite IH; lia].
Qed.

Lemma take_pending_total (f : awaiting -> nat) c p a rest :
  take_pending c p = Some (a, rest) ->
  total (fun ca => f (snd ca)) p = f a + total (fun ca => f (snd ca)) rest.
Proof.
  revert a rest. induction p as [| [c' a'] p IH]; simpl; intros a rest H.
  - discriminate.
  - destruct (Nat.eqb c' c).
    + injection H as <- <-. reflexivity.
    + destruct (take_pending c p) as [[a0 rest0] |]; [| discriminate].
      injection H as <- <-. simpl. rewrite (IH a0 rest0 eq_refl). lia.
Qed.

Lemma total_JsMap_set {V : Type} (f : string * V -> nat) (g : V -> nat) k v m :
  (forall k' v', f (k', v') = g v') ->
  total f (JsMap.set k v m) <= total f m + g v.
Proof.
  intros Hf. induction m as [| [k' v'] m IH]; simpl.
  - rewrite Hf. lia.
  - destruct (k' =? k)%string; simpl; rewrite ?Hf; fold (total f m);
      fold (total f (JsMap.set k v m)); lia.
Qed.

Lemma total_JsMap_delete_first {V : Type} (f : string * V -> nat) k v (m : JsMap.t V) :
  JsMap.first m = Some (k, v) ->
  total f m = f (k, v) + total f (JsMap.delete k m).
Proof.
  destruct m as [| [k' v'] m]; simpl; [discriminate |].
  intros E. injection E as -> ->. rewrite String.eqb_refl. reflexivity.
Qed.

Lemma due_fulfil h k e w : due h (fulfil k e w) = due h w + answers_to h k.
Proof.
  unfold due, owed_to, replies_to. simpl. rewrite total_app. simpl. lia.
Qed.

Lemma due_issue h c a w :
  due h (issue c a w) = due h w + answers_to h (kont_of_awaiting a).
Proof.
  unfold due, owed_to, replies_to. simpl. rewrite total_app. simpl. lia.
Qed.

Lemma due_answer h h' r w :
  due h (answer h' r w) = due h w + token (Nat.eqb h' h).
Proof.
  unfold due, owed_to, replies_to. simpl. rewrite count_app, count_one. simpl. lia.
Qed.

Lemma due_with_service h s this w :
  creationQueue this = creationQueue (service_of s w) ->
  due h (with_service s this w) = due h w.
Proof.
  intros Hq. unfold due, owed_to, replies_to. destruct s; simpl in *; rewrite Hq; reflexivity.
Qed.

Lemma due_queue_set h s key data params k w :
  due h (with_service s
           (with_creationQueue
              (JsMap.set key (mkQueued data params k) (creationQueue (service_of s w)))
              (service_of s w)) w)
  <= due h w + answers_to h k.
Proof.
  unfold due, owed_to, replies_to.
  assert (H := total_JsMap_set (fun kq => answers_to h (q_resolve (snd kq)))
                 (fun v => answers_to h (q_resolve v)) key (mkQueued data params k)
                 (creationQueue (service_of s w)) (fun _ _ => eq_refl)).
  destruct s; simpl in *; lia.
Qed.

Lemma due_queue_delete_first h s key value w :
  JsMap.first (creationQueue (service_of s w)) = Some (key, value) ->
  due h w
  = due h (with_service s
             (with_creationQueue (JsMap.delete key (creationQueue (service_of s w)))
                (service_of s w)) w)
    + answers_to h (q_resolve value).
Proof.
  intros Hq. unfold due, owed_to, replies_to.
  assert (H := total_JsMap_delete_first
                 (fun kq => answers_to h (q_resolve (snd kq))) key value _ Hq).
  destruct s; simpl in *; lia.
Qed.

Lemma due_find h s params k w : due h (find s params k w) = due h w + answers_to h k.
Proof.
  unfold find. destruct (if cacheable (service_of s w) then _ else _).
  - apply due_fulfil.
  - apply due_issue.
Qed.

Lemma due_get h s id params k w : due h (get s id params k w) = due h w + answers_to h k.
Proof.
  unfold get. destruct (if cacheable (service_of s w) then _ else _).
  - apply due_fulfil.
  - apply due_issue.
Qed.

Lemma due_update h s id data params k w :
  due h (update s id data params k w) = due h w + answers_to h k.
Proof. apply due_issue. Qed.

Lemma due_patch h s id data params k w :
  due h (patch s id data params k w) = due h w + answers_to h k.
Proof. apply due_issue. Qed.

Lemma due_remove h s id params k w :
  due h (remove s id params k w) = due h w + answers_to h k.
Proof. apply due_issue. Qed.

Lemma due_create h s data params k w :
  due h (create s data params k w) <= due h w + answers_to h k.
Proof.
  unfold create. destruct (isCreationInProcess (service_of s w)).
  - apply due_queue_set.
  - assert (E : due h (with_service s (with_isCreationInProcess true (service_of s w)) w)
                = due h w) by (apply due_with_service; reflexivity).
    destruct (incremental (service_of s w)).
    + unfold createIncremental. rewrite due_get, E. simpl. apply Nat.le_refl.
    + unfold createNormal. rewrite due_issue, E. simpl. apply Nat.le_refl.
Qed.

Lemma due_this_create h s data params k w w' :
  this_create s data params k w = Normal w' -> due h w' <= due h w + answers_to h k.
Proof.
  destruct s; simpl.
  - intros E. injection E as <-. apply due_create.
  - unfold OptionsService_create. destruct (negb _); [discriminate |].
    intros E. injection E as <-. apply due_create.
Qed.

Lemma due_this_find h s params k w w' :
  this_find s params k w = Normal w' -> due h w' <= due h w + answers_to h k.
Proof.
  destruct s; simpl.
  - intros E. injection E as <-. rewrite due_find. apply Nat.le_refl.
  - unfold OptionsService_find. destruct (OptionsService_find_params params); [| discriminate].
    intros E. injection E as <-. rewrite due_find. apply Nat.le_refl.
Qed.

Lemma due_invoke h s r k w w' :
  invoke s r k w = Normal w' -> due h w' <= due h w + answers_to h k.
Proof.
  destruct r; simpl.
  - apply due_this_find.
  - intros E. injection E as <-. rewrite due_get. apply Nat.le_refl.
  - apply due_this_create.
  - intros E. injection E as <-. rewrite due_update. apply Nat.le_refl.
  - intros E. injection E as <-. rewrite due_patch. apply Nat.le_refl.
  - intros E. injection E as <-. rewrite due_remove. apply Nat.le_refl.
Qed.

Lemma due_find_settled h s key k o w :
  due h (find_settled s key k o w) = due h w + answers_to h k.
Proof.
  unfold find_settled. rewrite due_fulfil.
  destruct (cacheable (service_of s w) && is_OK (formatData o))%bool; [| reflexivity].
  rewrite due_with_service; reflexivity.
Qed.

Lemma due_get_settled h s key k o w :
  due h (get_settled s key k o w) = due h w + answers_to h k.
Proof.
  unfold get_settled. rewrite due_fulfil.
  destruct (cacheable (service_of s w) && is_OK (formatData o))%bool; [| reflexivity].
  rewrite due_with_service; reflexivity.
Qed.

Lemma due_mutation_settled h s k o w :
  due h (mutation_settled s k o w) = due h w + answers_to h k.
Proof.
  unfold mutation_settled. rewrite due_fulfil, due_with_service; reflexivity.
Qed.

Lemma due_createNormal_settled h s k o w :
  due h (createNormal_settled s k o w) <= due h w + answers_to h k.
Proof.
  unfold createNormal_settled. destruct o as [result | e];
    [| rewrite due_fulfil; apply Nat.le_refl].
  set (w1 := with_service s (with_isCreationInProcess false _) _).
  assert (E1 : due h w1 = due h w).
  { unfold w1. rewrite !due_with_service; reflexivity. }
  clearbody w1.
  destruct (JsMap.first (creationQueue (service_of s w1))) as [[key value] |] eqn:Hq.
  - assert (E2 := due_queue_delete_first h s key value w1 Hq).
    destruct (this_create s (q_data value) (q_params value)
                (KDrain (q_resolve value) result k) _) as [w2 | m] eqn:E.
    + apply (due_this_create h) in E. simpl in E. lia.
    + rewrite due_fulfil. lia.
  - rewrite due_fulfil. lia.
Qed.

Lemma due_createIncremental_resumed h s data params k e w :
  due h (createIncremental_resumed s data params k e w) <= due h w + answers_to h k.
Proof.
  unfold createIncremental_resumed.
  destruct (newId_of e) as [newId | m]; [| rewrite due_fulfil; apply Nat.le_refl].
  destruct (js_gt_0 newId).
  - unfold createNormal. rewrite due_issue, due_update. simpl. lia.
  - destruct (this_create Opts _ None KDiscard w) as [w1 | m] eqn:E;
      [| rewrite due_fulfil; apply Nat.le_refl].
    apply (due_this_create h) in E. unfold createNormal. rewrite due_issue. simpl in *. lia.
Qed.

Lemma due_store_settled h a o w :
  due h (store_settled a o w) <= due h w + answers_to h (kont_of_awaiting a).
Proof.
  destruct a; simpl.
  - rewrite due_find_settled. apply Nat.le_refl.
  - rewrite due_get_settled. apply Nat.le_refl.
  - apply due_createNormal_settled.
  - rewrite due_mutation_settled. apply Nat.le_refl.
Qed.

Lemma due_envelope_delivered h k e w :
  due h (envelope_delivered k e w) <= due h w + answers_to h k.
Proof.
  destruct k as [h' | | s data params k' | resolve result k']; simpl.
  - rewrite due_answer. apply Nat.le_refl.
  - lia.
  - apply due_createIncremental_resumed.
  - rewrite !due_fulfil. lia.
Qed.

Lemma due_take_pending h c a rest w :
  take_pending c (pending w) = Some (a, rest) ->
  due h w = due h (with_pending rest w) + answers_to h (kont_of_awaiting a).
Proof.
  intros E. unfold due, owed_to, replies_to. simpl.
  rewrite (take_pending_total (fun a => answers_to h (kont_of_awaiting a)) _ _ _ _ E). lia.
Qed.

Lemma due_take_ready h k e rest w :
  ready w = (k, e) :: rest ->
  due h w = due h (with_ready rest w) + answers_to h k.
Proof.
  intros E. unfold due, owed_to, replies_to. simpl. rewrite E. simpl. lia.
Qed.

Lemma due_step h w ev : due h (step w ev) <= due h w + calls_with h [ev].
Proof.
  unfold calls_with. rewrite count_one.
  destruct ev as [s r h' | c o | | t]; simpl.
  - destruct (invoke s r (KCaller h') w) as [w' | m] eqn:E.
    + apply (due_invoke h) in E. exact E.
    + rewrite due_answer. apply Nat.le_refl.
  - destruct (take_pending c (pending w)) as [[a rest] |] eqn:E; [| lia].
    rewrite (due_take_pending h _ _ _ _ E).
    assert (H := due_store_settled h a o (with_pending rest w)). lia.
  - destruct (ready w) as [| [k e] rest] eqn:E; [lia |].
    rewrite (due_take_ready h _ _ _ _ E).
    assert (H := due_envelope_delivered h k e (with_ready rest w)). lia.
  - unfold due, owed_to, replies_to. simpl. lia.
Qed.

Lemma due_run h evs : forall w, due h (run evs w) <= due h w + calls_with h evs.
Proof.
  unfold run. induction evs as [| ev evs IH]; simpl; intros w.
  - unfold calls_with, count. simpl. lia.
  - specialize (IH (step w ev)). assert (H := due_step h w ev).
    unfold calls_with in *. rewrite count_cons. rewrite count_one in H. lia.
Qed.

(** X24.  No call is answered more often than it was made.  In every
    run of a service from its construction, the replies given to a
    handle and the continuations that still hold its promise are
    together at most as many as the calls made with that handle; a
    handle used for one call gets at most one reply. *)
Theorem X24_at_most_one_reply incremental cacheable evs h :
  replies_to h (run evs (new_world incremental cacheable))
  + owed_to h (run evs (new_world incremental cacheable))
  <= calls_with h evs.
Proof.
  assert (H := due_run h evs (new_world incremental cacheable)).
  unfold due in H at 1.
  assert (E : due h (new_world incremental cacheable) = 0) by reflexivity.
  lia.
Qed.
